(** * Worker supervision, message correlation and the monitoring state machine

    A shallow embedding of [src/pythonClient.ts] (class [PythonClient]),
    [src/stateManager.ts] (class [StateManager]) and the stock list of
    [src/configManager.ts] (class [ConfigManager]), with the message types
    of [src/types/stock.ts] and the control items of the tree view
    ([out/views/stockView.js]).

    Conventions of the embedding.
    - A JavaScript [number] the program computes with (money, a
      percentage, the update interval) is a binary64 float ([float]), and
      [+], [*], [/] and [>] on it are the operations of IEEE 754.  A
      number that is only read from JSON text and compared with zero is
      kept as the rational the text denotes ([Q]).  Timestamps and delays
      of the client are integers ([Z], milliseconds).
    - An [async] method is cut at each [await]: the part before the await
      is run by the event that calls the method, the part behind it is run
      by the event that settles the awaited promise.  Everything between
      two awaits is one atomic step, as on the single JavaScript thread.
    - What the host shows, logs or hands to listeners is appended to a log
      (oldest entry first), so that "nothing was reported" is a statement
      about a list. *)

From Stdlib Require Import ZArith NArith QArith List String Ascii Lia Bool Floats.
From Stdlib.Strings Require Import Byte.
From stdpp Require Import base gmap strings list sorting.

(** ** [src/types/stock.ts] *)

Inductive MonitoringState := STOPPED | STARTING | RUNNING | STOPPING | ERROR.

#[global] Instance MonitoringState_eq_dec : EqDecision MonitoringState.
Proof. solve_decision. Defined.

Inductive PythonCommandType :=
  | cmd_start | cmd_stop | cmd_pause | cmd_resume
  | cmd_update | cmd_get_config | cmd_set_config.

#[global] Instance PythonCommandType_eq_dec : EqDecision PythonCommandType.
Proof. solve_decision. Defined.

Record StockData := {
  code : string;
  name : string;
  currentPrice : float;
  buyPrice : float;
  quantity : float;
  profitAmount : float;
  profitPercent : float;
  marketValue : float;
  costBasis : float;
  change : float;
  changePercent : float;
  lastUpdate : Z;
  enabled : bool
}.

Record SummaryData := {
  totalProfit : float;
  totalProfitPercent : float;
  totalMarketValue : float;
  totalCostBasis : float;
  stockCount : nat;
  enabledCount : nat
}.

Record StockConfig := {
  sc_code : string;
  sc_buyPrice : float;
  sc_quantity : float;
  sc_enabled : bool
}.

Record PluginConfig := {
  version : string;
  stocks : list StockConfig;
  updateInterval : float;      (* settings.updateInterval, seconds *)
  autoStart : bool;
  showNotifications : bool;
  priceAlertThreshold : float
}.

(** ** JavaScript strings and [Buffer.prototype.toString]

    A string is its sequence of UTF-16 code units. *)

Module Text.

Definition jsstring := list N.

(** A string literal of the source that is plain ASCII. *)
Definition js (s : string) : jsstring := map N_of_ascii (list_ascii_of_string s).

Definition LF : N := 10.

(** [s.split('\n')]: the pieces between the separators; never empty. *)
Fixpoint split_nl (s : jsstring) : list jsstring :=
  match s with
  | [] => [[]]
  | c :: rest =>
      if (c =? LF)%N then [] :: split_nl rest
      else match split_nl rest with
           | [] => [[c]]
           | piece :: pieces => (c :: piece) :: pieces
           end
  end.

(** [WhiteSpace] and [LineTerminator] of ECMAScript, what [trim] strips. *)
Definition is_space (c : N) : bool :=
  ((9 <=? c) && (c <=? 13) || (c =? 32) || (c =? 160) || (c =? 5760)
   || (8192 <=? c) && (c <=? 8202) || (c =? 8232) || (c =? 8233)
   || (c =? 8239) || (c =? 8287) || (c =? 12288) || (c =? 65279))%N.

Fixpoint trim_start (s : jsstring) : jsstring :=
  match s with
  | [] => []
  | c :: rest => if is_space c then trim_start rest else s
  end.

Definition trim (s : jsstring) : jsstring :=
  rev (trim_start (rev (trim_start s))).

(** [!s]: the empty string is the only falsy string. *)
Definition is_empty (s : jsstring) : bool :=
  match s with [] => true | _ => false end.

End Text.

(** [buffer.toString()]: UTF-8 decoding of one chunk, on its own.  A byte
    sequence that is not well formed yields U+FFFD per maximal ill-formed
    part, and so does a sequence cut short by the end of the chunk. *)

Module Utf8.
Import Text.

Record dstate := {
  needed : nat;        (* continuation bytes still expected *)
  point : N;           (* the code point under construction *)
  lower : N;           (* bounds for the next continuation byte *)
  upper : N
}.

Definition idle : dstate :=
  {| needed := 0; point := 0; lower := 128; upper := 191 |}.

Definition replacement : N := 65533.

(** The UTF-16 code units of a code point. *)
Definition units (c : N) : jsstring :=
  if (c <? 65536)%N then [c]
  else let c' := (c - 65536)%N in [(55296 + c' / 1024)%N; (56320 + c' mod 1024)%N].

(** A byte met when no sequence is open. *)
Definition lead (b : N) : dstate * jsstring :=
  if (b <=? 127)%N then (idle, [b])
  else if ((194 <=? b) && (b <=? 223))%N then
    ({| needed := 1; point := N.land b 31; lower := 128; upper := 191 |}, [])
  else if ((224 <=? b) && (b <=? 239))%N then
    ({| needed := 2; point := N.land b 15;
        lower := if (b =? 224)%N then 160 else 128;
        upper := if (b =? 237)%N then 159 else 191 |}, [])
  else if ((240 <=? b) && (b <=? 244))%N then
    ({| needed := 3; point := N.land b 7;
        lower := if (b =? 240)%N then 144 else 128;
        upper := if (b =? 244)%N then 143 else 191 |}, [])
  else (idle, [replacement]).

Definition feed (st : dstate) (b : N) : dstate * jsstring :=
  match needed st with
  | O => lead b
  | S n =>
      if ((lower st <=? b) && (b <=? upper st))%N then
        let c := N.lor (N.shiftl (point st) 6) (N.land b 63) in
        match n with
        | O => (idle, units c)
        | S _ => ({| needed := n; point := c; lower := 128; upper := 191 |}, [])
        end
      else
        let '(st', out) := lead b in (st', replacement :: out)
  end.

Fixpoint decode_from (st : dstate) (bs : list N) : jsstring :=
  match bs with
  | [] => match needed st with O => [] | S _ => [replacement] end
  | b :: rest => let '(st', out) := feed st b in out ++ decode_from st' rest
  end.

Definition toString (data : list byte) : jsstring :=
  decode_from idle (map Byte.to_N data).

(** The decoder's state after a chunk. *)
Fixpoint state_after (st : dstate) (bs : list N) : dstate :=
  match bs with
  | [] => st
  | b :: rest => state_after (fst (feed st b)) rest
  end.

(** The chunk ends between two characters. *)
Definition ends_clean (data : list byte) : bool :=
  match needed (state_after idle (map Byte.to_N data)) with O => true | S _ => false end.

Definition is_ascii (b : byte) : bool := (Byte.to_N b <=? 127)%N.

End Utf8.

(** ** [JSON.parse]

    The value grammar of ECMA-404 over code units.  A number is kept as
    the exact rational its literal denotes. *)

Module Json.
Import Text.

Inductive value :=
  | JNull
  | JBool (b : bool)
  | JNum (q : Q)
  | JStr (s : jsstring)
  | JArr (items : list value)
  | JObj (fields : list (jsstring * value)).

Definition chr (a : ascii) : N := N_of_ascii a.
Definition quote : N := 34.

Definition is_ws (c : N) : bool :=
  ((c =? 32) || (c =? 9) || (c =? 10) || (c =? 13))%N.

Fixpoint skip_ws (s : jsstring) : jsstring :=
  match s with
  | [] => []
  | c :: rest => if is_ws c then skip_ws rest else s
  end.

Definition is_digit (c : N) : bool := ((48 <=? c) && (c <=? 57))%N.

Definition hex_digit (c : N) : option N :=
  if is_digit c then Some (c - 48)%N
  else if ((97 <=? c) && (c <=? 102))%N then Some (c - 87)%N
  else if ((65 <=? c) && (c <=? 70))%N then Some (c - 55)%N
  else None.

Definition hex4 (a b c d : N) : option N :=
  match hex_digit a, hex_digit b, hex_digit c, hex_digit d with
  | Some a, Some b, Some c, Some d => Some (((a * 16 + b) * 16 + c) * 16 + d)%N
  | _, _, _, _ => None
  end.

(** The character after a backslash, other than [u]. *)
Definition unescape (c : N) : option N :=
  if (c =? quote)%N then Some quote
  else if (c =? chr "\")%N then Some (chr "\")
  else if (c =? chr "/")%N then Some (chr "/")
  else if (c =? chr "b")%N then Some 8%N
  else if (c =? chr "f")%N then Some 12%N
  else if (c =? chr "n")%N then Some 10%N
  else if (c =? chr "r")%N then Some 13%N
  else if (c =? chr "t")%N then Some 9%N
  else None.

Definition push (c : N) (r : option (jsstring * jsstring)) : option (jsstring * jsstring) :=
  match r with
  | Some (s, rest) => Some (c :: s, rest)
  | None => None
  end.

(** The characters of a string literal after its opening quote, and what
    follows the closing quote. *)
Fixpoint string_body (s : jsstring) : option (jsstring * jsstring) :=
  match s with
  | [] => None
  | c :: rest =>
      if (c =? quote)%N then Some ([], rest)
      else if (c =? chr "\")%N then
        match rest with
        | [] => None
        | e :: rest1 =>
            if (e =? chr "u")%N then
              match rest1 with
              | h1 :: h2 :: h3 :: h4 :: rest2 =>
                  match hex4 h1 h2 h3 h4 with
                  | Some u => push u (string_body rest2)
                  | None => None
                  end
              | _ => None
              end
            else
              match unescape e with
              | Some u => push u (string_body rest1)
              | None => None
              end
        end
      else if (c <? 32)%N then None
      else push c (string_body rest)
  end.

(** A run of decimal digits: its value, its length, and the rest. *)
Fixpoint digits (s : jsstring) (acc : Z) (len : nat) : Z * nat * jsstring :=
  match s with
  | c :: rest =>
      if is_digit c then digits rest (acc * 10 + Z.of_N (c - 48)) (S len)
      else (acc, len, s)
  | [] => (acc, len, [])
  end.

(** [m * 10 ^ e] *)
Definition scale (m e : Z) : Q :=
  if (0 <=? e)%Z then inject_Z (m * 10 ^ e)
  else Qmake m (Z.to_pos (10 ^ (- e))).

Definition number (s : jsstring) : option (Q * jsstring) :=
  let '(negative, s1) :=
    match s with
    | c :: rest => if (c =? chr "-")%N then (true, rest) else (false, s)
    | [] => (false, s)
    end in
  let int_part :=
    match s1 with
    | c :: rest =>
        if (c =? chr "0")%N then Some (0%Z, rest)
        else if is_digit c then
          let '(m, _, rest') := digits s1 0 0 in Some (m, rest')
        else None
    | [] => None
    end in
  match int_part with
  | None => None
  | Some (m, s2) =>
      let frac_part :=
        match s2 with
        | c :: rest =>
            if (c =? chr ".")%N then
              let '(m', len, rest') := digits rest m 0 in
              match len with O => None | S _ => Some (m', Z.of_nat len, rest') end
            else Some (m, 0%Z, s2)
        | [] => Some (m, 0%Z, s2)
        end in
      match frac_part with
      | None => None
      | Some (m', shift, s3) =>
          let exp_part :=
            match s3 with
            | c :: rest =>
                if ((c =? chr "e") || (c =? chr "E"))%N then
                  let '(minus, rest1) :=
                    match rest with
                    | d :: rest' =>
                        if (d =? chr "-")%N then (true, rest')
                        else if (d =? chr "+")%N then (false, rest')
                        else (false, rest)
                    | [] => (false, rest)
                    end in
                  let '(e, len, rest2) := digits rest1 0 0 in
                  match len with
                  | O => None
                  | S _ => Some ((if minus then - e else e)%Z, rest2)
                  end
                else Some (0%Z, s3)
            | [] => Some (0%Z, s3)
            end in
          match exp_part with
          | None => None
          | Some (e, s4) =>
              Some (scale (if negative then - m' else m')%Z (e - shift), s4)
          end
      end
  end.

(** [s] starts with the literal [lit]: what follows it. *)
Fixpoint after (lit s : jsstring) : option jsstring :=
  match lit, s with
  | [], _ => Some s
  | a :: lit', c :: rest => if (a =? c)%N then after lit' rest else None
  | _ :: _, [] => None
  end.

Fixpoint parse_value (fuel : nat) (s : jsstring) : option (value * jsstring) :=
  match fuel with
  | O => None
  | S fuel =>
      match skip_ws s with
      | [] => None
      | c :: rest =>
          if (c =? chr "{")%N then
            match skip_ws rest with
            | d :: rest' =>
                if (d =? chr "}")%N then Some (JObj [], rest')
                else parse_members fuel rest []
            | [] => None
            end
          else if (c =? chr "[")%N then
            match skip_ws rest with
            | d :: rest' =>
                if (d =? chr "]")%N then Some (JArr [], rest')
                else parse_elements fuel rest []
            | [] => None
            end
          else if (c =? quote)%N then
            match string_body rest with
            | Some (str, rest') => Some (JStr str, rest')
            | None => None
            end
          else if ((c =? chr "-") || is_digit c)%N then
            match number (c :: rest) with
            | Some (q, rest') => Some (JNum q, rest')
            | None => None
            end
          else
            match after (js "true") (c :: rest) with
            | Some rest' => Some (JBool true, rest')
            | None =>
                match after (js "false") (c :: rest) with
                | Some rest' => Some (JBool false, rest')
                | None =>
                    match after (js "null") (c :: rest) with
                    | Some rest' => Some (JNull, rest')
                    | None => None
                    end
                end
            end
      end
  end

with parse_elements (fuel : nat) (s : jsstring) (acc : list value)
  : option (value * jsstring) :=
  match fuel with
  | O => None
  | S fuel =>
      match parse_value fuel s with
      | Some (v, rest) =>
          match skip_ws rest with
          | c :: rest' =>
              if (c =? chr ",")%N then parse_elements fuel rest' (v :: acc)
              else if (c =? chr "]")%N then Some (JArr (rev (v :: acc)), rest')
              else None
          | [] => None
          end
      | None => None
      end
  end

with parse_members (fuel : nat) (s : jsstring) (acc : list (jsstring * value))
  : option (value * jsstring) :=
  match fuel with
  | O => None
  | S fuel =>
      match skip_ws s with
      | q :: rest =>
          if (q =? quote)%N then
            match string_body rest with
            | Some (key, rest1) =>
                match skip_ws rest1 with
                | c :: rest2 =>
                    if (c =? chr ":")%N then
                      match parse_value fuel rest2 with
                      | Some (v, rest3) =>
                          match skip_ws rest3 with
                          | d :: rest4 =>
                              if (d =? chr ",")%N
                              then parse_members fuel rest4 ((key, v) :: acc)
                              else if (d =? chr "}")%N
                              then Some (JObj (rev ((key, v) :: acc)), rest4)
                              else None
                          | [] => None
                          end
                      | None => None
                      end
                    else None
                | [] => None
                end
            | None => None
            end
          else None
      | [] => None
      end
  end.

(** [JSON.parse(text)]; [None] is the [SyntaxError]. *)
Definition parse (text : jsstring) : option value :=
  match parse_value (2 * length text + 2) text with
  | Some (v, rest) =>
      match skip_ws rest with
      | [] => Some v
      | _ :: _ => None
      end
  | None => None
  end.

(** [v.key] for a value that came out of [JSON.parse]: an own property
    of an object (the last one, when the text repeats the key), and
    [undefined] otherwise. *)
Fixpoint lookup_field (key : jsstring) (fields : list (jsstring * value)) : option value :=
  match fields with
  | [] => None
  | (k, v) :: rest =>
      match lookup_field key rest with
      | Some v' => Some v'
      | None => if bool_decide (k = key) then Some v else None
      end
  end.

Definition prop (v : value) (key : jsstring) : option value :=
  match v with
  | JObj fields => lookup_field key fields
  | _ => None
  end.

End Json.

(** ** A JavaScript [Map<string, V>]

    Iteration order is insertion order; [set] on a key that is present
    keeps the key's position and replaces its value. *)

Module JsMap.
Section ops.
Context {V : Type}.

Fixpoint set (k : string) (v : V) (m : list (string * V)) : list (string * V) :=
  match m with
  | [] => [(k, v)]
  | (k', v') :: rest =>
      if String.eqb k' k then (k, v) :: rest else (k', v') :: set k v rest
  end.

Fixpoint get (k : string) (m : list (string * V)) : option V :=
  match m with
  | [] => None
  | (k', v') :: rest => if String.eqb k' k then Some v' else get k rest
  end.

Definition values (m : list (string * V)) : list V := map snd m.
Definition keys (m : list (string * V)) : list string := map fst m.
Definition clear (m : list (string * V)) : list (string * V) := [].
End ops.
End JsMap.

(** ** [src/stateManager.ts] *)

Module StateManager.

(** What can reach [handleStockData] at run time.  The parameter is
    declared [StockData[]]; the guard [Array.isArray] is there for
    everything else, and nothing looks at the elements of an array
    before the loop reads [stock.code].  An array is therefore either a
    list of snapshots, or a list of snapshots [before] followed by an
    element that is [null] or [undefined] (and by whatever else, which
    the loop never gets to).  Elements of other shapes are not
    modelled. *)
Inductive js_data :=
  | Undefined
  | Null
  | Boolean (b : bool)
  | Number (x : float)
  | Str (s : string)
  | Object
  | StockArray (l : list StockData)
  | NullishArray (before : list StockData).

Definition isArray (d : js_data) : bool :=
  match d with StockArray _ | NullishArray _ => true | _ => false end.

(** The elements the loop [for (const stock of data)] gets through. *)
Definition elements (d : js_data) : list StockData :=
  match d with StockArray l => l | NullishArray before => before | _ => [] end.

(** Does the loop end in the [TypeError] of reading [code] of [null] or
    [undefined]? *)
Definition throws (d : js_data) : bool :=
  match d with NullishArray _ => true | _ => false end.

(** How the [TypeError] reads in a message: [`${error}`] begins so. *)
Definition type_error : string := "TypeError".

(** [if (!success)] on whatever the awaited promise produced. *)
Definition truthy (d : js_data) : bool :=
  match d with
  | Undefined | Null => false
  | Boolean b => b
  | Number x => negb (PrimFloat.eqb x 0 || PrimFloat.is_nan x)
  | Str s => negb (String.eqb s EmptyString)
  | Object | StockArray _ | NullishArray _ => true
  end.

Inductive settlement :=
  | Fulfilled (v : js_data)
  | Rejected (reason : string).

(** The code that waits behind an [await]. *)
Inductive awaiting :=
  | StartAwaitsDaemon      (* start(): await pythonClient.startDaemon() *)
  | StartAwaitsConfig      (* start(): await pythonClient.sendConfig(config) *)
  | StopAwaitsPause        (* stop(): await pythonClient.sendCommand(pause) *)
  | RefreshAwaitsUpdate    (* refresh(): await pythonClient.requestUpdate() *)
  | PollAwaitsUpdate       (* performUpdate(): await pythonClient.requestUpdate() *)
  | ConfigPushAwaits.      (* handleConfigChange(): sendConfig(config).catch(..) *)

#[global] Instance awaiting_eq_dec : EqDecision awaiting.
Proof. solve_decision. Defined.

(** Calls made on the [PythonClient]. *)
Inductive client_call :=
  | CallStartDaemon
  | CallSendConfig (cfg : PluginConfig)
  | CallSendCommand (kind : PythonCommandType)
  | CallRequestUpdate.

(** [vscode.window.show*Message]. *)
Inductive notice :=
  | InfoMonitoringStarted                 (* showInformationMessage('股票监控已启动') *)
  | ErrorStartFailed (reason : string)    (* showErrorMessage(`启动失败: ..`) *)
  | InfoMonitoringStopped                 (* showInformationMessage('股票监控已停止') *)
  | WarnNotRunning                        (* showWarningMessage('监控未运行，无法刷新') *)
  | InfoRefreshed                         (* showInformationMessage('股票数据已刷新') *)
  | ErrorRefreshFailed (reason : string)  (* showErrorMessage(`刷新失败: ..`) *)
  | ErrorUpdateFailed (reason : string).  (* showErrorMessage(`更新失败: ..`) *)

Inductive console_line :=
  | WarnPauseFailed (reason : string)
  | ErrorPollFailed (reason : string)
  | ErrorConfigPushFailed (reason : string).

(** One call of one listener. *)
Inductive notification :=
  | ToStateListener (listener : nat) (s : MonitoringState)
  | ToUpdateListener (listener : nat) (data : list StockData).

(** The object returned by [setInterval]. *)
Record Timeout := { handle : nat; period_ms : float }.

Record t := mk {
  (* the fields of the class *)
  state : MonitoringState;
  timer : option Timeout;
  stockData : list (string * StockData);
  summaryData : option SummaryData;
  updateListeners : list nat;
  stateListeners : list nat;
  (* the collaborators *)
  config : PluginConfig;               (* what configManager.getConfig() returns *)
  awaited : list (nat * awaiting);     (* promises not yet settled *)
  fresh : nat;                         (* next promise or timer handle *)
  calls : list client_call;
  notified : list notification;
  shown : list notice;
  console : list console_line
}.

Definition set_state (s : MonitoringState) (m : t) : t :=
  mk s (timer m) (stockData m) (summaryData m) (updateListeners m) (stateListeners m)
     (config m) (awaited m) (fresh m) (calls m) (notified m) (shown m) (console m).
Definition set_timer (x : option Timeout) (m : t) : t :=
  mk (state m) x (stockData m) (summaryData m) (updateListeners m) (stateListeners m)
     (config m) (awaited m) (fresh m) (calls m) (notified m) (shown m) (console m).
Definition set_stockData (x : list (string * StockData)) (m : t) : t :=
  mk (state m) (timer m) x (summaryData m) (updateListeners m) (stateListeners m)
     (config m) (awaited m) (fresh m) (calls m) (notified m) (shown m) (console m).
Definition set_summaryData (x : option SummaryData) (m : t) : t :=
  mk (state m) (timer m) (stockData m) x (updateListeners m) (stateListeners m)
     (config m) (awaited m) (fresh m) (calls m) (notified m) (shown m) (console m).
Definition set_updateListeners (x : list nat) (m : t) : t :=
  mk (state m) (timer m) (stockData m) (summaryData m) x (stateListeners m)
     (config m) (awaited m) (fresh m) (calls m) (notified m) (shown m) (console m).
Definition set_stateListeners (x : list nat) (m : t) : t :=
  mk (state m) (timer m) (stockData m) (summaryData m) (updateListeners m) x
     (config m) (awaited m) (fresh m) (calls m) (notified m) (shown m) (console m).
Definition set_config (x : PluginConfig) (m : t) : t :=
  mk (state m) (timer m) (stockData m) (summaryData m) (updateListeners m) (stateListeners m)
     x (awaited m) (fresh m) (calls m) (notified m) (shown m) (console m).
Definition set_awaited (x : list (nat * awaiting)) (m : t) : t :=
  mk (state m) (timer m) (stockData m) (summaryData m) (updateListeners m) (stateListeners m)
     (config m) x (fresh m) (calls m) (notified m) (shown m) (console m).
Definition set_fresh (x : nat) (m : t) : t :=
  mk (state m) (timer m) (stockData m) (summaryData m) (updateListeners m) (stateListeners m)
     (config m) (awaited m) x (calls m) (notified m) (shown m) (console m).
Definition call (x : client_call) (m : t) : t :=
  mk (state m) (timer m) (stockData m) (summaryData m) (updateListeners m) (stateListeners m)
     (config m) (awaited m) (fresh m) (calls m ++ [x]) (notified m) (shown m) (console m).
Definition notify (x : list notification) (m : t) : t :=
  mk (state m) (timer m) (stockData m) (summaryData m) (updateListeners m) (stateListeners m)
     (config m) (awaited m) (fresh m) (calls m) (notified m ++ x) (shown m) (console m).
Definition show (x : notice) (m : t) : t :=
  mk (state m) (timer m) (stockData m) (summaryData m) (updateListeners m) (stateListeners m)
     (config m) (awaited m) (fresh m) (calls m) (notified m) (shown m ++ [x]) (console m).
Definition log (x : console_line) (m : t) : t :=
  mk (state m) (timer m) (stockData m) (summaryData m) (updateListeners m) (stateListeners m)
     (config m) (awaited m) (fresh m) (calls m) (notified m) (shown m) (console m ++ [x]).

(** [await p]: park the rest of the method behind a fresh promise. *)
Definition await (k : awaiting) (m : t) : t :=
  set_fresh (S (fresh m)) (set_awaited (awaited m ++ [(fresh m, k)]) m).

(** A new controller: [new StateManager(configManager, pythonClient)]. *)
Definition init (cfg : PluginConfig) : t :=
  mk STOPPED None [] None [] [] cfg [] 0 [] [] [] [].

(** *** Getters *)

Definition getState (m : t) : MonitoringState := state m.
Definition getStockData (m : t) : list StockData := JsMap.values (stockData m).
Definition getStock (c : string) (m : t) : option StockData := JsMap.get c (stockData m).
Definition getSummary (m : t) : option SummaryData := summaryData m.

(** *** Listeners *)

Definition addUpdateListener (l : nat) (m : t) : t :=
  set_updateListeners (updateListeners m ++ [l]) m.
Definition addStateListener (l : nat) (m : t) : t :=
  set_stateListeners (stateListeners m ++ [l]) m.

(** [indexOf] then [splice(index, 1)]: the first occurrence goes. *)
Fixpoint remove_first (l : nat) (ls : list nat) : list nat :=
  match ls with
  | [] => []
  | x :: rest => if Nat.eqb x l then rest else x :: remove_first l rest
  end.

Definition removeUpdateListener (l : nat) (m : t) : t :=
  set_updateListeners (remove_first l (updateListeners m)) m.
Definition removeStateListener (l : nat) (m : t) : t :=
  set_stateListeners (remove_first l (stateListeners m)) m.

Definition notifyStateListeners (m : t) : t :=
  notify (map (fun l => ToStateListener l (state m)) (stateListeners m)) m.

Definition notifyUpdateListeners (m : t) : t :=
  let data := getStockData m in
  notify (map (fun l => ToUpdateListener l data) (updateListeners m)) m.

Definition setState (newState : MonitoringState) (m : t) : t :=
  notifyStateListeners (set_state newState m).

(** *** The aggregator *)

(** The three running totals of the [for] loop of [calculateSummary]:
    one pass of [+=] each. *)
Definition accumulate (acc : float * float * float) (stock : StockData)
  : float * float * float :=
  let '(tp, tmv, tcb) := acc in
  (tp + profitAmount stock, tmv + marketValue stock, tcb + costBasis stock)%float.

Definition summarize (stocks : list StockData) : SummaryData :=
  let enabledStocks := List.filter enabled stocks in
  let '(tp, tmv, tcb) := fold_left accumulate enabledStocks (0, 0, 0)%float in
  let tpp := if (0 <? tcb)%float then ((tp / tcb) * 100)%float else 0%float in
  {| totalProfit := tp;
     totalProfitPercent := tpp;
     totalMarketValue := tmv;
     totalCostBasis := tcb;
     stockCount := length stocks;
     enabledCount := length enabledStocks |}.

Definition calculateSummary (m : t) : t :=
  set_summaryData (Some (summarize (JsMap.values (stockData m)))) m.

(** The [for] loop of [handleStockData]: each incoming snapshot is stored
    under its code. *)
Definition merge (l : list StockData) (sd : list (string * StockData))
  : list (string * StockData) :=
  fold_left (fun sd stock => JsMap.set (code stock) stock sd) l sd.

(** When the loop throws, the snapshots stored so far stay and the rest
    of the method is skipped; whoever called sees [throws data]. *)
Definition handleStockData (data : js_data) (m : t) : t :=
  if negb (isArray data) then m
  else
    let m1 := set_stockData (merge (elements data) (stockData m)) m in
    if throws data then m1
    else notifyUpdateListeners (calculateSummary m1).

(** *** The poll timer *)

Definition stopUpdateTimer (m : t) : t :=
  match timer m with
  | Some _ => set_timer None m
  | None => m
  end.

(** [performUpdate] up to its [await]. *)
Definition performUpdate (m : t) : t :=
  await PollAwaitsUpdate (call CallRequestUpdate m).

Definition startUpdateTimer (m : t) : t :=
  let interval := (updateInterval (config m) * 1000)%float in
  let m1 := stopUpdateTimer m in
  let m2 := set_fresh (S (fresh m1))
              (set_timer (Some {| handle := fresh m1; period_ms := interval |}) m1) in
  performUpdate m2.

(** *** The public operations, up to their first [await] *)

Definition start (m : t) : t :=
  if negb (bool_decide (state m = STOPPED)) then m
  else await StartAwaitsDaemon (call CallStartDaemon (setState STARTING m)).

Definition stop (m : t) : t :=
  if negb (bool_decide (state m = RUNNING)) then m
  else
    let m1 := setState STOPPING m in
    let m2 := stopUpdateTimer m1 in
    await StopAwaitsPause (call (CallSendCommand cmd_pause) m2).

Definition refresh (m : t) : t :=
  if negb (bool_decide (state m = RUNNING)) then show WarnNotRunning m
  else await RefreshAwaitsUpdate (call CallRequestUpdate m).

Definition handleConfigChange (cfg : PluginConfig) (m : t) : t :=
  if bool_decide (state m = RUNNING)
  then await ConfigPushAwaits (call (CallSendConfig cfg) m)
  else m.

(** The callback given to [setInterval]. *)
Definition onInterval (m : t) : t :=
  if bool_decide (state m = RUNNING) then performUpdate m else m.

Definition dispose (m : t) : t :=
  let m1 := stopUpdateTimer m in
  let m2 := set_updateListeners [] m1 in
  let m3 := set_stateListeners [] m2 in
  set_stockData (JsMap.clear (stockData m3)) m3.

(** *** The code behind each [await] *)

(** The [catch] block of [start]. *)
Definition start_failed (reason : string) (m : t) : t :=
  show (ErrorStartFailed reason) (setState ERROR m).

(** The [catch] block of [performUpdate]. *)
Definition poll_failed (reason : string) (m : t) : t :=
  let m1 := log (ErrorPollFailed reason) m in
  if bool_decide (state m1 = RUNNING)
  then show (ErrorUpdateFailed reason) (setState ERROR m1)
  else m1.

Definition resume (k : awaiting) (r : settlement) (m : t) : t :=
  match k, r with
  | StartAwaitsDaemon, Fulfilled success =>
      if negb (truthy success) then start_failed "startDaemon" m
      else await StartAwaitsConfig (call (CallSendConfig (config m)) m)
  | StartAwaitsDaemon, Rejected e => start_failed e m
  | StartAwaitsConfig, Fulfilled _ =>
      show InfoMonitoringStarted (setState RUNNING (startUpdateTimer m))
  | StartAwaitsConfig, Rejected e => start_failed e m
  | StopAwaitsPause, Fulfilled _ =>
      show InfoMonitoringStopped (setState STOPPED m)
  | StopAwaitsPause, Rejected e =>
      show InfoMonitoringStopped (setState STOPPED (log (WarnPauseFailed e) m))
  | RefreshAwaitsUpdate, Fulfilled data =>
      let m1 := handleStockData data m in
      if throws data then show (ErrorRefreshFailed type_error) m1
      else show InfoRefreshed m1
  | RefreshAwaitsUpdate, Rejected e =>
      show (ErrorRefreshFailed e) m
  | PollAwaitsUpdate, Fulfilled data =>
      let m1 := handleStockData data m in
      if throws data then poll_failed type_error m1 else m1
  | PollAwaitsUpdate, Rejected e =>
      poll_failed e m
  | ConfigPushAwaits, Fulfilled _ => m
  | ConfigPushAwaits, Rejected e => log (ErrorConfigPushFailed e) m
  end.

(** *** Events *)

Inductive event :=
  | Start                                  (* someone calls start() *)
  | Stop                                   (* someone calls stop() *)
  | Refresh                                (* someone calls refresh() *)
  | Dispose
  | Tick (h : nat)                         (* the interval with handle h fires *)
  | ConfigChanged (cfg : PluginConfig)     (* command 'trad.onConfigChanged' *)
  | StockDataPush (data : js_data)         (* command 'trad.onStockData' *)
  | Settle (p : nat) (r : settlement)      (* promise p settles *)
  | AddUpdateListener (l : nat)
  | RemoveUpdateListener (l : nat)
  | AddStateListener (l : nat)
  | RemoveStateListener (l : nat).

Fixpoint take_awaited (p : nat) (ws : list (nat * awaiting))
  : option (awaiting * list (nat * awaiting)) :=
  match ws with
  | [] => None
  | (q, k) :: rest =>
      if Nat.eqb q p then Some (k, rest)
      else match take_awaited p rest with
           | Some (k', rest') => Some (k', (q, k) :: rest')
           | None => None
           end
  end.

Definition step (e : event) (m : t) : t :=
  match e with
  | Start => start m
  | Stop => stop m
  | Refresh => refresh m
  | Dispose => dispose m
  | Tick h =>
      match timer m with
      | Some tm => if Nat.eqb (handle tm) h then onInterval m else m
      | None => m                          (* a cleared interval never fires *)
      end
  | ConfigChanged cfg => handleConfigChange cfg (set_config cfg m)
  | StockDataPush data => handleStockData data m
  | Settle p r =>
      match take_awaited p (awaited m) with
      | Some (k, rest) => resume k r (set_awaited rest m)
      | None => m                          (* a promise settles once *)
      end
  | AddUpdateListener l => addUpdateListener l m
  | RemoveUpdateListener l => removeUpdateListener l m
  | AddStateListener l => addStateListener l m
  | RemoveStateListener l => removeStateListener l m
  end.

Definition run (es : list event) (m : t) : t :=
  fold_left (fun m e => step e m) es m.

(** States a controller can be in: whatever a sequence of events makes
    of a new one. *)
Definition reachable (m : t) : Prop :=
  exists cfg es, m = run es (init cfg).

(** How many outstanding promises have code of a given kind behind them. *)
Definition is_start (k : awaiting) : bool :=
  match k with StartAwaitsDaemon | StartAwaitsConfig => true | _ => false end.
Definition is_pause (k : awaiting) : bool :=
  match k with StopAwaitsPause => true | _ => false end.

Definition count_kind (P : awaiting -> bool) (ws : list (nat * awaiting)) : nat :=
  length (List.filter (fun w => P (snd w)) ws).

Definition pending (P : awaiting -> bool) (m : t) : nat :=
  count_kind P (awaited m).

(** Does the event settle promise [p]? *)
Definition settles (p : nat) (e : event) : bool :=
  match e with Settle q _ => Nat.eqb q p | _ => false end.

(** What every reachable controller satisfies: a transitional state has
    exactly one continuation that will leave it, the other states have
    none; the timer is disarmed while stopping; promise handles are
    fresh. *)
Record invariant (m : t) : Prop := {
  inv_start : pending is_start m = if bool_decide (state m = STARTING) then 1 else 0;
  inv_pause : pending is_pause m = if bool_decide (state m = STOPPING) then 1 else 0;
  inv_timer : state m = STOPPING -> timer m = None;
  inv_fresh : Forall (fun w => fst w < fresh m) (awaited m)
}.

(** The continuation of kind [k] is parked behind promise [p]. *)
Definition parked (p : nat) (k : awaiting) (m : t) : Prop :=
  exists rest, take_awaited p (awaited m) = Some (k, rest).

(** The sum of one field over a list of snapshots, as [+=] computes
    it: from 0 on, one snapshot after the other, each addition rounded. *)
Definition sum_of (f : StockData -> float) (l : list StockData) : float :=
  fold_left (fun acc s => (acc + f s)%float) l 0%float.


(** Does the event hand the controller an array with a [null] or
    [undefined] element? *)
Definition carries_nullish (e : event) : bool :=
  match e with
  | StockDataPush d => throws d
  | Settle _ (Fulfilled d) => throws d
  | _ => false
  end.

(** Is the event a call of [dispose()]? *)
Definition is_dispose (e : event) : bool :=
  match e with Dispose => true | _ => false end.

(** Is the event a call of [stop()] or of [dispose()]? *)
Definition halts (e : event) : bool :=
  match e with Stop | Dispose => true | _ => false end.

(** Does the event take state listener [l] off the list? *)
Definition unregisters (l : nat) (e : event) : bool :=
  match e with
  | Dispose => true
  | RemoveStateListener l' => Nat.eqb l' l
  | _ => false
  end.

(** What state listener [l] has been told so far, oldest first. *)
Definition heard (l : nat) (m : t) : list MonitoringState :=
  flat_map (fun n => match n with
                     | ToStateListener l' s => if Nat.eqb l' l then [s] else []
                     | ToUpdateListener _ _ => []
                     end)
           (notified m).


(** [follows l m m']: listener [l] is still registered in [m'], and what
    it has been told between [m] and [m'] ends with the state of [m'],
    or is nothing at all and the state has not moved. *)
Definition follows (l : nat) (m m' : t) : Prop :=
  In l (stateListeners m') /\
  exists hs, heard l m' = heard l m ++ hs /\ List.last hs (state m) = state m'.

End StateManager.

(** ** [out/views/stockView.js] and the commands of the extension

    Of the tree view [StockTreeDataProvider], the control items it
    offers; its field [state] is the state the controller last announced
    to the listener the view registers in its constructor.  Of the
    activation of the extension, the method each command calls (the
    listing of [extension.ts] in [DESIGN.md]). *)

Module StockView.

(** [getControlItems]: the command of each [ControlTreeItem], in the
    order of the items; the empty string is the item without a
    command. *)
Definition getControlItems (state : MonitoringState) : list string :=
  match state with
  | STOPPED | ERROR => ["trad.startMonitoring"]
  | RUNNING => ["trad.stopMonitoring"; "trad.refresh"]
  | STARTING | STOPPING => [EmptyString]
  end ++ ["trad.openConfig"; "trad.addStock"].

(** [registerCommand(id, () => { stateManager.start(); })] and its
    like: the call a command makes on the controller. *)
Definition registered (command : string) : option StateManager.event :=
  if String.eqb command "trad.startMonitoring" then Some StateManager.Start
  else if String.eqb command "trad.stopMonitoring" then Some StateManager.Stop
  else if String.eqb command "trad.refresh" then Some StateManager.Refresh
  else None.

(** The user picks an item of the view. *)
Definition click (command : string) (m : StateManager.t) : StateManager.t :=
  match registered command with
  | Some e => StateManager.step e m
  | None => m
  end.

End StockView.

(** ** [src/pythonClient.ts]

    The worker process and the timers belong to the host.  What the host
    does is an input of the model: an event says that a chunk arrived,
    that the worker exited, that time passed; and where a method asks the
    host for something whose outcome the source cannot know (does the
    signal reach the worker, does its 'exit' event arrive, does [spawn]
    return), the event carries the answer.

    A process emits 'exit' once.  The 'exit' event that [stopDaemon]
    waits for either arrives before anything else happens, or never
    does; and one worker is followed at a time, the one held in
    [pythonProcess]: nothing more is heard of a worker once another has
    taken its place. *)

Module PythonClient.
Import Text Json.

Record PythonCommand := {
  command : PythonCommandType;
  id : jsstring;
  timestamp : Z;
  payload : option value
}.

(** What the host knows of a process. *)
Inductive liveness :=
  | Alive        (* running; its 'exit' event is still to come *)
  | Lingering    (* running for good: [stopDaemon] waits for an 'exit'
                    event that, by the host's answer, never comes *)
  | Exited.      (* 'exit' has been emitted *)

(** The [ChildProcess] held in [pythonProcess]: the field [killed] of
    the object, and the process behind it. *)
Record ChildProcess := { pid : nat; killed : bool; life : liveness }.

(** The closure stored in [pendingRequests]:
    [(response) => { clearTimeout(timeoutId); resolve(response); }] *)
Record callback := { promise : nat; timeoutId : nat }.

Inductive timer_action :=
  | CommandTimeout (p : nat) (cmd : PythonCommand)   (* sendCommand's setTimeout *)
  | RestartDelay.                                    (* handleProcessExit's setTimeout *)

Record timer := { tid : nat; deadline : Z; action : timer_action }.

(** How the promise returned by [sendCommand] ends. *)
Inductive outcome :=
  | Resolved (response : value)
  | TimedOut (kind : PythonCommandType)     (* reject(new Error(`命令超时: ..`)) *)
  | NotRunning.                             (* throw new Error('Python进程未运行') *)

(** One call of [resolve] or [reject]. *)
Record settlement := { s_promise : nat; s_outcome : outcome; s_time : Z }.

(** One [stdin.write(JSON.stringify(command) + '\n')], with the promise
    of the call that wrote it. *)
Record written := { w_promise : nat; w_time : Z; w_command : PythonCommand }.

Inductive notice :=
  | InfoDaemonStarted                      (* 'Python守护进程已启动' *)
  | ErrorDaemonStartFailed                 (* `启动Python守护进程失败: ..` *)
  | ErrorRestartsExhausted                 (* 'Python守护进程多次重启失败，..' *)
  | WarnRestarting (count limit : nat)     (* `..正在重启 (${restartCount}/${maxRestarts})` *)
  | InfoDaemonRestarted                    (* 'Python守护进程已重启' *)
  | ErrorFromPython (e : option value).    (* `Python进程错误: ${response.error}` *)

Inductive console_line :=
  | LogExit (code : option Z) (signal : option string)
  | ErrorStderr (text : jsstring)
  | ErrorProcess
  | ErrorParse (line : jsstring)
  | ErrorPython (e : option value).

(** What the host does during one [startDaemon] or [stopDaemon]. *)
Record host_answer := {
  signal_sent : bool;
      (* kill('SIGTERM') reached the worker: its [killed] is set *)
  exit_event : option (option Z * option string);
      (* the 'exit' event [stopDaemon] waits for, with its code and
         signal; [None] when it never arrives *)
  spawn_ok : bool
      (* [spawn] returns a process rather than throwing *)
}.

Record t := mk {
  (* the fields of the class *)
  pythonProcess : option ChildProcess;
  pendingRequests : gmap jsstring callback;
  messageBuffer : jsstring;
  isConnected : bool;
  restartCount : nat;
  maxRestarts : nat;
  (* the host *)
  now : Z;                          (* milliseconds *)
  timers : list timer;              (* armed timers, oldest first *)
  nextTimer : nat;
  nextPromise : nat;
  nextPid : nat;
  stdin : list written;
  settled : list settlement;
  bus : list (option value);        (* executeCommand('trad.onStockData', data) *)
  shown : list notice;
  console : list console_line
}.

Definition set_pythonProcess (x : option ChildProcess) (c : t) : t :=
  mk x (pendingRequests c) (messageBuffer c) (isConnected c) (restartCount c) (maxRestarts c)
     (now c) (timers c) (nextTimer c) (nextPromise c) (nextPid c) (stdin c) (settled c)
     (bus c) (shown c) (console c).
Definition set_pendingRequests (x : gmap jsstring callback) (c : t) : t :=
  mk (pythonProcess c) x (messageBuffer c) (isConnected c) (restartCount c) (maxRestarts c)
     (now c) (timers c) (nextTimer c) (nextPromise c) (nextPid c) (stdin c) (settled c)
     (bus c) (shown c) (console c).
Definition set_messageBuffer (x : jsstring) (c : t) : t :=
  mk (pythonProcess c) (pendingRequests c) x (isConnected c) (restartCount c) (maxRestarts c)
     (now c) (timers c) (nextTimer c) (nextPromise c) (nextPid c) (stdin c) (settled c)
     (bus c) (shown c) (console c).
Definition set_isConnected (x : bool) (c : t) : t :=
  mk (pythonProcess c) (pendingRequests c) (messageBuffer c) x (restartCount c) (maxRestarts c)
     (now c) (timers c) (nextTimer c) (nextPromise c) (nextPid c) (stdin c) (settled c)
     (bus c) (shown c) (console c).
Definition set_restartCount (x : nat) (c : t) : t :=
  mk (pythonProcess c) (pendingRequests c) (messageBuffer c) (isConnected c) x (maxRestarts c)
     (now c) (timers c) (nextTimer c) (nextPromise c) (nextPid c) (stdin c) (settled c)
     (bus c) (shown c) (console c).
Definition set_now (x : Z) (c : t) : t :=
  mk (pythonProcess c) (pendingRequests c) (messageBuffer c) (isConnected c) (restartCount c)
     (maxRestarts c) x (timers c) (nextTimer c) (nextPromise c) (nextPid c) (stdin c)
     (settled c) (bus c) (shown c) (console c).
Definition set_timers (x : list timer) (c : t) : t :=
  mk (pythonProcess c) (pendingRequests c) (messageBuffer c) (isConnected c) (restartCount c)
     (maxRestarts c) (now c) x (nextTimer c) (nextPromise c) (nextPid c) (stdin c)
     (settled c) (bus c) (shown c) (console c).
Definition set_nextTimer (x : nat) (c : t) : t :=
  mk (pythonProcess c) (pendingRequests c) (messageBuffer c) (isConnected c) (restartCount c)
     (maxRestarts c) (now c) (timers c) x (nextPromise c) (nextPid c) (stdin c)
     (settled c) (bus c) (shown c) (console c).
Definition set_nextPromise (x : nat) (c : t) : t :=
  mk (pythonProcess c) (pendingRequests c) (messageBuffer c) (isConnected c) (restartCount c)
     (maxRestarts c) (now c) (timers c) (nextTimer c) x (nextPid c) (stdin c)
     (settled c) (bus c) (shown c) (console c).
Definition set_nextPid (x : nat) (c : t) : t :=
  mk (pythonProcess c) (pendingRequests c) (messageBuffer c) (isConnected c) (restartCount c)
     (maxRestarts c) (now c) (timers c) (nextTimer c) (nextPromise c) x (stdin c)
     (settled c) (bus c) (shown c) (console c).
Definition write (x : written) (c : t) : t :=
  mk (pythonProcess c) (pendingRequests c) (messageBuffer c) (isConnected c) (restartCount c)
     (maxRestarts c) (now c) (timers c) (nextTimer c) (nextPromise c) (nextPid c)
     (stdin c ++ [x]) (settled c) (bus c) (shown c) (console c).
Definition settle (p : nat) (o : outcome) (c : t) : t :=
  mk (pythonProcess c) (pendingRequests c) (messageBuffer c) (isConnected c) (restartCount c)
     (maxRestarts c) (now c) (timers c) (nextTimer c) (nextPromise c) (nextPid c)
     (stdin c) (settled c ++ [{| s_promise := p; s_outcome := o; s_time := now c |}])
     (bus c) (shown c) (console c).
Definition publish (x : option value) (c : t) : t :=
  mk (pythonProcess c) (pendingRequests c) (messageBuffer c) (isConnected c) (restartCount c)
     (maxRestarts c) (now c) (timers c) (nextTimer c) (nextPromise c) (nextPid c)
     (stdin c) (settled c) (bus c ++ [x]) (shown c) (console c).
Definition show (x : notice) (c : t) : t :=
  mk (pythonProcess c) (pendingRequests c) (messageBuffer c) (isConnected c) (restartCount c)
     (maxRestarts c) (now c) (timers c) (nextTimer c) (nextPromise c) (nextPid c)
     (stdin c) (settled c) (bus c) (shown c ++ [x]) (console c).
Definition log (x : console_line) (c : t) : t :=
  mk (pythonProcess c) (pendingRequests c) (messageBuffer c) (isConnected c) (restartCount c)
     (maxRestarts c) (now c) (timers c) (nextTimer c) (nextPromise c) (nextPid c)
     (stdin c) (settled c) (bus c) (shown c) (console c ++ [x]).

(** [new PythonClient(context)], on a host whose clock shows [t0]. *)
Definition init (t0 : Z) : t :=
  mk None ∅ [] false 0 5 t0 [] 0 0 0 [] [] [] [] [].

(** *** Timers of the host *)

Definition setTimeout (delay : Z) (a : timer_action) (c : t) : t :=
  set_nextTimer (S (nextTimer c))
    (set_timers (timers c ++ [{| tid := nextTimer c; deadline := now c + delay; action := a |}]) c).

Definition clearTimeout (h : nat) (c : t) : t :=
  set_timers (List.filter (fun x => negb (Nat.eqb (tid x) h)) (timers c)) c.

Definition armed (h : nat) (c : t) : bool :=
  existsb (fun x => Nat.eqb (tid x) h) (timers c).

(** *** The worker *)

(** [this.pythonProcess && !this.pythonProcess.killed] *)
Definition running (c : t) : bool :=
  match pythonProcess c with
  | Some p => negb (killed p)
  | None => false
  end.

(** The worker in [pythonProcess] is running and will emit 'exit'. *)
Definition alive (c : t) : bool :=
  match pythonProcess c with
  | Some p => match life p with Alive => true | _ => false end
  | None => false
  end.

Definition set_life (l : liveness) (c : t) : t :=
  match pythonProcess c with
  | Some p => set_pythonProcess (Some {| pid := pid p; killed := killed p; life := l |}) c
  | None => c
  end.

(** [this.pythonProcess.kill('SIGTERM')].  A process that has exited
    cannot be signalled: [kill] returns [false] and [killed] stays as
    it is.  [sent] is the host's answer for a process that runs; when
    the signal is not sent and the host says why, it does so with an
    'error' event, which is the event [ProcessError] below. *)
Definition kill (sent : bool) (c : t) : t :=
  match pythonProcess c with
  | Some p =>
      match life p with
      | Exited => c
      | _ =>
          if sent
          then set_pythonProcess (Some {| pid := pid p; killed := true; life := life p |}) c
          else c
      end
  | None => c
  end.

(** [handleProcessExit] up to its [await]. *)
Definition handleProcessExit (c : t) : t :=
  if Nat.leb (maxRestarts c) (restartCount c) then show ErrorRestartsExhausted c
  else
    let c1 := set_restartCount (S (restartCount c)) c in
    let c2 := show (WarnRestarting (restartCount c1) (maxRestarts c1)) c1 in
    setTimeout 1000 RestartDelay c2.

(** The 'exit' handler installed by [setupProcessHandlers]. *)
Definition onExit (code : option Z) (signal : option string) (c : t) : t :=
  let c1 := log (LogExit code signal) (set_isConnected false c) in
  match code with
  | Some n => if negb (Z.eqb n 0) then handleProcessExit c1 else c1
  | None => c1
  end.

(** [stopDaemon]: the state it leaves, and whether its promise resolves.
    When the 'exit' event comes, the handler installed by
    [setupProcessHandlers] runs first, then the one [stopDaemon] added.
    On a worker that has exited already, or never will, the listener
    added by [once('exit', ..)] is never called, whatever the host
    answers now: the promise stays pending. *)
Definition stopDaemon (h : host_answer) (c : t) : t * bool :=
  if negb (running c) then (c, true)
  else
    let c1 := kill (signal_sent h) c in
    if alive c then
      match exit_event h with
      | Some (code, signal) =>
          let c2 := onExit code signal c1 in
          (set_isConnected false (set_pythonProcess None c2), true)
      | None => (set_life Lingering c1, false)
      end
    else (c1, false).

(** [startDaemon]: the state it leaves, and what its promise resolves to
    ([None]: it never does, the 'exit' event awaited by [stopDaemon] not
    having come). *)
Definition startDaemon (h : host_answer) (c : t) : t * option bool :=
  let '(c1, stopped) := if running c then stopDaemon h c else (c, true) in
  if negb stopped then (c1, None)
  else if spawn_ok h then
    let c2 := set_nextPid (S (nextPid c1))
                (set_pythonProcess
                   (Some {| pid := nextPid c1; killed := false; life := Alive |}) c1) in
    let c3 := set_isConnected true c2 in
    let c4 := set_restartCount 0 c3 in
    (show InfoDaemonStarted c4, Some true)
  else (show ErrorDaemonStartFailed c1, Some false).

(** [handleProcessExit] behind its [await]: the restart itself. *)
Definition restart (h : host_answer) (c : t) : t :=
  match startDaemon h c with
  | (c1, Some _) => show InfoDaemonRestarted c1
  | (c1, None) => c1
  end.

Definition onError (c : t) : t :=
  set_isConnected false (log ErrorProcess c).

(** The worker in [pythonProcess] exits by itself: the host emits its
    'exit' event, which only a process that has not emitted it yet, and
    is still going to, can get. *)
Definition exit (code : option Z) (signal : option string) (c : t) : t :=
  if alive c then onExit code signal (set_life Exited c) else c.

Definition isDaemonConnected (c : t) : bool :=
  isConnected c && running c.

Definition dispose (sent : bool) (c : t) : t :=
  let c1 := if running c then kill sent c else c in
  set_pendingRequests ∅ c1.

(** *** Requests and responses *)

Definition sendCommand (cmd : PythonCommand) (c : t) : t :=
  let p := nextPromise c in
  let c0 := set_nextPromise (S p) c in
  if negb (running c0) then settle p NotRunning c0
  else
    let h := nextTimer c0 in
    let c1 := setTimeout 10000 (CommandTimeout p cmd) c0 in
    let c2 := set_pendingRequests
                (<[id cmd := {| promise := p; timeoutId := h |}]> (pendingRequests c1)) c1 in
    write {| w_promise := p; w_time := now c2; w_command := cmd |} c2.

(** The callback of [sendCommand]'s [setTimeout]. *)
Definition onTimeout (p : nat) (cmd : PythonCommand) (c : t) : t :=
  settle p (TimedOut (command cmd))
    (set_pendingRequests (delete (id cmd) (pendingRequests c)) c).

(** [this.pendingRequests.get(response.id)]: the keys are strings. *)
Definition find_callback (response : value) (c : t) : option (jsstring * callback) :=
  match prop response (js "id") with
  | Some (JStr key) =>
      match pendingRequests c !! key with
      | Some cb => Some (key, cb)
      | None => None
      end
  | _ => None
  end.

Definition has_type (response : value) (ty : string) : bool :=
  match prop response (js "type") with
  | Some (JStr s) => bool_decide (s = js ty)
  | _ => false
  end.

(** [handleResponse]; [None] is the [TypeError] of reading a property of
    [null]. *)
Definition handleResponse (response : value) (c : t) : option t :=
  match response with
  | JNull => None
  | _ =>
      match find_callback response c with
      | Some (key, cb) =>
          let c1 := set_pendingRequests (delete key (pendingRequests c)) c in
          Some (settle (promise cb) (Resolved response) (clearTimeout (timeoutId cb) c1))
      | None =>
          if has_type response "data" then
            Some (publish (prop response (js "data")) c)
          else if has_type response "error" then
            let e := prop response (js "error") in
            Some (show (ErrorFromPython e) (log (ErrorPython e) c))
          else Some c
      end
  end.

(** The body of the [for] loop of [processMessages]. *)
Definition processLine (c : t) (line : jsstring) : t :=
  if is_empty (trim line) then c
  else
    match parse line with
    | Some response =>
        match handleResponse response c with
        | Some c' => c'
        | None => log (ErrorParse line) c
        end
    | None => log (ErrorParse line) c
    end.

Definition processMessages (c : t) : t :=
  let lines := split_nl (messageBuffer c) in
  let c1 := set_messageBuffer (List.last lines []) c in      (* lines.pop() || '' *)
  fold_left processLine (List.removelast lines) c1.

(** The 'data' handlers installed by [setupProcessHandlers]. *)
Definition onStdout (data : list byte) (c : t) : t :=
  processMessages (set_messageBuffer (messageBuffer c ++ Utf8.toString data) c).

Definition onStderr (data : list byte) (c : t) : t :=
  log (ErrorStderr (Utf8.toString data)) c.

(** *** Time *)

Definition earlier (a b : timer) : Prop :=
  (deadline a < deadline b)%Z \/ (deadline a = deadline b /\ tid a <= tid b).

#[global] Instance earlier_dec a b : Decision (earlier a b).
Proof. unfold earlier. apply _. Defined.

(** The host runs the callback of one timer, if it is still armed. *)
Definition fire (h : host_answer) (c : t) (x : timer) : t :=
  if armed (tid x) c then
    let c1 := set_now (deadline x) (clearTimeout (tid x) c) in
    match action x with
    | CommandTimeout p cmd => onTimeout p cmd c1
    | RestartDelay => restart h c1
    end
  else c.

(** [ms] milliseconds pass: the timers that fall due fire, the earliest
    first. *)
Definition elapse (ms : Z) (h : host_answer) (c : t) : t :=
  if (ms <? 0)%Z then c
  else
    let target := (now c + ms)%Z in
    let due := merge_sort earlier
                 (List.filter (fun x => (deadline x <=? target)%Z) (timers c)) in
    set_now target (fold_left (fire h) due c).

(** *** Events *)

Inductive event :=
  | StartDaemon (h : host_answer)           (* someone calls startDaemon() *)
  | StopDaemon (h : host_answer)            (* someone calls stopDaemon() *)
  | SendCommand (cmd : PythonCommand)       (* someone calls sendCommand(cmd) *)
  | Dispose (sent : bool)
  | Stdout (data : list byte)               (* 'data' on the worker's stdout *)
  | Stderr (data : list byte)               (* 'data' on the worker's stderr *)
  | Exit (code : option Z) (signal : option string)
  | ProcessError
  | Elapse (ms : Z) (h : host_answer).

Definition step (c : t) (e : event) : t :=
  match e with
  | StartDaemon h => fst (startDaemon h c)
  | StopDaemon h => fst (stopDaemon h c)
  | SendCommand cmd => sendCommand cmd c
  | Dispose sent => dispose sent c
  | Stdout data => onStdout data c
  | Stderr data => onStderr data c
  | Exit code signal => exit code signal c
  | ProcessError => onError c
  | Elapse ms h => elapse ms h c
  end.

Definition run (es : list event) (c : t) : t := fold_left step es c.

Definition reachable (c : t) : Prop := exists t0 es, c = run es (init t0).

(** The settlements of one promise. *)
Definition settlements (p : nat) (c : t) : list settlement :=
  List.filter (fun s => Nat.eqb (s_promise s) p) (settled c).

(** What ties the request table, the timers and the two logs together in
    every reachable state. *)
Record consistent (c : t) : Prop := {
  timers_fresh : Forall (fun x => tid x < nextTimer c) (timers c);
  timers_distinct : List.NoDup (map tid (timers c));
  pending_armed :
    forall key cb, pendingRequests c !! key = Some cb ->
    exists x cmd, In x (timers c) /\ tid x = timeoutId cb /\
                  action x = CommandTimeout (promise cb) cmd /\ id cmd = key;
  timeouts_open :
    forall x p cmd, In x (timers c) -> action x = CommandTimeout p cmd ->
    settlements p c = [] /\
    In {| w_promise := p; w_time := deadline x - 10000; w_command := cmd |} (stdin c);
  timeouts_distinct :
    forall x y p cmd cmd', In x (timers c) -> In y (timers c) ->
    action x = CommandTimeout p cmd -> action y = CommandTimeout p cmd' -> x = y;
  settled_once : forall p, length (settlements p c) <= 1;
  settled_fresh : Forall (fun s => s_promise s < nextPromise c) (settled c);
  written_fresh : Forall (fun w => w_promise w < nextPromise c) (stdin c);
  written_distinct : List.NoDup (map w_promise (stdin c));
  written_tracked :
    forall w, In w (stdin c) ->
    settlements (w_promise w) c <> [] \/
    exists x, In x (timers c) /\
              action x = CommandTimeout (w_promise w) (w_command w) /\
              deadline x = (w_time w + 10000)%Z;
  settled_right :
    forall s w, In s (settled c) -> In w (stdin c) -> s_promise s = w_promise w ->
    match s_outcome s with
    | Resolved r => prop r (js "id") = Some (JStr (id (w_command w)))
    | TimedOut k => k = command (w_command w) /\ s_time s = (w_time w + 10000)%Z
    | NotRunning => False
    end
}.

(** No armed command timeout is overdue. *)
Definition punctual (c : t) : Prop :=
  forall x p cmd, In x (timers c) -> action x = CommandTimeout p cmd ->
  (now c < deadline x)%Z.

(** The invariant of the client. *)
Definition sound (c : t) : Prop := consistent c /\ punctual c.

(** What the request bookkeeping looks at. *)
Definition view (c : t) :=
  (pendingRequests c, timers c, nextTimer c, nextPromise c, stdin c, settled c).

(** While the timers that were due at the start of an interval fire, the
    armed timers are timers of the start or restart delays armed since. *)
Definition since (c0 c : t) : Prop :=
  consistent c /\ nextTimer c0 <= nextTimer c /\
  forall y, In y (timers c) ->
    In y (timers c0) \/ (nextTimer c0 <= tid y /\ action y = RestartDelay).

(** The two logs of [c'] continue those of [c]. *)
Definition extends (c c' : t) : Prop :=
  (exists l, settled c' = settled c ++ l) /\ (exists l, stdin c' = stdin c ++ l).

(** No entry of the request table leads to promise [p] any more. *)
Definition forgotten (p : nat) (c : t) : Prop :=
  p < nextPromise c /\
  forall key cb, pendingRequests c !! key = Some cb -> promise cb <> p.

(** Every settlement of promise [p] in the list is a timeout. *)
Definition only_timeouts (p : nat) (l : list settlement) : Prop :=
  List.Forall (fun s => s_promise s = p -> exists k, s_outcome s = TimedOut k) l.

(** From [c] to [c'] promise [p] stays forgotten and is settled by
    nothing but a timeout. *)
Definition abandons (p : nat) (c c' : t) : Prop :=
  forgotten p c ->
  forgotten p c' /\ exists l, settled c' = settled c ++ l /\ only_timeouts p l.







End PythonClient.

(** ** Concrete controllers used in the examples below *)

(** ** [src/configManager.ts]

    The class [ConfigManager], as far as it keeps the list of watched
    stocks.  [this.config.stocks] is a reference to an array: [addStock]
    changes the array in place, [removeStock] puts a new array in its
    place, and [getConfig] hands out a copy of the configuration object
    that refers to the same array.  The arrays therefore live in a store
    of their own.  The host is asked one thing, whether
    [fs.writeFileSync] goes through; the backup file that [createBackup]
    keeps is not modelled, its failures being caught on the spot. *)

Module ConfigManager.
Import Text Json.

(** An optional property of an object: not there, there with the value
    [undefined], or there with a value. *)
Inductive optional (A : Type) :=
  | Absent
  | Undefined
  | Defined (a : A).
Arguments Absent {A}.
Arguments Undefined {A}.
Arguments Defined {A} a.

Record StockConfig := {
  code : jsstring;
  name : optional value;
  buyPrice : Q;
  quantity : Q;
  enabled : bool;
  exchange : optional value
}.

(** One property of [{...a, ...b}]. *)
Definition over {A} (a b : optional A) : optional A :=
  match b with
  | Absent => a
  | _ => b
  end.

(** [{...a, ...b}] *)
Definition spread (a b : StockConfig) : StockConfig :=
  {| code := code b;
     name := over (name a) (name b);
     buyPrice := buyPrice b;
     quantity := quantity b;
     enabled := enabled b;
     exchange := over (exchange a) (exchange b) |}.

(** A [PluginConfig] object; [stocks] refers to an array of the store. *)
Record PluginConfig := {
  version : jsstring;
  stocks : nat;
  settings : value
}.

(** The text of one [config.json]. *)
Record file := {
  f_version : jsstring;
  f_stocks : list StockConfig;
  f_settings : value
}.

Inductive notice :=
  | ErrorSaveFailed.                  (* showErrorMessage(`保存配置失败: ..`) *)

Record t := mk {
  config : PluginConfig;                    (* this.config *)
  arrays : gmap nat (list StockConfig);     (* the arrays there are *)
  nextArray : nat;
  written : list file;                      (* fs.writeFileSync(configPath, ..) *)
  announced : list PluginConfig;            (* executeCommand('trad.onConfigChanged', ..),
                                               the object as it is at that moment *)
  shown : list notice
}.

(** The elements of an array. *)
Definition elements (a : nat) (c : t) : list StockConfig :=
  match arrays c !! a with
  | Some l => l
  | None => []
  end.

Definition set_elements (a : nat) (l : list StockConfig) (c : t) : t :=
  mk (config c) (<[a := l]> (arrays c)) (nextArray c) (written c) (announced c) (shown c).

(** [{ ...this.config }]: a new object with the same three properties,
    the reference to the array among them. *)
Definition getConfig (c : t) : PluginConfig :=
  {| version := version (config c);
     stocks := stocks (config c);
     settings := settings (config c) |}.

Definition saveConfig (write_ok : bool) (c : t) : t :=
  if write_ok then
    let text := {| f_version := version (config c);
                   f_stocks := elements (stocks (config c)) c;
                   f_settings := settings (config c) |} in
    mk (config c) (arrays c) (nextArray c) (written c ++ [text])
       (announced c ++ [config c]) (shown c)
  else
    mk (config c) (arrays c) (nextArray c) (written c) (announced c)
       (shown c ++ [ErrorSaveFailed]).

(** [array.findIndex(p)]; [None] is [-1]. *)
Fixpoint findIndex {A} (p : A -> bool) (l : list A) : option nat :=
  match l with
  | [] => None
  | x :: rest => if p x then Some 0 else option_map S (findIndex p rest)
  end.

Definition addStock (write_ok : bool) (stock : StockConfig) (c : t) : t :=
  let a := stocks (config c) in
  let l := elements a c in
  let c1 :=
    match findIndex (fun s => bool_decide (code s = code stock)) l with
    | Some existingIndex =>
        match l !! existingIndex with
        | Some old => set_elements a (<[existingIndex := spread old stock]> l) c
        | None => c
        end
    | None => set_elements a (l ++ [stock]) c
    end in
  saveConfig write_ok c1.

(** [filter] makes a new array, and [this.config.stocks] is pointed at
    it. *)
Definition removeStock (write_ok : bool) (k : jsstring) (c : t) : t :=
  let l := List.filter (fun s => negb (bool_decide (code s = k)))
                       (elements (stocks (config c)) c) in
  let a := nextArray c in
  let c1 := mk {| version := version (config c); stocks := a;
                  settings := settings (config c) |}
               (<[a := l]> (arrays c)) (S a) (written c) (announced c) (shown c) in
  saveConfig write_ok c1.

Definition getStock (k : jsstring) (c : t) : option StockConfig :=
  List.find (fun s => bool_decide (code s = k)) (elements (stocks (config c)) c).

Definition getAllStocks (c : t) : list StockConfig :=
  elements (stocks (config c)) c.

Definition getEnabledStocks (c : t) : list StockConfig :=
  List.filter enabled (elements (stocks (config c)) c).

(** Truthiness of a value that came out of [JSON.parse]. *)
(** [JSON.parse] makes of a number written in the text the double
    nearest to it.  That double is zero exactly when the number is, in
    absolute value, at most half the least positive double (the tie
    goes to the even neighbour, which is 0), and it is greater than
    zero exactly when the number is above that bound. *)
Definition half_least_double : Q := 1 # (2 ^ 1075).

Definition is_zero (q : Q) : bool :=
  Qle_bool (- half_least_double) q && Qle_bool q half_least_double.

Definition gt_zero (q : Q) : bool := negb (Qle_bool q half_least_double).

Definition truthy (v : value) : bool :=
  match v with
  | JNull => false
  | JBool b => b
  | JNum q => negb (is_zero q)
  | JStr s => negb (is_empty s)
  | JArr _ | JObj _ => true
  end.

(** [stock.key || undefined] *)
Definition or_undefined (v : option value) : optional value :=
  match v with
  | Some x => if truthy x then Defined x else Undefined
  | None => Undefined
  end.

(** One element of the array through the [filter] and the [map] of
    [validateStocks]: [None] when the filter drops it. *)
Definition validated (stock : value) : option StockConfig :=
  if negb (truthy stock) then None
  else
    match prop stock (js "code"), prop stock (js "buyPrice"),
          prop stock (js "quantity"), prop stock (js "enabled") with
    | Some (JStr c), Some (JNum p), Some (JNum q), Some (JBool e) =>
        if Nat.leb 6 (length c) && gt_zero p && gt_zero q then
          Some {| code := c;
                  name := or_undefined (prop stock (js "name"));
                  buyPrice := p;
                  quantity := q;
                  enabled := e;
                  exchange := or_undefined (prop stock (js "exchange")) |}
        else None
    | _, _, _, _ => None
    end.

Definition validateStocks (stocks : value) : list StockConfig :=
  match stocks with
  | JArr items => omap validated items
  | _ => []
  end.

(** The [settings] of [loadDefaultConfig]. *)
Definition defaultSettings : value :=
  JObj [(js "updateInterval", JNum 20); (js "autoStart", JBool false);
        (js "showNotifications", JBool true); (js "priceAlertThreshold", JNum 5);
        (js "dataSourcePriority", JStr (js "sina"))].

(** [loadDefaultConfig]: a new object, with a new empty array. *)
Definition loadDefaultConfig (c : t) : PluginConfig * t :=
  let a := nextArray c in
  ({| version := js "1.0.0"; stocks := a; settings := defaultSettings |},
   mk (config c) (<[a := []]> (arrays c)) (S a) (written c) (announced c) (shown c)).

(** The configuration refers to an array that is there, and the arrays
    still to be made are not. *)
Definition well_formed (c : t) : Prop :=
  stocks (config c) < nextArray c /\
  is_Some (arrays c !! stocks (config c)).

End ConfigManager.

Module Examples.
Import StateManager.

Definition cfg0 : PluginConfig :=
  {| version := "1.0.0"; stocks := []; updateInterval := 20;
     autoStart := false; showNotifications := true; priceAlertThreshold := 5 |}.

(** start() went through: daemon up (promise 0), configuration pushed
    (promise 1), timer armed (handle 2), first poll under way (promise 3). *)
Definition running0 : t :=
  run [AddStateListener 7; AddUpdateListener 8; Start;
       Settle 0 (Fulfilled (Boolean true)); Settle 1 (Fulfilled Undefined)]
      (init cfg0).

(** start() failed: the daemon could not be started. *)
Definition errored0 : t :=
  run [AddStateListener 7; Start; Settle 0 (Fulfilled (Boolean false))] (init cfg0).

Definition snapshot (c : string) (cost profit : float) (on : bool) : StockData :=
  {| code := c; name := c; currentPrice := 0; buyPrice := 0; quantity := 0;
     profitAmount := profit; profitPercent := 0;
     marketValue := (cost + profit)%float; costBasis := cost;
     change := 0; changePercent := 0; lastUpdate := 0; enabled := on |}.

Definition stockA : StockData := snapshot "A" 1000 25 true.
Definition stockB : StockData := snapshot "B" 2000 (-50) true.
Definition stockC : StockData := snapshot "C" 500 10 false.


(** Host answers.  [obliging]: the worker that is told to stop dies of the
    signal.  [resentful]: it answers the signal by exiting with code 1. *)
Definition obliging : PythonClient.host_answer :=
  {| PythonClient.signal_sent := true;
     PythonClient.exit_event := Some (None, Some "SIGTERM");
     PythonClient.spawn_ok := true |}.
Definition resentful : PythonClient.host_answer :=
  {| PythonClient.signal_sent := true;
     PythonClient.exit_event := Some (Some 1%Z, None);
     PythonClient.spawn_ok := true |}.

(** JSON texts are written with ['] for the double quote. *)
Definition text (s : string) : Text.jsstring :=
  map (fun c => if (c =? 39)%N then Json.quote else c) (Text.js s).

(** The bytes of an ASCII text. *)
Definition bytes (s : string) : list byte :=
  map (fun c => match Byte.of_N c with Some b => b | None => x00 end) (text s).

Definition newline : list byte := [x0a].

(** A client whose worker is up. *)
Definition started0 : PythonClient.t :=
  PythonClient.run [PythonClient.StartDaemon obliging] (PythonClient.init 0).

Definition update1 : PythonClient.PythonCommand :=
  {| PythonClient.command := cmd_update; PythonClient.id := Text.js "cmd_1";
     PythonClient.timestamp := 0; PythonClient.payload := None |}.

(** One pushed message whose stock name is the character U+80A1, bytes
    E8 82 A1 in UTF-8; and the same bytes cut after E8. *)
Definition push_head : list byte := bytes "{'type':'data','data':[{'name':'" ++ [xe8].
Definition push_tail : list byte := [x82; xa1] ++ bytes "'}]}" ++ newline.
Definition push_whole : list byte := push_head ++ push_tail.

(** The worker exits with code 1 by itself, the restart delay runs out,
    [startDaemon()] is called from outside, and more time passes. *)
Definition crash_run : list PythonClient.event :=
  [PythonClient.Exit (Some 1%Z) None; PythonClient.Elapse 1000 obliging;
   PythonClient.StartDaemon obliging; PythonClient.Elapse 60000 obliging].


(** A configuration manager that holds the default configuration. *)
Definition manager0 : ConfigManager.t :=
  ConfigManager.mk
    {| ConfigManager.version := Text.js "1.0.0"; ConfigManager.stocks := 0;
       ConfigManager.settings := ConfigManager.defaultSettings |}
    {[ 0 := [] ]} 1 [] [] [].

Definition holding (c : string) (price : Q) : ConfigManager.StockConfig :=
  {| ConfigManager.code := Text.js c; ConfigManager.name := ConfigManager.Absent;
     ConfigManager.buyPrice := price; ConfigManager.quantity := 100;
     ConfigManager.enabled := true; ConfigManager.exchange := ConfigManager.Absent |}.

End Examples.

(** * Properties of the monitoring state machine *)

Section manager.
Import StateManager.

Lemma count_kind_app P ws1 ws2 :
  count_kind P (ws1 ++ ws2) = count_kind P ws1 + count_kind P ws2.
Proof. unfold count_kind. rewrite List.filter_app, length_app. reflexivity. Qed.

Lemma pending_await P k m :
  pending P (await k m) = pending P m + (if P k then 1 else 0).
Proof.
  unfold pending.
  change (awaited (await k m)) with (awaited m ++ [(fresh m, k)]).
  rewrite count_kind_app. f_equal.
  unfold count_kind; cbn. destruct (P k); reflexivity.
Qed.

Lemma take_awaited_count P p ws k rest :
  take_awaited p ws = Some (k, rest) ->
  count_kind P ws = count_kind P rest + (if P k then 1 else 0).
Proof.
  revert k rest. induction ws as [|[q k0] ws IH]; intros k rest H; cbn in H.
  - discriminate.
  - destruct (Nat.eqb q p).
    + inversion H; subst. unfold count_kind; cbn. destruct (P k); cbn; lia.
    + destruct (take_awaited p ws) as [[k' rest']|]; [|discriminate].
      inversion H; subst. specialize (IH _ _ eq_refl).
      unfold count_kind in *; cbn. destruct (P k0); cbn; lia.
Qed.

Lemma take_awaited_Forall (Q : nat * awaiting -> Prop) p ws k rest :
  take_awaited p ws = Some (k, rest) -> Forall Q ws -> Forall Q rest.
Proof.
  revert k rest. induction ws as [|[q k0] ws IH]; intros k rest H HF; cbn in H.
  - discriminate.
  - inversion HF; subst. destruct (Nat.eqb q p).
    + inversion H; subst. assumption.
    + destruct (take_awaited p ws) as [[k' rest']|]; [|discriminate].
      inversion H; subst. constructor; eauto.
Qed.

Lemma take_awaited_In p ws k rest :
  take_awaited p ws = Some (k, rest) -> In (p, k) ws.
Proof.
  revert k rest. induction ws as [|[q k0] ws IH]; intros k rest H; cbn in H.
  - discriminate.
  - destruct (Nat.eqb q p) eqn:E.
    + inversion H; subst. apply Nat.eqb_eq in E; subst. left; reflexivity.
    + destruct (take_awaited p ws) as [[k' rest']|]; [|discriminate].
      inversion H; subst. right; eauto.
Qed.

(** [handleStockData] touches the snapshot map, the summary and the
    listener log, and nothing else. *)
Lemma handleStockData_frame d m :
  state (handleStockData d m) = state m /\
  timer (handleStockData d m) = timer m /\
  awaited (handleStockData d m) = awaited m /\
  fresh (handleStockData d m) = fresh m /\
  calls (handleStockData d m) = calls m /\
  shown (handleStockData d m) = shown m.
Proof.
  unfold handleStockData.
  destruct (negb (isArray d)); [|destruct (throws d)]; cbn; auto 10.
Qed.

(** The [catch] block of [performUpdate] either only logs, or moves a
    running controller to Error. *)
Lemma poll_failed_cases reason m :
  (state m = RUNNING /\
   poll_failed reason m
   = show (ErrorUpdateFailed reason) (setState ERROR (log (ErrorPollFailed reason) m))) \/
  (state m <> RUNNING /\ poll_failed reason m = log (ErrorPollFailed reason) m).
Proof.
  unfold poll_failed. cbn [state log].
  destruct (decide (state m = RUNNING)) as [E|E].
  - left. rewrite (bool_decide_eq_true_2 _ E). auto.
  - right. rewrite (bool_decide_eq_false_2 _ E). auto.
Qed.


Arguments count_kind : simpl never.

Lemma fresh_weaken n n' (ws : list (nat * awaiting)) :
  n <= n' -> Forall (fun w => fst w < n) ws -> Forall (fun w => fst w < n') ws.
Proof. intros Hle H. eapply Forall_impl; [exact H|]. intros w Hw. cbn in Hw. lia. Qed.

Lemma fresh_snoc n k (ws : list (nat * awaiting)) :
  Forall (fun w => fst w < n) ws ->
  Forall (fun w => fst w < S n) (ws ++ [(n, k)]).
Proof.
  intros H. apply Forall_app. split.
  - eapply fresh_weaken; [|exact H]. lia.
  - constructor; [cbn; lia | constructor].
Qed.

Lemma init_invariant cfg : invariant (init cfg).
Proof. split; cbn; try reflexivity; try discriminate. constructor. Qed.

Lemma count_kind_single P n k :
  count_kind P [(n, k)] = if P k then 1 else 0.
Proof. unfold count_kind; cbn. destruct (P k); reflexivity. Qed.

Lemma stopUpdateTimer_state m : state (stopUpdateTimer m) = state m.
Proof. unfold stopUpdateTimer. destruct (timer m); reflexivity. Qed.
Lemma stopUpdateTimer_awaited m : awaited (stopUpdateTimer m) = awaited m.
Proof. unfold stopUpdateTimer. destruct (timer m); reflexivity. Qed.
Lemma stopUpdateTimer_fresh m : fresh (stopUpdateTimer m) = fresh m.
Proof. unfold stopUpdateTimer. destruct (timer m); reflexivity. Qed.
Lemma stopUpdateTimer_timer m : timer (stopUpdateTimer m) = None.
Proof. unfold stopUpdateTimer. destruct (timer m) eqn:E; [reflexivity | exact E]. Qed.

Lemma handleStockData_state d m : state (handleStockData d m) = state m.
Proof. apply handleStockData_frame. Qed.
Lemma handleStockData_timer d m : timer (handleStockData d m) = timer m.
Proof. apply handleStockData_frame. Qed.
Lemma handleStockData_awaited d m : awaited (handleStockData d m) = awaited m.
Proof. apply handleStockData_frame. Qed.
Lemma handleStockData_fresh d m : fresh (handleStockData d m) = fresh m.
Proof. apply handleStockData_frame. Qed.

Create Rewrite HintDb frames.
Hint Rewrite stopUpdateTimer_state stopUpdateTimer_awaited stopUpdateTimer_fresh
  stopUpdateTimer_timer handleStockData_state handleStockData_timer
  handleStockData_awaited handleStockData_fresh : frames.

Ltac fields :=
  cbn [awaited state timer fresh await call show log notify
    set_state set_timer set_fresh set_awaited set_config set_stockData
    set_summaryData set_updateListeners set_stateListeners
    setState notifyStateListeners notifyUpdateListeners calculateSummary
    performUpdate startUpdateTimer start_failed
    addUpdateListener addStateListener removeUpdateListener removeStateListener] in *;
  autorewrite with frames in *.

Ltac kinds :=
  unfold pending in *; repeat progress fields;
  rewrite ?count_kind_app, ?count_kind_single in *;
  cbn [is_start is_pause] in *.

Ltac arith :=
  repeat case_bool_decide; try congruence; try lia.

(** Case analysis on the guard [this.state === s] of the goal. *)
Ltac on_state m s E :=
  destruct (decide (state m = s)) as [E|E];
  [ rewrite (bool_decide_eq_true_2 _ E) | rewrite (bool_decide_eq_false_2 _ E) ];
  cbn [negb].

Lemma step_invariant e m : invariant m -> invariant (step e m).
Proof.
  intros Hinv. pose proof Hinv as [Hs Hp Ht Hf].
  destruct e; cbn [step].
  - (* Start *)
    unfold start. on_state m STOPPED E; [|exact Hinv].
    split; kinds; arith. apply fresh_snoc; assumption.
  - (* Stop *)
    unfold stop. on_state m RUNNING E; [|exact Hinv].
    split; kinds; arith. apply fresh_snoc; assumption.
  - (* Refresh *)
    unfold refresh. on_state m RUNNING E; [|split; assumption].
    split; kinds; arith. apply fresh_snoc; assumption.
  - (* Dispose *)
    unfold dispose. split; kinds; arith; auto.
  - (* Tick *)
    destruct (timer m) as [tm|] eqn:Et; [|exact Hinv].
    destruct (Nat.eqb (handle tm) h); [|exact Hinv].
    unfold onInterval. on_state m RUNNING E; [|exact Hinv].
    split; kinds; arith. apply fresh_snoc; assumption.
  - (* ConfigChanged *)
    unfold handleConfigChange. fields. on_state m RUNNING E; [|split; assumption].
    split; kinds; arith. apply fresh_snoc; assumption.
  - (* StockDataPush *)
    split; kinds; arith; auto.
  - (* Settle *)
    destruct (take_awaited p (awaited m)) as [[k rest]|] eqn:Etake; [|exact Hinv].
    pose proof (take_awaited_count is_start _ _ _ _ Etake) as Cs.
    pose proof (take_awaited_count is_pause _ _ _ _ Etake) as Cp.
    pose proof (take_awaited_Forall _ _ _ _ _ Etake Hf) as Cf.
    unfold pending in Hs, Hp. rewrite Cs in Hs. rewrite Cp in Hp.
    destruct k, r; cbn [resume is_start is_pause] in *.
    all: try (destruct (negb (truthy v))).
    all: try (destruct (throws v)).
    all: unfold poll_failed.
    all: try match goal with
             | |- context [bool_decide (state ?x = RUNNING)] => on_state x RUNNING E
             end.
    all: split; kinds; arith; auto.
    all: try (apply fresh_snoc; assumption).
    all: apply fresh_snoc; eapply fresh_weaken; [|eassumption]; lia.
  - split; assumption.
  - split; assumption.
  - split; assumption.
  - split; assumption.
Qed.

Lemma run_app es1 es2 m : run (es1 ++ es2) m = run es2 (run es1 m).
Proof. unfold run. apply fold_left_app. Qed.

Lemma run_invariant es m : invariant m -> invariant (run es m).
Proof.
  revert m. induction es as [|e es IH]; intros m H; cbn.
  - exact H.
  - apply IH, step_invariant, H.
Qed.

Lemma reachable_invariant m : reachable m -> invariant m.
Proof. intros (cfg & es & ->). apply run_invariant, init_invariant. Qed.

Lemma reachable_step e m : reachable m -> reachable (step e m).
Proof.
  intros (cfg & es & ->). exists cfg, (es ++ [e]). rewrite run_app. reflexivity.
Qed.

Lemma reachable_run es m : reachable m -> reachable (run es m).
Proof.
  intros (cfg & es0 & ->). exists cfg, (es0 ++ es). rewrite run_app. reflexivity.
Qed.

(** The promise created by an [await] is the one found under its handle. *)
Lemma take_awaited_fresh n k (ws : list (nat * awaiting)) :
  Forall (fun w => fst w < n) ws ->
  take_awaited n (ws ++ [(n, k)]) = Some (k, ws).
Proof.
  induction ws as [|[q k0] ws IH]; intros H; cbn.
  - rewrite Nat.eqb_refl. reflexivity.
  - inversion H as [|? ? Hq Hws]; subst. cbn in Hq.
    destruct (Nat.eqb q n) eqn:E.
    + apply Nat.eqb_eq in E. lia.
    + rewrite (IH Hws). reflexivity.
Qed.

Lemma take_awaited_snoc p k rest w (ws : list (nat * awaiting)) :
  take_awaited p ws = Some (k, rest) ->
  take_awaited p (ws ++ [w]) = Some (k, rest ++ [w]).
Proof.
  revert k rest. induction ws as [|[q k0] ws IH]; intros k rest H; cbn in *.
  - discriminate.
  - destruct (Nat.eqb q p).
    + inversion H; subst. reflexivity.
    + destruct (take_awaited p ws) as [[k' rest']|]; [|discriminate].
      inversion H; subst. rewrite (IH _ _ eq_refl). reflexivity.
Qed.

(** Settling another promise leaves this one where it is. *)
Lemma take_awaited_other p q k k' rest rest' (ws : list (nat * awaiting)) :
  q <> p ->
  take_awaited p ws = Some (k, rest) ->
  take_awaited q ws = Some (k', rest') ->
  exists rest'', take_awaited p rest' = Some (k, rest'').
Proof.
  intros Hne. revert rest rest'.
  induction ws as [|[r k0] ws IH]; intros rest rest' Hp Hq; cbn in *.
  - discriminate.
  - destruct (Nat.eqb r p) eqn:Erp, (Nat.eqb r q) eqn:Erq.
    + apply Nat.eqb_eq in Erp, Erq. congruence.
    + destruct (take_awaited q ws) as [[k1 rest1]|] eqn:E1; [|discriminate].
      injection Hp as <- <-. injection Hq as <- <-. cbn. rewrite Erp. eauto.
    + injection Hq as <- <-.
      destruct (take_awaited p ws) as [[k1 rest1]|] eqn:E1; [|discriminate].
      injection Hp as <- <-. eauto.
    + destruct (take_awaited p ws) as [[k1 rest1]|] eqn:E1; [|discriminate].
      destruct (take_awaited q ws) as [[k2 rest2]|] eqn:E2; [|discriminate].
      injection Hp as <- <-. injection Hq as <- <-.
      destruct (IH _ _ eq_refl eq_refl) as [rest'' H''].
      cbn. rewrite Erp, H''. eauto.
Qed.

Lemma take_awaited_counted P p k rest (ws : list (nat * awaiting)) :
  take_awaited p ws = Some (k, rest) -> P k = true -> 1 <= count_kind P ws.
Proof.
  intros H HP. rewrite (take_awaited_count P _ _ _ _ H), HP. lia.
Qed.

(** A parked continuation stays parked until its own promise settles. *)
Lemma parked_await p k k' m : parked p k m -> parked p k (await k' m).
Proof.
  intros [rest H]. exists (rest ++ [(fresh m, k')]).
  change (awaited (await k' m)) with (awaited m ++ [(fresh m, k')]).
  apply take_awaited_snoc, H.
Qed.

Lemma parked_same_awaited p k m m' :
  awaited m' = awaited m -> parked p k m -> parked p k m'.
Proof. unfold parked. intros ->. trivial. Qed.

Lemma parked_show p k x m : parked p k m -> parked p k (show x m).
Proof. apply parked_same_awaited. reflexivity. Qed.
Lemma parked_log p k x m : parked p k m -> parked p k (log x m).
Proof. apply parked_same_awaited. reflexivity. Qed.
Lemma parked_call p k x m : parked p k m -> parked p k (call x m).
Proof. apply parked_same_awaited. reflexivity. Qed.
Lemma parked_setState p k s m : parked p k m -> parked p k (setState s m).
Proof. apply parked_same_awaited. reflexivity. Qed.
Lemma parked_set_config p k c m : parked p k m -> parked p k (set_config c m).
Proof. apply parked_same_awaited. reflexivity. Qed.
Lemma parked_stopUpdateTimer p k m : parked p k m -> parked p k (stopUpdateTimer m).
Proof. apply parked_same_awaited. apply stopUpdateTimer_awaited. Qed.
Lemma parked_handleStockData p k d m : parked p k m -> parked p k (handleStockData d m).
Proof. apply parked_same_awaited. apply handleStockData_awaited. Qed.
Lemma parked_startUpdateTimer p k m : parked p k m -> parked p k (startUpdateTimer m).
Proof.
  intros H. unfold startUpdateTimer, performUpdate.
  apply parked_await, parked_call.
  eapply parked_same_awaited; [|exact H]. cbn. apply stopUpdateTimer_awaited.
Qed.
Lemma parked_dispose p k m : parked p k m -> parked p k (dispose m).
Proof.
  apply parked_same_awaited. unfold dispose. cbn. apply stopUpdateTimer_awaited.
Qed.

(** Peel the goal down to the hypothesis, one constructor of the code
    at a time. *)
Ltac park H :=
  lazymatch goal with
  | |- parked _ _ (await _ _) => apply parked_await; park H
  | |- parked _ _ (show _ _) => apply parked_show; park H
  | |- parked _ _ (log _ _) => apply parked_log; park H
  | |- parked _ _ (call _ _) => apply parked_call; park H
  | |- parked _ _ (setState _ _) => apply parked_setState; park H
  | |- parked _ _ (set_config _ _) => apply parked_set_config; park H
  | |- parked _ _ (stopUpdateTimer _) => apply parked_stopUpdateTimer; park H
  | |- parked _ _ (handleStockData _ _) => apply parked_handleStockData; park H
  | |- parked _ _ (startUpdateTimer _) => apply parked_startUpdateTimer; park H
  | |- parked _ _ (start_failed _ _) => unfold start_failed; park H
  | |- parked _ _ (performUpdate _) => unfold performUpdate; park H
  | |- parked _ _ (dispose _) => apply parked_dispose; park H
  | |- _ => exact H
  end.

Lemma step_parked p k e m :
  settles p e = false -> parked p k m -> parked p k (step e m).
Proof.
  intros Hs Hp. destruct e; cbn [step].
  - unfold start. destruct (negb _); park Hp.
  - unfold stop. destruct (negb _); park Hp.
  - unfold refresh. destruct (negb _); park Hp.
  - park Hp.
  - destruct (timer m) as [tm|]; [|exact Hp].
    destruct (Nat.eqb _ _); [|exact Hp].
    unfold onInterval. destruct (bool_decide _); park Hp.
  - unfold handleConfigChange. destruct (bool_decide _); park Hp.
  - park Hp.
  - cbn in Hs. apply Nat.eqb_neq in Hs.
    destruct (take_awaited p0 (awaited m)) as [[k' rest']|] eqn:E; [|exact Hp].
    destruct Hp as [rest Hp].
    destruct (take_awaited_other _ _ _ _ _ _ _ Hs Hp E) as [rest'' H''].
    assert (Hbase : parked p k (set_awaited rest' m)) by (exists rest''; exact H'').
    destruct k', r; cbn [resume].
    all: try (destruct (negb (truthy v))).
    all: try (destruct (throws v)).
    all: unfold poll_failed.
    all: try (destruct (bool_decide _)).
    all: park Hbase.
  - exact Hp.
  - exact Hp.
  - exact Hp.
  - exact Hp.
Qed.

Lemma run_parked p k es m :
  forallb (fun e => negb (settles p e)) es = true ->
  parked p k m -> parked p k (run es m).
Proof.
  revert m. induction es as [|e es IH]; intros m Hes Hp; cbn in *.
  - exact Hp.
  - apply andb_prop in Hes as [He Hes]. apply IH; [exact Hes|].
    apply step_parked; [|exact Hp]. destruct (settles p e); [discriminate|reflexivity].
Qed.

(** While [stop] waits for the answer to [pause], nothing else moves
    the state machine. *)
Lemma stopping_stable p e m :
  invariant m -> state m = STOPPING -> parked p StopAwaitsPause m ->
  settles p e = false -> state (step e m) = STOPPING.
Proof.
  intros Hinv Hst Hp Hs. pose proof Hinv as [Is Ip It If].
  destruct e; cbn [step].
  - unfold start. rewrite bool_decide_eq_false_2 by congruence. exact Hst.
  - unfold stop. rewrite bool_decide_eq_false_2 by congruence. exact Hst.
  - unfold refresh. rewrite bool_decide_eq_false_2 by congruence. exact Hst.
  - unfold dispose. cbn. autorewrite with frames. exact Hst.
  - rewrite (It Hst). exact Hst.
  - unfold handleConfigChange. cbn [state set_config].
    rewrite bool_decide_eq_false_2 by congruence. exact Hst.
  - autorewrite with frames. exact Hst.
  - cbn in Hs. apply Nat.eqb_neq in Hs.
    destruct (take_awaited p0 (awaited m)) as [[k' rest']|] eqn:E; [|exact Hst].
    pose proof (take_awaited_count is_start _ _ _ _ E) as Cs.
    pose proof (take_awaited_count is_pause _ _ _ _ E) as Cp.
    unfold pending in Is, Ip. rewrite Cs in Is. rewrite Cp in Ip.
    rewrite bool_decide_eq_false_2 in Is by congruence.
    rewrite (bool_decide_eq_true_2 _ Hst) in Ip.
    destruct Hp as [rest Hp].
    destruct (take_awaited_other _ _ _ _ _ _ _ Hs Hp E) as [rest'' H''].
    pose proof (take_awaited_counted is_pause _ _ _ _ H'' eq_refl) as Hge.
    destruct k'; cbn [is_start is_pause] in Is, Ip; try lia.
    all: destruct r; cbn [resume].
    all: try (destruct (throws v)).
    all: unfold poll_failed.
    all: try (rewrite bool_decide_eq_false_2
                by (cbn; autorewrite with frames; cbn; congruence)).
    all: cbn; autorewrite with frames; exact Hst.
  - exact Hst.
  - exact Hst.
  - exact Hst.
  - exact Hst.
Qed.

Lemma run_stopping p es m :
  invariant m -> state m = STOPPING -> parked p StopAwaitsPause m ->
  forallb (fun e => negb (settles p e)) es = true ->
  invariant (run es m) /\ state (run es m) = STOPPING /\
  parked p StopAwaitsPause (run es m).
Proof.
  revert m. induction es as [|e es IH]; intros m Hinv Hst Hp Hes; cbn in *.
  - auto.
  - apply andb_prop in Hes as [He Hes].
    assert (Hs : settles p e = false) by (destruct (settles p e); [discriminate|reflexivity]).
    apply IH; [apply step_invariant, Hinv | | apply step_parked; assumption | exact Hes].
    eapply stopping_stable; eassumption.
Qed.


(** ** The claims about the monitoring state machine *)

Import Examples.

Lemma stop_begins m :
  reachable m -> state m = RUNNING ->
  invariant (step Stop m) /\ state (step Stop m) = STOPPING /\
  parked (fresh m) StopAwaitsPause (step Stop m) /\
  calls (step Stop m) = calls m ++ [CallSendCommand cmd_pause].
Proof.
  intros Hr Hst. pose proof (reachable_invariant _ Hr) as Hinv.
  split; [apply step_invariant, Hinv|].
  cbn [step]. unfold stop. rewrite (bool_decide_eq_true_2 _ Hst). cbn [negb].
  split; [cbn; autorewrite with frames; reflexivity|]. split.
  - eexists.
    change (awaited (await StopAwaitsPause ?x)) with (awaited x ++ [(fresh x, StopAwaitsPause)]).
    cbn. autorewrite with frames. cbn.
    apply take_awaited_fresh. apply Hinv.
  - cbn. unfold stopUpdateTimer. cbn. destruct (timer m); reflexivity.
Qed.

(** C8.  A [stop()] issued while Running leaves the state at Stopping with
    the timer disarmed for as long as the answer to [pause] is
    outstanding, whatever else happens meanwhile; when that promise
    settles, fulfilled or rejected, the state becomes Stopped with the
    timer still disarmed, and a rejection is only logged. *)
Theorem stop_ends_stopped (m : t) (es : list event) (r : settlement) :
  reachable m -> state m = RUNNING ->
  forallb (fun e => negb (settles (fresh m) e)) es = true ->
  let stopping := run es (step Stop m) in
  let stopped := step (Settle (fresh m) r) stopping in
  calls (step Stop m) = calls m ++ [CallSendCommand cmd_pause] /\
  state stopping = STOPPING /\ timer stopping = None /\
  state stopped = STOPPED /\ timer stopped = None /\
  console stopped =
    console stopping ++
    match r with Rejected e => [WarnPauseFailed e] | Fulfilled _ => [] end.
Proof.
  intros Hr Hst Hes stopping stopped.
  destruct (stop_begins m Hr Hst) as (Hinv1 & Hst1 & Hp1 & Hcalls).
  destruct (run_stopping _ es _ Hinv1 Hst1 Hp1 Hes) as (Hinv2 & Hst2 & [rest Hp2]).
  fold stopping in Hinv2, Hst2, Hp2.
  pose proof (inv_timer _ Hinv2 Hst2) as Ht2.
  split; [exact Hcalls|]. split; [exact Hst2|]. split; [exact Ht2|].
  unfold stopped. cbn [step]. rewrite Hp2.
  destruct r; cbn; rewrite ?Ht2, ?app_nil_r; auto.
Qed.

Lemma stop_ends_stopped_witness :
  state (step (Settle 4 (Rejected "timeout")) (run [Tick 2; Start] (step Stop running0)))
    = STOPPED /\
  timer (step (Settle 4 (Rejected "timeout")) (run [Tick 2; Start] (step Stop running0)))
    = None.
Proof.
  assert (Hr : reachable running0) by (eexists _, _; reflexivity).
  assert (Hst : state running0 = RUNNING) by (vm_compute; reflexivity).
  assert (Hes : forallb (fun e => negb (settles (fresh running0) e)) [Tick 2; Start] = true)
    by (vm_compute; reflexivity).
  pose proof (stop_ends_stopped running0 [Tick 2; Start] (Rejected "timeout") Hr Hst Hes)
    as H.
  vm_compute in H. vm_compute. split; apply H.
Defined.

(** The guards of [start()] and [stop()]: [start()] leaves Stopped for
    Starting and is a no-op in every other state, Error included;
    [stop()] leaves Running for Stopping and is a no-op in every other
    state. *)
Lemma start_stop_guards (m : t) :
  (state m = STOPPED -> state (step Start m) = STARTING) /\
  (state m <> STOPPED -> step Start m = m) /\
  (state m = RUNNING -> state (step Stop m) = STOPPING) /\
  (state m <> RUNNING -> step Stop m = m).
Proof.
  cbn [step]. unfold start, stop. repeat split; intros H.
  - rewrite (bool_decide_eq_true_2 _ H). reflexivity.
  - rewrite (bool_decide_eq_false_2 _ H). reflexivity.
  - rewrite (bool_decide_eq_true_2 _ H). cbn. autorewrite with frames. reflexivity.
  - rewrite (bool_decide_eq_false_2 _ H). reflexivity.
Qed.

(** C2.  The recovery path from Error is offered and does nothing.  For a
    controller in Error the view shows the item that runs
    [trad.startMonitoring], as it does for a stopped one; the command
    calls [start()]; and [start()] returns at its guard: the controller
    is exactly as it was, still in Error and not in Starting, with no
    call made on the client and no listener told. *)
Theorem start_from_error_is_offered_and_ignored (m : t) :
  state m = ERROR ->
  In "trad.startMonitoring" (StockView.getControlItems (getState m)) /\
  StockView.getControlItems (getState m) = StockView.getControlItems STOPPED /\
  StockView.registered "trad.startMonitoring" = Some Start /\
  StockView.click "trad.startMonitoring" m = m /\
  step Start m = m /\
  state (step Start m) <> STARTING.
Proof.
  intros H. unfold getState, StockView.click. rewrite H.
  assert (E : step Start m = m).
  { cbn [step]. unfold start. rewrite bool_decide_eq_false_2 by congruence. reflexivity. }
  cbn [StockView.registered String.eqb Ascii.eqb Bool.eqb].
  rewrite E. repeat split; try reflexivity; [left; reflexivity | congruence].
Qed.

Lemma start_from_error_is_offered_and_ignored_witness :
  state errored0 = ERROR /\
  StockView.click "trad.startMonitoring" errored0 = errored0 /\
  state (step Start errored0) <> STARTING.
Proof.
  assert (E : state errored0 = ERROR) by (vm_compute; reflexivity).
  pose proof (start_from_error_is_offered_and_ignored errored0 E) as H.
  split; [exact E|]. split; apply H.
Defined.

(** C4, as amended.  A [refresh()] issued while Running sends one update
    request; when that request fails the failure is shown as an error
    message and nothing else happens: the state, the listeners' log and
    the data are as they were just before (so the state is still Running
    when nothing else intervened).  Outside Running, [refresh()] only
    shows a warning. *)
Theorem refresh_failure_is_only_shown (m : t) (es : list event) (reason : string) :
  reachable m -> state m = RUNNING ->
  forallb (fun e => negb (settles (fresh m) e)) es = true ->
  let waiting := run es (step Refresh m) in
  let failed := step (Settle (fresh m) (Rejected reason)) waiting in
  calls (step Refresh m) = calls m ++ [CallRequestUpdate] /\
  state (step Refresh m) = RUNNING /\
  state failed = state waiting /\
  notified failed = notified waiting /\
  stockData failed = stockData waiting /\
  summaryData failed = summaryData waiting /\
  shown failed = shown waiting ++ [ErrorRefreshFailed reason] /\
  (forall m', state m' <> RUNNING -> step Refresh m' = show WarnNotRunning m').
Proof.
  intros Hr Hst Hes waiting failed.
  pose proof (reachable_invariant _ Hr) as Hinv.
  assert (Hp : parked (fresh m) RefreshAwaitsUpdate (step Refresh m)).
  { cbn [step]. unfold refresh. rewrite (bool_decide_eq_true_2 _ Hst). cbn [negb].
    eexists. apply take_awaited_fresh. apply Hinv. }
  destruct (run_parked _ _ es _ Hes Hp) as [rest Hp2]. fold waiting in Hp2.
  assert (Hfailed : failed = show (ErrorRefreshFailed reason) (set_awaited rest waiting)).
  { unfold failed. cbn [step]. rewrite Hp2. reflexivity. }
  rewrite Hfailed. cbn [step]. unfold refresh at 1 2.
  rewrite (bool_decide_eq_true_2 _ Hst). cbn.
  repeat split; try reflexivity; try assumption.
  intros m' H'. unfold refresh. rewrite (bool_decide_eq_false_2 _ H'). reflexivity.
Qed.

Lemma refresh_failure_is_only_shown_witness :
  state (run [Refresh; Settle 4 (Rejected "timeout")] running0) = RUNNING /\
  notified (run [Refresh; Settle 4 (Rejected "timeout")] running0) = notified running0.
Proof.
  assert (Hr : reachable running0) by (eexists _, _; reflexivity).
  assert (Hst : state running0 = RUNNING) by (vm_compute; reflexivity).
  assert (Hes : forallb (fun e => negb (settles (fresh running0) e)) [] = true)
    by reflexivity.
  destruct (refresh_failure_is_only_shown running0 [] "timeout" Hr Hst Hes)
    as (_ & H1 & H2 & H3 & _).
  vm_compute in H1, H2, H3. vm_compute. split; assumption.
Defined.

(** C4 as stated fails: a running controller whose manual refresh times
    out is still Running, and no state listener has heard of anything. *)
Lemma refresh_failure_counterexample :
  state running0 = RUNNING /\
  state (run [Refresh; Settle 4 (Rejected "timeout")] running0) <> ERROR /\
  notified (run [Refresh; Settle 4 (Rejected "timeout")] running0) = notified running0.
Proof. vm_compute. split; [reflexivity|]. split; [discriminate | reflexivity]. Qed.

(** The sibling path: a failed timer-driven poll does move a running
    controller to Error and tells the state listeners. *)
Lemma poll_failure_moves_to_error :
  state (run [Tick 2; Settle 4 (Rejected "timeout")] running0) = ERROR /\
  notified (run [Tick 2; Settle 4 (Rejected "timeout")] running0)
    = notified running0 ++ [ToStateListener 7 ERROR].
Proof. vm_compute. split; reflexivity. Qed.


(** ** The aggregator *)

Lemma JsMap_get_set_other {V} (k k' : string) (v : V) (m : list (string * V)) :
  k <> k' -> JsMap.get k (JsMap.set k' v m) = JsMap.get k m.
Proof.
  intros Hne. induction m as [|[k0 v0] m IH]; cbn.
  - destruct (String.eqb_spec k' k); [congruence | reflexivity].
  - destruct (String.eqb_spec k0 k'); cbn.
    + subst. destruct (String.eqb_spec k' k); [congruence | reflexivity].
    + destruct (String.eqb_spec k0 k); [reflexivity | exact IH].
Qed.

Lemma JsMap_get_set_same {V} (k : string) (v : V) (m : list (string * V)) :
  JsMap.get k (JsMap.set k v m) = Some v.
Proof.
  induction m as [|[k0 v0] m IH]; cbn.
  - rewrite String.eqb_refl. reflexivity.
  - destruct (String.eqb_spec k0 k); cbn.
    + rewrite String.eqb_refl. reflexivity.
    + destruct (String.eqb_spec k0 k); [congruence | exact IH].
Qed.

Lemma JsMap_get_In {V} (k : string) (v : V) (m : list (string * V)) :
  JsMap.get k m = Some v -> In v (JsMap.values m).
Proof.
  induction m as [|[k0 v0] m IH]; cbn; [discriminate|].
  destruct (String.eqb k0 k); intros H.
  - left. congruence.
  - right. apply IH, H.
Qed.

Lemma JsMap_keys_set {V} (k : string) (v : V) (m : list (string * V)) :
  JsMap.keys (JsMap.set k v m) =
  if existsb (String.eqb k) (JsMap.keys m) then JsMap.keys m else JsMap.keys m ++ [k].
Proof.
  induction m as [|[k0 v0] m IH]; cbn; [reflexivity|].
  destruct (String.eqb_spec k0 k) as [->|Hne]; cbn.
  - rewrite String.eqb_refl. reflexivity.
  - destruct (String.eqb_spec k k0); [congruence|]. cbn.
    unfold JsMap.keys in IH. rewrite IH.
    destruct (existsb _ _); reflexivity.
Qed.

Lemma JsMap_keys_set_incl {V} (k k' : string) (v : V) (m : list (string * V)) :
  In k (JsMap.keys m) -> In k (JsMap.keys (JsMap.set k' v m)).
Proof.
  rewrite JsMap_keys_set. destruct (existsb _ _); [trivial|].
  intros H. apply in_or_app. left. exact H.
Qed.

(** No key is entered twice. *)
Lemma JsMap_set_NoDup {V} (k : string) (v : V) (m : list (string * V)) :
  List.NoDup (JsMap.keys m) -> List.NoDup (JsMap.keys (JsMap.set k v m)).
Proof.
  intros H. rewrite JsMap_keys_set.
  destruct (existsb (String.eqb k) (JsMap.keys m)) eqn:E; [exact H|].
  apply NoDup_ListNoDup. apply NoDup_app. split; [apply NoDup_ListNoDup, H|].
  split; [|apply NoDup_singleton].
  intros x Hx Hk. apply list_elem_of_In in Hx. apply list_elem_of_In in Hk.
  destruct Hk as [<-|[]].
  assert (existsb (String.eqb k) (JsMap.keys m) = true); [|congruence].
  apply existsb_exists. exists k. split; [exact Hx | apply String.eqb_refl].
Qed.

Lemma merge_get_other l sd k :
  ~ In k (map code l) -> JsMap.get k (merge l sd) = JsMap.get k sd.
Proof.
  revert sd. induction l as [|s l IH]; intros sd Hk; cbn; [reflexivity|].
  rewrite IH.
  - apply JsMap_get_set_other. intros ->. apply Hk. left. reflexivity.
  - intros H. apply Hk. right. exact H.
Qed.

Lemma merge_keys_incl l sd k :
  In k (JsMap.keys sd) -> In k (JsMap.keys (merge l sd)).
Proof.
  revert sd. induction l as [|s l IH]; intros sd Hk; cbn; [exact Hk|].
  apply IH, JsMap_keys_set_incl, Hk.
Qed.

Lemma merge_length l sd : length sd <= length (merge l sd).
Proof.
  revert sd. induction l as [|s l IH]; intros sd; cbn; [lia|].
  etransitivity; [|apply IH].
  rewrite <- (length_map fst sd), <- (length_map fst (JsMap.set _ _ _)).
  fold (JsMap.keys sd). fold (JsMap.keys (JsMap.set (code s) s sd)).
  rewrite JsMap_keys_set. destruct (existsb _ _); [lia|]. rewrite length_app. lia.
Qed.

Lemma handleStockData_array l m :
  handleStockData (StockArray l) m =
  notifyUpdateListeners (calculateSummary (set_stockData (merge l (stockData m)) m)).
Proof. reflexivity. Qed.





(** The totals depend on the order in which the snapshots were first
    stored: doubles are added from the left. *)
Lemma sum_of_depends_on_order :
  sum_of profitAmount [snapshot "A" 1 1 true; snapshot "B" 1 1 true;
                       snapshot "C" 1 9007199254740992 true]
  <> sum_of profitAmount [snapshot "C" 1 9007199254740992 true;
                          snapshot "B" 1 1 true; snapshot "A" 1 1 true].
Proof.
  intros H.
  apply (f_equal (fun x => PrimFloat.eqb x 9007199254740992)) in H.
  vm_compute in H. discriminate.
Qed.

(** C9.  Data that is not an array leaves the controller exactly as it
    was: the snapshot map, the summary and the log of listener calls in
    particular. *)
Theorem non_array_data_is_ignored (d : js_data) (m : t) :
  isArray d = false ->
  handleStockData d m = m /\
  step (StockDataPush d) m = m /\
  stockData (handleStockData d m) = stockData m /\
  summaryData (handleStockData d m) = summaryData m /\
  notified (handleStockData d m) = notified m.
Proof.
  intros H. cbn [step]. unfold handleStockData. rewrite H. cbn. auto.
Qed.

Lemma non_array_data_is_ignored_witness :
  handleStockData Null running0 = running0 /\
  notified (handleStockData Object running0) = notified running0.
Proof.
  destruct (non_array_data_is_ignored Null running0 eq_refl) as (H1 & _).
  destruct (non_array_data_is_ignored Object running0 eq_refl) as (_ & _ & _ & _ & H2).
  split; [exact H1 | exact H2].
Defined.

(** C10.  A snapshot whose key is not in the incoming list is still
    stored under its key after the merge, unchanged; it is among the
    values [getStockData] returns, which are the values the new summary
    is computed from; no key is lost and the map does not shrink. *)
Theorem merge_keeps_other_snapshots
    (l : list StockData) (m : t) (k : string) (v : StockData) :
  getStock k m = Some v -> ~ In k (map code l) ->
  let m' := handleStockData (StockArray l) m in
  getStock k m' = Some v /\
  In v (getStockData m') /\
  getSummary m' = Some (summarize (getStockData m')) /\
  (forall k', In k' (JsMap.keys (stockData m)) -> In k' (JsMap.keys (stockData m'))) /\
  length (getStockData m) <= length (getStockData m').
Proof.
  intros Hget Hk m'. unfold m'. rewrite handleStockData_array.
  unfold getStock, getStockData, getSummary in *. cbn.
  assert (H : JsMap.get k (merge l (stockData m)) = Some v)
    by (rewrite merge_get_other; assumption).
  split; [exact H|]. split; [apply (JsMap_get_In k), H|].
  split; [reflexivity|]. split; [intros k'; apply merge_keys_incl|].
  unfold JsMap.values. rewrite !length_map. apply merge_length.
Qed.

Lemma merge_keeps_other_snapshots_witness :
  getStock "A" (handleStockData (StockArray [stockB; stockC])
                  (handleStockData (StockArray [stockA]) (init cfg0))) = Some stockA.
Proof.
  assert (H1 : getStock "A" (handleStockData (StockArray [stockA]) (init cfg0))
               = Some stockA) by (vm_compute; reflexivity).
  assert (H2 : ~ In "A" (map code [stockB; stockC])).
  { vm_compute. intros [H|[H|[]]]; discriminate. }
  destruct (merge_keeps_other_snapshots [stockB; stockC] _ "A" stockA H1 H2) as (H & _).
  exact H.
Defined.

(** ** Further properties: the state machine *)

(** The interval is armed in no state but Running and Error. *)
Lemma step_disarmed e m :
  invariant m ->
  (state m <> RUNNING -> state m <> ERROR -> timer m = None) ->
  state (step e m) <> RUNNING -> state (step e m) <> ERROR -> timer (step e m) = None.
Proof.
  intros Hinv Hq. pose proof Hinv as [Is Ip It If].
  destruct e as [ | | | |h|cfg|data|p r|l|l|l|l]; cbn [step].
  - unfold start. on_state m STOPPED E; [|exact Hq].
    fields. intros _ _. apply Hq; congruence.
  - unfold stop. on_state m RUNNING E; [|exact Hq].
    fields. reflexivity.
  - unfold refresh. on_state m RUNNING E; fields; exact Hq.
  - unfold dispose. fields. reflexivity.
  - destruct (timer m) as [tm|] eqn:Et; [|intros _ _; exact Et].
    destruct (Nat.eqb (handle tm) h);
      [|intros H1 H2; rewrite Et; exact (Hq H1 H2)].
    unfold onInterval. on_state m RUNNING E;
      [|intros H1 H2; rewrite Et; exact (Hq H1 H2)].
    fields. congruence.
  - unfold handleConfigChange. fields. on_state m RUNNING E; fields; exact Hq.
  - autorewrite with frames. exact Hq.
  - destruct (take_awaited p (awaited m)) as [[k rest]|] eqn:Etake; [|exact Hq].
    pose proof (take_awaited_count is_start _ _ _ _ Etake) as Cs.
    pose proof (take_awaited_count is_pause _ _ _ _ Etake) as Cp.
    unfold pending in Is, Ip. rewrite Cs in Is. rewrite Cp in Ip.
    destruct k, r; cbn [resume is_start is_pause] in *.
    all: try (destruct (negb (truthy v))).
    all: try (destruct (throws v)).
    all: unfold poll_failed.
    all: try match goal with
             | |- context [bool_decide (state ?x = RUNNING)] => on_state x RUNNING E
             end.
    all: fields; try congruence; try exact Hq.
    all: intros _ _; apply Hq; case_bool_decide; try congruence; lia.
  - exact Hq.
  - exact Hq.
  - exact Hq.
  - exact Hq.
Qed.

Lemma reachable_disarmed m :
  reachable m -> state m <> RUNNING -> state m <> ERROR -> timer m = None.
Proof.
  intros (cfg & es & ->).
  induction es as [|e es IH] using rev_ind.
  - reflexivity.
  - rewrite run_app. cbn [run fold_left].
    apply step_disarmed; [|exact IH].
    apply run_invariant, init_invariant.
Qed.

Lemma handleStockData_calls d m : calls (handleStockData d m) = calls m.
Proof. apply handleStockData_frame. Qed.

Lemma handleStockData_shown d m : shown (handleStockData d m) = shown m.
Proof. apply handleStockData_frame. Qed.

(** In Error every event leaves the state, the calls made on the client
    and, [dispose] apart, the interval as they are. *)
Lemma error_step e m :
  invariant m -> state m = ERROR ->
  state (step e m) = ERROR /\ calls (step e m) = calls m /\
  (is_dispose e = false -> timer (step e m) = timer m).
Proof.
  intros Hinv Hst. pose proof Hinv as [Is Ip It If].
  destruct e as [ | | | |h|cfg|data|p r|l|l|l|l]; cbn [step is_dispose].
  - unfold start. rewrite bool_decide_eq_false_2 by congruence. auto.
  - unfold stop. rewrite bool_decide_eq_false_2 by congruence. auto.
  - unfold refresh. rewrite bool_decide_eq_false_2 by congruence. auto.
  - unfold dispose. cbn. autorewrite with frames.
    split; [exact Hst|]. split; [|discriminate].
    unfold stopUpdateTimer. destruct (timer m); reflexivity.
  - destruct (timer m) as [tm|] eqn:Et; [|auto].
    destruct (Nat.eqb (handle tm) h); [|auto].
    unfold onInterval. rewrite bool_decide_eq_false_2 by congruence. auto.
  - unfold handleConfigChange. cbn [state set_config].
    rewrite bool_decide_eq_false_2 by congruence. auto.
  - autorewrite with frames. rewrite handleStockData_calls. auto.
  - destruct (take_awaited p (awaited m)) as [[k rest]|] eqn:E; [|auto].
    pose proof (take_awaited_count is_start _ _ _ _ E) as Cs.
    pose proof (take_awaited_count is_pause _ _ _ _ E) as Cp.
    unfold pending in Is, Ip. rewrite Cs in Is. rewrite Cp in Ip.
    rewrite bool_decide_eq_false_2 in Is by congruence.
    rewrite bool_decide_eq_false_2 in Ip by congruence.
    destruct k; cbn [is_start is_pause] in Is, Ip; try lia.
    all: destruct r; cbn [resume].
    all: try (destruct (throws v)).
    all: unfold poll_failed.
    all: try (rewrite bool_decide_eq_false_2
                by (cbn; autorewrite with frames; cbn; congruence)).
    all: cbn; autorewrite with frames; rewrite ?handleStockData_calls; auto.
  - auto.
  - auto.
  - auto.
  - auto.
Qed.

(** X13.  Error is a trap.  Once the controller is in Error, no sequence of
    calls, timer ticks, pushes or settling promises takes it out again
    ([start()] included), it never calls the worker client again, and
    the interval armed by the last successful start stays armed until
    [dispose()]. *)
Theorem error_is_final (m : t) (es : list event) :
  reachable m -> state m = ERROR ->
  state (run es m) = ERROR /\
  calls (run es m) = calls m /\
  (forallb (fun e => negb (is_dispose e)) es = true -> timer (run es m) = timer m).
Proof.
  intros Hr. apply reachable_invariant in Hr. revert m Hr.
  induction es as [|e es IH]; intros m Hinv Hst; cbn [run fold_left forallb].
  - auto.
  - destruct (error_step e m Hinv Hst) as (H1 & H2 & H3).
    destruct (IH (step e m) (step_invariant _ _ Hinv) H1) as (J1 & J2 & J3).
    unfold run in *. split; [exact J1|]. split; [congruence|].
    intros Hes. apply andb_prop in Hes as [He Hes].
    rewrite (J3 Hes). apply H3. destruct (is_dispose e); [discriminate|reflexivity].
Qed.

Lemma error_is_final_witness :
  state (run [Start; Tick 2; Stop; Refresh; Settle 0 (Fulfilled (Boolean true))] errored0)
    = ERROR /\
  calls (run [Start; Tick 2; Stop; Refresh; Settle 0 (Fulfilled (Boolean true))] errored0)
    = calls errored0.
Proof.
  assert (Hr : reachable errored0) by (eexists _, _; reflexivity).
  assert (Hst : state errored0 = ERROR) by (vm_compute; reflexivity).
  destruct (error_is_final errored0
              [Start; Tick 2; Stop; Refresh; Settle 0 (Fulfilled (Boolean true))] Hr Hst)
    as (H1 & H2 & _).
  split; assumption.
Defined.

(** X14.  The interval timer exists in no state but Running and Error: a
    reachable controller that is Stopped, Starting or Stopping has
    [timer === null]. *)
Theorem timer_only_when_running_or_error (m : t) :
  reachable m -> timer m <> None -> state m = RUNNING \/ state m = ERROR.
Proof.
  intros Hr Ht.
  destruct (decide (state m = RUNNING)) as [|H1]; [left; assumption|].
  destruct (decide (state m = ERROR)) as [|H2]; [right; assumption|].
  destruct Ht. apply reachable_disarmed; assumption.
Qed.

Lemma timer_only_when_running_or_error_witness :
  state running0 = RUNNING \/ state running0 = ERROR.
Proof.
  apply (timer_only_when_running_or_error running0).
  - eexists _, _; reflexivity.
  - vm_compute. discriminate.
Defined.

Lemma stopUpdateTimer_calls m : calls (stopUpdateTimer m) = calls m.
Proof. unfold stopUpdateTimer. destruct (timer m); reflexivity. Qed.

(** While [start] waits for the worker or for the configuration to be
    taken, nothing else moves the state machine or calls the client. *)
Lemma starting_stable p k e m :
  invariant m -> state m = STARTING -> is_start k = true -> parked p k m ->
  settles p e = false ->
  state (step e m) = STARTING /\ calls (step e m) = calls m.
Proof.
  intros Hinv Hst Hk Hp Hs. pose proof Hinv as [Is Ip It If].
  destruct e as [ | | | |h|cfg|data|p0 r|l|l|l|l]; cbn [step].
  - unfold start. rewrite bool_decide_eq_false_2 by congruence. auto.
  - unfold stop. rewrite bool_decide_eq_false_2 by congruence. auto.
  - unfold refresh. rewrite bool_decide_eq_false_2 by congruence. auto.
  - unfold dispose. cbn. autorewrite with frames.
    rewrite stopUpdateTimer_calls. auto.
  - destruct (timer m) as [tm|] eqn:Et; [|auto].
    destruct (Nat.eqb (handle tm) h); [|auto].
    unfold onInterval. rewrite bool_decide_eq_false_2 by congruence. auto.
  - unfold handleConfigChange. cbn [state set_config].
    rewrite bool_decide_eq_false_2 by congruence. auto.
  - autorewrite with frames. rewrite handleStockData_calls. auto.
  - cbn in Hs. apply Nat.eqb_neq in Hs.
    destruct (take_awaited p0 (awaited m)) as [[k' rest']|] eqn:E; [|auto].
    pose proof (take_awaited_count is_start _ _ _ _ E) as Cs.
    pose proof (take_awaited_count is_pause _ _ _ _ E) as Cp.
    unfold pending in Is, Ip. rewrite Cs in Is. rewrite Cp in Ip.
    rewrite (bool_decide_eq_true_2 _ Hst) in Is.
    rewrite bool_decide_eq_false_2 in Ip by congruence.
    destruct Hp as [rest Hp].
    destruct (take_awaited_other _ _ _ _ _ _ _ Hs Hp E) as [rest'' H''].
    pose proof (take_awaited_counted is_start _ _ _ _ H'' Hk) as Hge.
    destruct k'; cbn [is_start is_pause] in Is, Ip; try lia.
    all: destruct r; cbn [resume].
    all: try (destruct (throws v)).
    all: unfold poll_failed.
    all: try (rewrite bool_decide_eq_false_2
                by (cbn; autorewrite with frames; cbn; congruence)).
    all: cbn; autorewrite with frames; rewrite ?handleStockData_calls; auto.
  - auto.
  - auto.
  - auto.
  - auto.
Qed.

Lemma run_starting p k es m :
  invariant m -> state m = STARTING -> is_start k = true -> parked p k m ->
  forallb (fun e => negb (settles p e)) es = true ->
  invariant (run es m) /\ state (run es m) = STARTING /\
  parked p k (run es m) /\ calls (run es m) = calls m.
Proof.
  revert m. induction es as [|e es IH]; intros m Hinv Hst Hk Hp Hes; cbn in *.
  - auto.
  - apply andb_prop in Hes as [He Hes].
    assert (Hs : settles p e = false) by (destruct (settles p e); [discriminate|reflexivity]).
    destruct (starting_stable p k e m Hinv Hst Hk Hp Hs) as [H1 H2].
    rewrite <- H2.
    apply IH; [apply step_invariant, Hinv | exact H1 | exact Hk
              | apply step_parked; assumption | exact Hes].
Qed.

Lemma start_begins m :
  reachable m -> state m = STOPPED ->
  invariant (step Start m) /\ state (step Start m) = STARTING /\
  parked (fresh m) StartAwaitsDaemon (step Start m) /\
  calls (step Start m) = calls m ++ [CallStartDaemon].
Proof.
  intros Hr Hst. pose proof (reachable_invariant _ Hr) as Hinv.
  split; [apply step_invariant, Hinv|].
  cbn [step]. unfold start. rewrite (bool_decide_eq_true_2 _ Hst). cbn [negb].
  split; [reflexivity|]. split; [|reflexivity].
  eexists.
  change (awaited (await StartAwaitsDaemon ?x)) with (awaited x ++ [(fresh x, StartAwaitsDaemon)]).
  cbn. apply take_awaited_fresh. apply Hinv.
Qed.

(** What [start] has done by the time the worker is up and the
    configuration is about to be sent. *)
Lemma start_daemon_up m es1 v :
  reachable m -> state m = STOPPED -> truthy v = true ->
  forallb (fun e => negb (settles (fresh m) e)) es1 = true ->
  let s1 := run es1 (step Start m) in
  let s2 := step (Settle (fresh m) (Fulfilled v)) s1 in
  invariant s2 /\ state s2 = STARTING /\
  parked (fresh s1) StartAwaitsConfig s2 /\
  calls s2 = calls m ++ [CallStartDaemon; CallSendConfig (config s1)] /\
  fresh s2 = S (fresh s1).
Proof.
  intros Hr Hst Hv Hes s1 s2.
  destruct (start_begins m Hr Hst) as (Hinv0 & Hst0 & Hp0 & Hc0).
  destruct (run_starting _ StartAwaitsDaemon es1 _ Hinv0 Hst0 eq_refl Hp0 Hes) as (Hinv1 & Hst1 & Hp1 & Hc1).
  fold s1 in Hinv1, Hst1, Hp1, Hc1.
  split; [apply step_invariant, Hinv1|].
  destruct Hp1 as [rest Hp1].
  pose proof (take_awaited_Forall _ _ _ _ _ Hp1 (inv_fresh _ Hinv1)) as Hf.
  unfold s2. cbn [step]. rewrite Hp1. cbn [resume]. rewrite Hv. cbn [negb].
  split; [exact Hst1|]. split; [|split].
  - eexists.
    change (awaited (await StartAwaitsConfig ?x)) with (awaited x ++ [(fresh x, StartAwaitsConfig)]).
    cbn. apply take_awaited_fresh. exact Hf.
  - cbn. rewrite Hc1, Hc0, <- app_assoc. reflexivity.
  - reflexivity.
Qed.

(** X11.  The successful path of [start()].  Called while Stopped, it moves to
    Starting and stays there, making no further call on the client,
    until the worker is up; it then sends the configuration current at
    that moment and stays in Starting until that is acknowledged;
    then it arms the interval with the period [updateInterval * 1000]
    of the configuration current at that moment, requests the first
    update at once, and becomes Running.  Other events may come in
    between at both waits. *)
Theorem start_reaches_running (m : t) (es1 es2 : list event) (v w : js_data) :
  reachable m -> state m = STOPPED -> truthy v = true ->
  forallb (fun e => negb (settles (fresh m) e)) es1 = true ->
  let s1 := run es1 (step Start m) in
  let s2 := step (Settle (fresh m) (Fulfilled v)) s1 in
  forallb (fun e => negb (settles (fresh s1) e)) es2 = true ->
  let s3 := run es2 s2 in
  let s4 := step (Settle (fresh s1) (Fulfilled w)) s3 in
  state s1 = STARTING /\ state s3 = STARTING /\ state s4 = RUNNING /\
  calls s4 =
    calls m ++ [CallStartDaemon; CallSendConfig (config s1); CallRequestUpdate] /\
  timer s4 =
    Some {| handle := fresh s3; period_ms := (updateInterval (config s3) * 1000)%float |} /\
  parked (S (fresh s3)) PollAwaitsUpdate s4 /\
  shown s4 = shown s3 ++ [InfoMonitoringStarted].
Proof.
  intros Hr Hst Hv Hes1 s1 s2 Hes2 s3 s4.
  destruct (start_begins m Hr Hst) as (Hinv0 & Hst0 & Hp0 & Hc0).
  destruct (run_starting _ StartAwaitsDaemon es1 _ Hinv0 Hst0 eq_refl Hp0 Hes1)
    as (_ & Hst1 & _ & _).
  destruct (start_daemon_up m es1 v Hr Hst Hv Hes1) as (Hinv2 & Hst2 & Hp2 & Hc2 & _).
  fold s1 in Hst1, Hinv2, Hst2, Hp2, Hc2. fold s2 in Hinv2, Hst2, Hp2, Hc2.
  destruct (run_starting _ StartAwaitsConfig es2 _ Hinv2 Hst2 eq_refl Hp2 Hes2)
    as (Hinv3 & Hst3 & [rest Hp3] & Hc3).
  fold s3 in Hinv3, Hst3, Hp3, Hc3.
  pose proof (take_awaited_Forall _ _ _ _ _ Hp3 (inv_fresh _ Hinv3)) as Hf.
  split; [exact Hst1|]. split; [exact Hst3|].
  unfold s4. cbn [step]. rewrite Hp3. cbn [resume].
  unfold startUpdateTimer, performUpdate.
  split; [reflexivity|]. split; [|split; [|split]].
  - cbn. rewrite stopUpdateTimer_calls. cbn. rewrite Hc3, Hc2, <- app_assoc. reflexivity.
  - cbn. autorewrite with frames. reflexivity.
  - eexists.
    cbn. autorewrite with frames. cbn. apply take_awaited_fresh.
    eapply fresh_weaken; [|exact Hf]. lia.
  - cbn. unfold stopUpdateTimer. destruct (timer _); reflexivity.
Qed.

Lemma start_reaches_running_witness :
  state (run [Start; Refresh; Settle 0 (Fulfilled (Boolean true)); Tick 0;
              Settle 1 (Fulfilled Undefined)] (init cfg0)) = RUNNING /\
  timer (run [Start; Refresh; Settle 0 (Fulfilled (Boolean true)); Tick 0;
              Settle 1 (Fulfilled Undefined)] (init cfg0))
    = Some {| handle := 2; period_ms := (20 * 1000)%float |}.
Proof.
  assert (Hr : reachable (init cfg0)) by (exists cfg0, []; reflexivity).
  assert (Hst : state (init cfg0) = STOPPED) by reflexivity.
  assert (Hv : truthy (Boolean true) = true) by reflexivity.
  assert (H1 : forallb (fun e => negb (settles (fresh (init cfg0)) e)) [Refresh] = true)
    by (vm_compute; reflexivity).
  assert (H2 : forallb (fun e => negb (settles
                  (fresh (run [Refresh] (step Start (init cfg0)))) e)) [Tick 0] = true)
    by (vm_compute; reflexivity).
  pose proof (start_reaches_running (init cfg0) [Refresh] [Tick 0] (Boolean true) Undefined
                Hr Hst Hv H1 H2) as H.
  vm_compute in H. vm_compute. split; apply H.
Defined.

(** X12.  The failing paths of [start()].  If the worker cannot be started
    (the promise is rejected or yields a falsy value) nothing is sent to
    it; if the configuration is not acknowledged no update is requested;
    either way the state becomes Error, the interval is not armed, and
    the reason is shown. *)
Theorem start_failure_ends_in_error
  (m : t) (es1 es2 : list event) (r1 : settlement) (reason : string) :
  reachable m -> state m = STOPPED ->
  forallb (fun e => negb (settles (fresh m) e)) es1 = true ->
  let s1 := run es1 (step Start m) in
  let s2 := step (Settle (fresh m) r1) s1 in
  forallb (fun e => negb (settles (fresh s1) e)) es2 = true ->
  let s3 := run es2 s2 in
  let s4 := step (Settle (fresh s1) (Rejected reason)) s3 in
  match r1 with
  | Rejected e =>
      state s2 = ERROR /\ timer s2 = None /\
      calls s2 = calls m ++ [CallStartDaemon] /\
      shown s2 = shown s1 ++ [ErrorStartFailed e]
  | Fulfilled v =>
      if truthy v then
        state s4 = ERROR /\ timer s4 = None /\
        calls s4 = calls m ++ [CallStartDaemon; CallSendConfig (config s1)] /\
        shown s4 = shown s3 ++ [ErrorStartFailed reason]
      else
        state s2 = ERROR /\ timer s2 = None /\
        calls s2 = calls m ++ [CallStartDaemon] /\
        shown s2 = shown s1 ++ [ErrorStartFailed "startDaemon"]
  end.
Proof.
  intros Hr Hst Hes1 s1 s2 Hes2 s3 s4.
  destruct (start_begins m Hr Hst) as (Hinv0 & Hst0 & Hp0 & Hc0).
  destruct (run_starting _ StartAwaitsDaemon es1 _ Hinv0 Hst0 eq_refl Hp0 Hes1)
    as (Hinv1 & Hst1 & [rest1 Hp1] & Hc1).
  fold s1 in Hinv1, Hst1, Hp1, Hc1.
  assert (Hr1 : reachable s1) by (apply reachable_run, reachable_step, Hr).
  assert (Ht1 : timer s1 = None) by (apply reachable_disarmed; [exact Hr1|congruence..]).
  assert (Hdaemon : forall e,
            state (start_failed e (set_awaited rest1 s1)) = ERROR /\
            timer (start_failed e (set_awaited rest1 s1)) = None /\
            calls (start_failed e (set_awaited rest1 s1)) = calls m ++ [CallStartDaemon] /\
            shown (start_failed e (set_awaited rest1 s1)) = shown s1 ++ [ErrorStartFailed e]).
  { intros e. cbn. rewrite Ht1, Hc1, Hc0. auto. }
  destruct r1 as [v|e].
  - destruct (truthy v) eqn:Hv.
    + destruct (start_daemon_up m es1 v Hr Hst Hv Hes1) as (Hinv2 & Hst2 & Hp2 & Hc2 & _).
      fold s1 in Hinv2, Hst2, Hp2, Hc2. fold s2 in Hinv2, Hst2, Hp2, Hc2.
      destruct (run_starting _ StartAwaitsConfig es2 _ Hinv2 Hst2 eq_refl Hp2 Hes2)
        as (Hinv3 & Hst3 & [rest Hp3] & Hc3).
      fold s3 in Hinv3, Hst3, Hp3, Hc3.
      assert (Hr3 : reachable s3).
      { apply reachable_run, reachable_step. exact Hr1. }
      assert (Ht3 : timer s3 = None) by (apply reachable_disarmed; [exact Hr3|congruence..]).
      unfold s4. cbn [step]. rewrite Hp3. cbn. rewrite Ht3, Hc3, Hc2. auto.
    + unfold s2. cbn [step]. rewrite Hp1. cbn [resume]. rewrite Hv. cbn [negb].
      apply Hdaemon.
  - unfold s2. cbn [step]. rewrite Hp1. cbn [resume]. apply Hdaemon.
Qed.

Lemma start_failure_ends_in_error_witness :
  state (run [Start; Refresh; Settle 0 (Fulfilled (Boolean true)); Tick 0;
              Settle 1 (Rejected "timeout")] (init cfg0)) = ERROR /\
  timer (run [Start; Refresh; Settle 0 (Fulfilled (Boolean true)); Tick 0;
              Settle 1 (Rejected "timeout")] (init cfg0)) = None.
Proof.
  assert (Hr : reachable (init cfg0)) by (exists cfg0, []; reflexivity).
  assert (Hst : state (init cfg0) = STOPPED) by reflexivity.
  assert (H1 : forallb (fun e => negb (settles (fresh (init cfg0)) e)) [Refresh] = true)
    by (vm_compute; reflexivity).
  assert (H2 : forallb (fun e => negb (settles
                  (fresh (run [Refresh] (step Start (init cfg0)))) e)) [Tick 0] = true)
    by (vm_compute; reflexivity).
  pose proof (start_failure_ends_in_error (init cfg0) [Refresh] [Tick 0]
                (Fulfilled (Boolean true)) "timeout" Hr Hst H1 H2) as H.
  vm_compute in H. vm_compute. split; apply H.
Defined.

(** X18.  A configuration change is forwarded to the worker only while
    Running; in every other state it is dropped.  When a forwarded
    change is not acknowledged, the failure is written to the console
    and to nothing else: state, interval, data and the messages shown
    stay as they are. *)
Theorem config_change_is_forwarded_only_when_running
  (m : t) (cfg : PluginConfig) (es : list event) (reason : string) :
  reachable m ->
  forallb (fun e => negb (settles (fresh m) e)) es = true ->
  let pushed := step (ConfigChanged cfg) m in
  let before := run es pushed in
  let after := step (Settle (fresh m) (Rejected reason)) before in
  (state m <> RUNNING -> calls pushed = calls m /\ awaited pushed = awaited m) /\
  (state m = RUNNING ->
     calls pushed = calls m ++ [CallSendConfig cfg] /\
     state after = state before /\ timer after = timer before /\
     stockData after = stockData before /\ shown after = shown before /\
     console after = console before ++ [ErrorConfigPushFailed reason]).
Proof.
  intros Hr Hes pushed before after. split.
  - intros Hst. unfold pushed. cbn [step]. unfold handleConfigChange.
    cbn [state set_config]. rewrite bool_decide_eq_false_2 by exact Hst. auto.
  - intros Hst. pose proof (reachable_invariant _ Hr) as Hinv.
    assert (Hp : parked (fresh m) ConfigPushAwaits pushed).
    { unfold pushed. cbn [step]. unfold handleConfigChange. cbn [state set_config].
      rewrite (bool_decide_eq_true_2 _ Hst). eexists.
      change (awaited (await ConfigPushAwaits ?x))
        with (awaited x ++ [(fresh x, ConfigPushAwaits)]).
      cbn. apply take_awaited_fresh. apply Hinv. }
    destruct (run_parked _ _ es _ Hes Hp) as [rest Hb]. fold before in Hb.
    split.
    + unfold pushed. cbn [step]. unfold handleConfigChange. cbn [state set_config].
      rewrite (bool_decide_eq_true_2 _ Hst). reflexivity.
    + unfold after. cbn [step]. rewrite Hb. cbn. auto 10.
Qed.

Lemma config_change_is_forwarded_only_when_running_witness :
  calls (step (ConfigChanged cfg0) running0) = calls running0 ++ [CallSendConfig cfg0] /\
  state (step (Settle 4 (Rejected "timeout"))
           (run [Tick 2] (step (ConfigChanged cfg0) running0))) = RUNNING.
Proof.
  assert (Hr : reachable running0) by (eexists _, _; reflexivity).
  assert (Hes : forallb (fun e => negb (settles (fresh running0) e)) [Tick 2] = true)
    by (vm_compute; reflexivity).
  assert (Hst : state running0 = RUNNING) by (vm_compute; reflexivity).
  destruct (config_change_is_forwarded_only_when_running running0 cfg0 [Tick 2] "timeout"
              Hr Hes) as [_ H].
  destruct (H Hst) as (A & B & _).
  split; [exact A|].
  vm_compute in B. vm_compute. exact B.
Defined.

(** X17.  A poll started by the interval and not answered is written to the
    console.  Whether it also moves the controller depends on the state
    at the moment the failure arrives: a controller still Running goes
    to Error, tells its state listeners and shows the reason; one that
    has left Running meanwhile (a [stop()] came in) is left alone.  The
    interval is not cleared and the snapshots are kept either way. *)
Theorem failed_poll_moves_only_a_running_controller
  (m : t) (tm : Timeout) (es : list event) (reason : string) :
  reachable m -> state m = RUNNING -> timer m = Some tm ->
  forallb (fun e => negb (settles (fresh m) e)) es = true ->
  let polling := step (Tick (handle tm)) m in
  let before := run es polling in
  let after := step (Settle (fresh m) (Rejected reason)) before in
  calls polling = calls m ++ [CallRequestUpdate] /\
  console after = console before ++ [ErrorPollFailed reason] /\
  stockData after = stockData before /\ timer after = timer before /\
  (state before = RUNNING ->
     state after = ERROR /\
     shown after = shown before ++ [ErrorUpdateFailed reason] /\
     notified after =
       notified before ++ map (fun l => ToStateListener l ERROR) (stateListeners before)) /\
  (state before <> RUNNING ->
     state after = state before /\ shown after = shown before /\
     notified after = notified before).
Proof.
  intros Hr Hst Ht Hes polling before after.
  pose proof (reachable_invariant _ Hr) as Hinv.
  assert (Hpoll : polling = performUpdate m).
  { unfold polling. cbn [step]. rewrite Ht, Nat.eqb_refl. unfold onInterval.
    rewrite (bool_decide_eq_true_2 _ Hst). reflexivity. }
  assert (Hp : parked (fresh m) PollAwaitsUpdate polling).
  { rewrite Hpoll. unfold performUpdate. eexists.
    change (awaited (await PollAwaitsUpdate ?x))
      with (awaited x ++ [(fresh x, PollAwaitsUpdate)]).
    cbn. apply take_awaited_fresh. apply Hinv. }
  destruct (run_parked _ _ es _ Hes Hp) as [rest Hb]. fold before in Hb.
  split; [rewrite Hpoll; reflexivity|].
  unfold after. cbn [step]. rewrite Hb. cbn [resume]. unfold poll_failed.
  change (state (log (ErrorPollFailed reason) (set_awaited rest before)))
    with (state before).
  destruct (decide (state before = RUNNING)) as [E|E].
  - rewrite (bool_decide_eq_true_2 _ E). cbn.
    repeat split; try reflexivity; try congruence.
  - rewrite (bool_decide_eq_false_2 _ E). cbn.
    repeat split; try reflexivity; try congruence.
Qed.

Lemma failed_poll_moves_only_a_running_controller_witness :
  state (step (Settle 4 (Rejected "timeout")) (run [Stop] (step (Tick 2) running0)))
    = STOPPING /\
  state (step (Settle 4 (Rejected "timeout")) (run [Refresh] (step (Tick 2) running0)))
    = ERROR.
Proof.
  assert (Hr : reachable running0) by (eexists _, _; reflexivity).
  assert (Hst : state running0 = RUNNING) by (vm_compute; reflexivity).
  assert (Ht : timer running0 = Some {| handle := 2; period_ms := (20 * 1000)%float |})
    by (vm_compute; reflexivity).
  assert (H1 : forallb (fun e => negb (settles (fresh running0) e)) [Stop] = true)
    by (vm_compute; reflexivity).
  assert (H2 : forallb (fun e => negb (settles (fresh running0) e)) [Refresh] = true)
    by (vm_compute; reflexivity).
  destruct (failed_poll_moves_only_a_running_controller running0 _ [Stop] "timeout"
              Hr Hst Ht H1) as (_ & _ & _ & _ & _ & A).
  destruct (failed_poll_moves_only_a_running_controller running0 _ [Refresh] "timeout"
              Hr Hst Ht H2) as (_ & _ & _ & _ & B & _).
  split.
  - assert (N : state (run [Stop] (step (Tick (handle {| handle := 2;
                 period_ms := (20 * 1000)%float |})) running0)) <> RUNNING)
      by (vm_compute; discriminate).
    destruct (A N) as (A1 & _). vm_compute in A1. vm_compute. exact A1.
  - assert (Y : state (run [Refresh] (step (Tick (handle {| handle := 2;
                 period_ms := (20 * 1000)%float |})) running0)) = RUNNING)
      by (vm_compute; reflexivity).
    destruct (B Y) as (B1 & _). vm_compute in B1. vm_compute. exact B1.
Defined.

(** ** Further properties: listeners *)

Lemma remove_first_absent l ls : ~ In l ls -> remove_first l ls = ls.
Proof.
  induction ls as [|x ls IH]; cbn; [reflexivity|]. intros H.
  destruct (Nat.eqb_spec x l) as [->|Hne].
  - destruct H. left. reflexivity.
  - rewrite IH; [reflexivity|]. intros Hin. apply H. right. exact Hin.
Qed.

Lemma remove_first_count l x ls :
  count_occ Nat.eq_dec (remove_first l ls) x =
  if Nat.eqb x l then Nat.pred (count_occ Nat.eq_dec ls x) else count_occ Nat.eq_dec ls x.
Proof.
  induction ls as [|y ls IH]; cbn [remove_first count_occ].
  - destruct (Nat.eqb x l); reflexivity.
  - destruct (Nat.eqb_spec y l) as [->|Hne].
    + destruct (Nat.eq_dec l x) as [->|Hlx].
      * rewrite Nat.eqb_refl. reflexivity.
      * destruct (Nat.eqb_spec x l); [congruence|reflexivity].
    + cbn [count_occ]. destruct (Nat.eq_dec y x) as [->|Hyx].
      * rewrite IH. destruct (Nat.eqb_spec x l); [congruence|reflexivity].
      * exact IH.
Qed.

Lemma remove_first_others l ls :
  List.filter (fun x => negb (Nat.eqb x l)) (remove_first l ls) =
  List.filter (fun x => negb (Nat.eqb x l)) ls.
Proof.
  induction ls as [|y ls IH]; cbn [remove_first List.filter]; [reflexivity|].
  destruct (Nat.eqb y l) eqn:E; cbn [negb List.filter].
  - reflexivity.
  - rewrite E. cbn [negb]. rewrite IH. reflexivity.
Qed.

Lemma remove_first_oldest l before after :
  ~ In l before -> remove_first l (before ++ l :: after) = before ++ after.
Proof.
  induction before as [|x before IH]; cbn [app remove_first]; intros H.
  - rewrite Nat.eqb_refl. reflexivity.
  - destruct (Nat.eqb_spec x l) as [->|Hne].
    + destruct H. left. reflexivity.
    + rewrite IH; [reflexivity|]. intros Hin. apply H. right. exact Hin.
Qed.

(** X20.  [removeUpdateListener] and [removeStateListener] take away exactly
    one registration of the listener, the oldest: the list is what it
    was with the first occurrence of the listener cut out, every other
    entry staying in its place.  For a listener that is not registered
    they change nothing, and they never touch anything but their list.
    A listener registered twice is therefore still called once per
    notification after one removal. *)
Theorem removing_a_listener_removes_one_registration (l : nat) (m : t) :
  let u := step (RemoveUpdateListener l) m in
  let s := step (RemoveStateListener l) m in
  (forall before after,
     updateListeners m = before ++ l :: after -> ~ In l before ->
     updateListeners u = before ++ after) /\
  (forall before after,
     stateListeners m = before ++ l :: after -> ~ In l before ->
     stateListeners s = before ++ after) /\
  count_occ Nat.eq_dec (updateListeners u) l
    = Nat.pred (count_occ Nat.eq_dec (updateListeners m) l) /\
  count_occ Nat.eq_dec (stateListeners s) l
    = Nat.pred (count_occ Nat.eq_dec (stateListeners m) l) /\
  List.filter (fun x => negb (Nat.eqb x l)) (updateListeners u)
    = List.filter (fun x => negb (Nat.eqb x l)) (updateListeners m) /\
  List.filter (fun x => negb (Nat.eqb x l)) (stateListeners s)
    = List.filter (fun x => negb (Nat.eqb x l)) (stateListeners m) /\
  (~ In l (updateListeners m) -> u = m) /\
  (~ In l (stateListeners m) -> s = m) /\
  u = set_updateListeners (updateListeners u) m /\
  s = set_stateListeners (stateListeners s) m.
Proof.
  cbn [step]. unfold removeUpdateListener, removeStateListener.
  cbn [updateListeners stateListeners set_updateListeners set_stateListeners].
  rewrite !remove_first_count, Nat.eqb_refl, !remove_first_others.
  repeat split.
  - intros before after -> H. apply remove_first_oldest, H.
  - intros before after -> H. apply remove_first_oldest, H.
  - intros H. rewrite (remove_first_absent _ _ H). destruct m; reflexivity.
  - intros H. rewrite (remove_first_absent _ _ H). destruct m; reflexivity.
Qed.

Lemma removing_a_listener_removes_one_registration_witness :
  updateListeners
    (step (RemoveUpdateListener 8)
       (run [AddUpdateListener 9; AddUpdateListener 8] running0)) = [9; 8] /\
  step (RemoveStateListener 8) running0 = running0.
Proof.
  destruct (removing_a_listener_removes_one_registration 8
              (run [AddUpdateListener 9; AddUpdateListener 8] running0))
    as (A & _).
  destruct (removing_a_listener_removes_one_registration 8 running0)
    as (_ & _ & _ & _ & _ & _ & _ & B & _).
  split.
  - apply (A [] [9; 8]); [vm_compute; reflexivity | intros []].
  - apply B. vm_compute. intros [H|[]]. discriminate H.
Defined.

Lemma heard_notify_states l s ls m :
  heard l (notify (map (fun x => ToStateListener x s) ls) m) =
  heard l m ++ repeat s (count_occ Nat.eq_dec ls l).
Proof.
  unfold heard. cbn [notified notify]. rewrite flat_map_app. f_equal.
  induction ls as [|x ls IH]; cbn [map flat_map count_occ]; [reflexivity|].
  destruct (Nat.eq_dec x l) as [->|Hne].
  - rewrite Nat.eqb_refl. cbn. f_equal. exact IH.
  - destruct (Nat.eqb_spec x l); [congruence|]. exact IH.
Qed.

Lemma heard_notify_updates l d ls m :
  heard l (notify (map (fun x => ToUpdateListener x d) ls) m) = heard l m.
Proof.
  unfold heard. cbn [notified notify]. rewrite flat_map_app.
  rewrite <- (app_nil_r (flat_map _ (notified m))) at 2. f_equal.
  induction ls as [|x ls IH]; cbn [map flat_map]; [reflexivity|]. exact IH.
Qed.

Lemma follows_refl l m : In l (stateListeners m) -> follows l m m.
Proof. intros H. split; [exact H|]. exists []. rewrite app_nil_r. auto. Qed.

Lemma follows_quiet l m x y :
  state y = state x -> heard l y = heard l x ->
  (In l (stateListeners x) -> In l (stateListeners y)) ->
  follows l m x -> follows l m y.
Proof.
  intros Hs Hh Hl (Hin & hs & H1 & H2). split; [auto|].
  exists hs. rewrite Hs, Hh. auto.
Qed.

Lemma last_snoc_repeat {A} (s d : A) n hs :
  0 < n -> List.last (hs ++ repeat s n) d = s.
Proof.
  intros Hn. destruct n as [|n]; [lia|].
  replace (repeat s (S n)) with (repeat s n ++ [s]).
  - rewrite app_assoc. apply last_last.
  - clear. induction n as [|n IH]; [reflexivity|]. cbn. f_equal. exact IH.
Qed.

Lemma follows_setState l m s x : follows l m x -> follows l m (setState s x).
Proof.
  intros (Hin & hs & H1 & H2). split; [exact Hin|].
  unfold setState, notifyStateListeners.
  rewrite heard_notify_states.
  change (heard l (set_state s x)) with (heard l x).
  change (stateListeners (set_state s x)) with (stateListeners x).
  change (state (set_state s x)) with s.
  exists (hs ++ repeat s (count_occ Nat.eq_dec (stateListeners x) l)).
  rewrite H1, app_assoc. split; [reflexivity|].
  change (state (notify _ (set_state s x))) with s.
  apply last_snoc_repeat. apply count_occ_In. exact Hin.
Qed.

Lemma follows_show l m n x : follows l m x -> follows l m (show n x).
Proof. apply follows_quiet; auto. Qed.
Lemma follows_log l m n x : follows l m x -> follows l m (log n x).
Proof. apply follows_quiet; auto. Qed.
Lemma follows_call l m n x : follows l m x -> follows l m (call n x).
Proof. apply follows_quiet; auto. Qed.
Lemma follows_await l m k x : follows l m x -> follows l m (await k x).
Proof. apply follows_quiet; auto. Qed.
Lemma follows_set_config l m c x : follows l m x -> follows l m (set_config c x).
Proof. apply follows_quiet; auto. Qed.
Lemma follows_set_awaited l m c x : follows l m x -> follows l m (set_awaited c x).
Proof. apply follows_quiet; auto. Qed.
Lemma follows_stopUpdateTimer l m x : follows l m x -> follows l m (stopUpdateTimer x).
Proof. apply follows_quiet; unfold stopUpdateTimer; destruct (timer x); auto. Qed.
Lemma follows_handleStockData l m d x :
  follows l m x -> follows l m (handleStockData d x).
Proof.
  apply follows_quiet; unfold handleStockData; destruct (negb (isArray d)); auto.
  all: destruct (throws d); auto.
  unfold notifyUpdateListeners. rewrite heard_notify_updates. reflexivity.
Qed.
Lemma follows_startUpdateTimer l m x :
  follows l m x -> follows l m (startUpdateTimer x).
Proof.
  intros H. unfold startUpdateTimer, performUpdate.
  apply follows_await, follows_call.
  apply follows_stopUpdateTimer in H. revert H. apply follows_quiet; auto.
Qed.

Ltac track H :=
  lazymatch goal with
  | |- follows _ _ (await _ _) => apply follows_await; track H
  | |- follows _ _ (show _ _) => apply follows_show; track H
  | |- follows _ _ (log _ _) => apply follows_log; track H
  | |- follows _ _ (call _ _) => apply follows_call; track H
  | |- follows _ _ (setState _ _) => apply follows_setState; track H
  | |- follows _ _ (set_config _ _) => apply follows_set_config; track H
  | |- follows _ _ (set_awaited _ _) => apply follows_set_awaited; track H
  | |- follows _ _ (stopUpdateTimer _) => apply follows_stopUpdateTimer; track H
  | |- follows _ _ (handleStockData _ _) => apply follows_handleStockData; track H
  | |- follows _ _ (startUpdateTimer _) => apply follows_startUpdateTimer; track H
  | |- follows _ _ (start_failed _ _) => unfold start_failed; track H
  | |- follows _ _ (performUpdate _) => unfold performUpdate; track H
  | |- _ => exact H
  end.

Lemma step_follows l e m :
  unregisters l e = false -> In l (stateListeners m) -> follows l m (step e m).
Proof.
  intros Hu Hin. pose proof (follows_refl l m Hin) as H0.
  destruct e as [ | | | |h|cfg|data|p r|l0|l0|l0|l0]; cbn [step].
  - unfold start. destruct (negb _); track H0.
  - unfold stop. destruct (negb _); track H0.
  - unfold refresh. destruct (negb _); track H0.
  - discriminate.
  - destruct (timer m) as [tm|]; [|exact H0].
    destruct (Nat.eqb _ _); [|exact H0].
    unfold onInterval. destruct (bool_decide _); track H0.
  - unfold handleConfigChange. destruct (bool_decide _); track H0.
  - track H0.
  - destruct (take_awaited p (awaited m)) as [[k rest]|]; [|exact H0].
    destruct k, r; cbn [resume].
    all: try (destruct (negb (truthy v))).
    all: try (destruct (throws v)).
    all: unfold poll_failed.
    all: try (destruct (bool_decide _)).
    all: track H0.
  - revert H0. apply follows_quiet; auto.
  - revert H0. apply follows_quiet; auto.
  - revert H0. apply follows_quiet; auto.
    cbn. intros H. apply in_or_app. left. exact H.
  - revert H0. apply follows_quiet; auto.
    cbn in Hu. cbn. clear -Hu. apply Nat.eqb_neq in Hu.
    induction (stateListeners m) as [|x ls IH]; cbn; [trivial|].
    intros [->|H].
    + destruct (Nat.eqb_spec l l0); [congruence|]. left. reflexivity.
    + destruct (Nat.eqb x l0); [exact H|]. right. apply IH, H.
Qed.

Lemma follows_trans l a b c : follows l a b -> follows l b c -> follows l a c.
Proof.
  intros (_ & hs1 & H1 & H2) (Hin & hs2 & H3 & H4). split; [exact Hin|].
  exists (hs1 ++ hs2). rewrite H3, H1, app_assoc. split; [reflexivity|].
  rewrite <- H4, <- H2. clear.
  induction hs2 as [|x hs2 IH] using rev_ind.
  - rewrite app_nil_r. reflexivity.
  - rewrite app_assoc, !last_last. reflexivity.
Qed.

(** X19.  A registered state listener is never out of date.  For as long as
    it is not removed (and [dispose()] is not called), the last state it
    has been told is the state the controller is in; if it has been
    told nothing since some moment, the state has not changed since
    then. *)
Theorem state_listener_is_never_out_of_date (l : nat) (m : t) (es : list event) :
  In l (stateListeners m) ->
  forallb (fun e => negb (unregisters l e)) es = true ->
  exists hs, heard l (run es m) = heard l m ++ hs /\
             List.last hs (state m) = state (run es m).
Proof.
  intros Hin Hes.
  cut (follows l m (run es m)); [intros H; apply H|].
  revert m Hin Hes. induction es as [|e es IH]; intros m Hin Hes; cbn [run fold_left].
  - apply follows_refl, Hin.
  - cbn in Hes. apply andb_prop in Hes as [He Hes].
    assert (Hu : unregisters l e = false)
      by (destruct (unregisters l e); [discriminate|reflexivity]).
    pose proof (step_follows l e m Hu Hin) as H1.
    eapply follows_trans; [exact H1|]. apply IH; [apply H1 | exact Hes].
Qed.

Lemma state_listener_is_never_out_of_date_witness :
  exists hs,
    heard 7 (run [Tick 2; Stop; Settle 4 (Rejected "timeout"); Settle 5 (Fulfilled Undefined)]
               running0)
      = heard 7 running0 ++ hs /\
    List.last hs (state running0)
      = state (run [Tick 2; Stop; Settle 4 (Rejected "timeout");
                    Settle 5 (Fulfilled Undefined)] running0).
Proof.
  apply (state_listener_is_never_out_of_date 7 running0).
  - vm_compute. left. reflexivity.
  - vm_compute. reflexivity.
Defined.

(** ** Further properties: the aggregator *)

Lemma merge_snoc l s sd : merge (l ++ [s]) sd = JsMap.set (code s) s (merge l sd).
Proof. unfold merge. rewrite fold_left_app. reflexivity. Qed.

Lemma merge_app l1 l2 sd : merge (l1 ++ l2) sd = merge l2 (merge l1 sd).
Proof. unfold merge. apply fold_left_app. Qed.

(** Of the snapshots of one array that carry the same code, the last
    one is the one that stays. *)
Lemma merge_get l sd k :
  JsMap.get k (merge l sd) =
  match List.find (fun s => String.eqb (code s) k) (rev l) with
  | Some s => Some s
  | None => JsMap.get k sd
  end.
Proof.
  induction l as [|s l IH] using rev_ind; [reflexivity|].
  rewrite merge_snoc, rev_unit. cbn [List.find].
  destruct (String.eqb_spec (code s) k) as [<-|Hne].
  - apply JsMap_get_set_same.
  - rewrite JsMap_get_set_other by congruence. exact IH.
Qed.

Lemma JsMap_get_absent {V} (k : string) (m : list (string * V)) :
  ~ In k (JsMap.keys m) -> JsMap.get k m = None.
Proof.
  induction m as [|[k0 v0] m IH]; cbn; [reflexivity|]. intros H.
  destruct (String.eqb_spec k0 k) as [->|Hne].
  - destruct H. left. reflexivity.
  - apply IH. intros Hin. apply H. right. exact Hin.
Qed.

(** Two maps with the same keys in the same order, none of them twice,
    and the same value under each key are the same map. *)
Lemma JsMap_ext {V} (a b : list (string * V)) :
  JsMap.keys a = JsMap.keys b -> List.NoDup (JsMap.keys a) ->
  (forall k, JsMap.get k a = JsMap.get k b) -> a = b.
Proof.
  revert b. induction a as [|[k v] a IH]; intros [|[k' v'] b] Hk Hnd Hg;
    cbn in Hk; try discriminate; [reflexivity|].
  injection Hk as <- Hk. inversion Hnd as [|? ? Hnotin Hnd']; subst.
  pose proof (Hg k) as Hgk. cbn in Hgk. rewrite String.eqb_refl in Hgk.
  injection Hgk as <-. f_equal. apply IH; [exact Hk | exact Hnd' |].
  intros k0. destruct (String.eqb_spec k k0) as [<-|Hne].
  - rewrite !JsMap_get_absent; [reflexivity | | exact Hnotin].
    unfold JsMap.keys in *. rewrite <- Hk. exact Hnotin.
  - specialize (Hg k0). cbn in Hg.
    destruct (String.eqb_spec k k0); [congruence | exact Hg].
Qed.

Lemma merge_NoDup l sd :
  List.NoDup (JsMap.keys sd) -> List.NoDup (JsMap.keys (merge l sd)).
Proof.
  revert sd. induction l as [|s l IH]; intros sd H; cbn; [exact H|].
  apply IH, JsMap_set_NoDup, H.
Qed.

Lemma JsMap_set_coded s (sd : list (string * StockData)) :
  List.Forall (fun kv => code (snd kv) = fst kv) sd ->
  List.Forall (fun kv => code (snd kv) = fst kv) (JsMap.set (code s) s sd).
Proof.
  induction sd as [|[k v] sd IH]; intros H; cbn.
  - constructor; [reflexivity | constructor].
  - inversion H; subst. destruct (String.eqb k (code s)).
    + constructor; [reflexivity | assumption].
    + constructor; [assumption | apply IH; assumption].
Qed.

Lemma merge_coded l sd :
  List.Forall (fun kv => code (snd kv) = fst kv) sd ->
  List.Forall (fun kv => code (snd kv) = fst kv) (merge l sd).
Proof.
  revert sd. induction l as [|s l IH]; intros sd H; cbn; [exact H|].
  apply IH, JsMap_set_coded, H.
Qed.

Lemma merge_keys_has l sd s : In s l -> In (code s) (JsMap.keys (merge l sd)).
Proof.
  revert sd. induction l as [|s0 l IH]; intros sd Hin; [destruct Hin|].
  destruct Hin as [<-|Hin]; cbn.
  - apply merge_keys_incl. rewrite JsMap_keys_set.
    destruct (existsb _ _) eqn:E.
    + apply existsb_exists in E as (x & Hx & Ex).
      apply String.eqb_eq in Ex. subst. exact Hx.
    + apply in_or_app. right. left. reflexivity.
  - apply IH, Hin.
Qed.

Lemma merge_keys_known l sd :
  (forall s, In s l -> In (code s) (JsMap.keys sd)) ->
  JsMap.keys (merge l sd) = JsMap.keys sd.
Proof.
  revert sd. induction l as [|s l IH]; intros sd H; [reflexivity|].
  change (merge (s :: l) sd) with (merge l (JsMap.set (code s) s sd)).
  assert (Hk : JsMap.keys (JsMap.set (code s) s sd) = JsMap.keys sd).
  { rewrite JsMap_keys_set.
    assert (E : existsb (String.eqb (code s)) (JsMap.keys sd) = true).
    { apply existsb_exists. exists (code s). split; [|apply String.eqb_refl].
      apply H. left. reflexivity. }
    rewrite E. reflexivity. }
  rewrite IH; [exact Hk|].
  intros s' Hs'. rewrite Hk. apply H. right. exact Hs'.
Qed.

Lemma merge_keys_grow l sd :
  exists new, JsMap.keys (merge l sd) = JsMap.keys sd ++ new /\
    forall c, In c new -> In c (map code l) /\ ~ In c (JsMap.keys sd).
Proof.
  induction l as [|s l (new & Hk & Hnew)] using rev_ind.
  - exists []. rewrite app_nil_r. split; [reflexivity | intros c []].
  - rewrite merge_snoc, JsMap_keys_set.
    destruct (existsb _ _) eqn:E.
    + exists new. split; [exact Hk|]. intros c Hc.
      destruct (Hnew c Hc) as [H1 H2]. split; [|exact H2].
      rewrite map_app. apply in_or_app. left. exact H1.
    + exists (new ++ [code s]). rewrite Hk, app_assoc. split; [reflexivity|].
      intros c Hc. apply in_app_or in Hc as [Hc|[<-|[]]].
      * destruct (Hnew c Hc) as [H1 H2]. split; [|exact H2].
        rewrite map_app. apply in_or_app. left. exact H1.
      * split; [rewrite map_app; apply in_or_app; right; left; reflexivity|].
        intros Hin.
        assert (existsb (String.eqb (code s)) (JsMap.keys (merge l sd)) = true);
          [|congruence].
        apply existsb_exists. exists (code s). split; [|apply String.eqb_refl].
        rewrite Hk. apply in_or_app. left. exact Hin.
Qed.

Arguments handleStockData : simpl never.

(** What [handleStockData] can do to the snapshots and to the summary:
    nothing; merge an array and recompute; or, when the array has a
    [null] element, merge what comes before it and leave the summary. *)
Lemma handleStockData_data d m :
  (stockData (handleStockData d m) = stockData m /\
   summaryData (handleStockData d m) = summaryData m) \/
  (throws d = false /\
   exists l, stockData (handleStockData d m) = merge l (stockData m) /\
     summaryData (handleStockData d m)
       = Some (summarize (JsMap.values (merge l (stockData m))))) \/
  (throws d = true /\
   exists l, stockData (handleStockData d m) = merge l (stockData m) /\
     summaryData (handleStockData d m) = summaryData m).
Proof.
  unfold handleStockData. destruct d; cbn; auto.
  - right. left. split; [reflexivity|]. exists l. auto.
  - right. right. split; [reflexivity|]. exists before. auto.
Qed.

Lemma handleStockData_stockData l m :
  stockData (handleStockData (StockArray l) m) = merge l (stockData m).
Proof. reflexivity. Qed.

Lemma stopUpdateTimer_stockData m : stockData (stopUpdateTimer m) = stockData m.
Proof. unfold stopUpdateTimer. destruct (timer m); reflexivity. Qed.
Lemma stopUpdateTimer_summaryData m : summaryData (stopUpdateTimer m) = summaryData m.
Proof. unfold stopUpdateTimer. destruct (timer m); reflexivity. Qed.

Lemma poll_failed_data reason m :
  stockData (poll_failed reason m) = stockData m /\
  summaryData (poll_failed reason m) = summaryData m.
Proof. unfold poll_failed. destruct (bool_decide _); cbn; auto. Qed.

(** What an event can do to the snapshots and to the summary: nothing;
    merge an array and recompute; for [dispose], empty the map and
    leave the summary; for an array with a [null] element, merge a part
    and leave the summary. *)
Lemma step_data e m :
  (stockData (step e m) = stockData m /\ summaryData (step e m) = summaryData m) \/
  (exists l, stockData (step e m) = merge l (stockData m) /\
     summaryData (step e m) = Some (summarize (JsMap.values (merge l (stockData m))))) \/
  (is_dispose e = true /\ stockData (step e m) = [] /\
   summaryData (step e m) = summaryData m) \/
  (carries_nullish e = true /\
   exists l, stockData (step e m) = merge l (stockData m) /\
     summaryData (step e m) = summaryData m).
Proof.
  destruct e as [ | | | |h|cfg|data|p r|l|l|l|l]; cbn [step is_dispose carries_nullish].
  - left. unfold start. destruct (negb _); cbn; auto.
  - left. unfold stop. destruct (negb _); cbn;
      rewrite ?stopUpdateTimer_stockData, ?stopUpdateTimer_summaryData; auto.
  - left. unfold refresh. destruct (negb _); cbn; auto.
  - right. right. left. unfold dispose. cbn. rewrite stopUpdateTimer_summaryData. auto.
  - left. destruct (timer m) as [tm|]; [|auto].
    destruct (Nat.eqb _ _); [|auto].
    unfold onInterval. destruct (bool_decide _); cbn; auto.
  - left. unfold handleConfigChange. destruct (bool_decide _); cbn; auto.
  - destruct (handleStockData_data data m) as [H|[[_ H]|[Ht H]]]; auto 6.
  - destruct (take_awaited p (awaited m)) as [[k rest]|]; [|auto].
    destruct k, r; cbn [resume].
    all: try (destruct (negb (truthy v))).
    all: try (left; destruct (poll_failed_data reason (set_awaited rest m)) as [-> ->];
              split; reflexivity).
    all: try (left; cbn;
              rewrite ?stopUpdateTimer_stockData, ?stopUpdateTimer_summaryData;
              split; reflexivity).
    all: match goal with
         | |- context [stockData ?x] =>
             replace (stockData x) with (stockData (handleStockData v (set_awaited rest m)))
               by (destruct (throws v); cbn [stockData show];
                   rewrite ?(proj1 (poll_failed_data _ _)); reflexivity);
             replace (summaryData x)
               with (summaryData (handleStockData v (set_awaited rest m)))
               by (destruct (throws v); cbn [summaryData show];
                   rewrite ?(proj2 (poll_failed_data _ _)); reflexivity)
         end.
    all: destruct (handleStockData_data v (set_awaited rest m)) as [H|[[Ht H]|[Ht H]]];
      [left; exact H | right; left; exact H
      | right; right; right; split; [exact Ht | exact H]].
  - auto.
  - auto.
  - auto.
  - auto.
Qed.

Lemma reachable_keyed m :
  reachable m ->
  List.NoDup (JsMap.keys (stockData m)) /\
  List.Forall (fun kv => code (snd kv) = fst kv) (stockData m).
Proof.
  intros (cfg & es & ->).
  induction es as [|e es [IH1 IH2]] using rev_ind.
  - split; constructor.
  - rewrite run_app. set (m := run es (init cfg)) in *.
    change (run [e] m) with (step e m).
    destruct (step_data e m) as [[-> _]|[(l & -> & _)|[(_ & -> & _)|(_ & l & -> & _)]]].
    + auto.
    + split; [apply merge_NoDup | apply merge_coded]; assumption.
    + split; constructor.
    + split; [apply merge_NoDup | apply merge_coded]; assumption.
Qed.

Lemma coded_keys (sd : list (string * StockData)) :
  List.Forall (fun kv => code (snd kv) = fst kv) sd ->
  map code (JsMap.values sd) = JsMap.keys sd.
Proof.
  induction 1 as [|[k v] sd H _ IH]; cbn; [reflexivity|].
  cbn in H. rewrite H. f_equal. exact IH.
Qed.

Lemma JsMap_In_get {V} (k : string) (v : V) (m : list (string * V)) :
  List.NoDup (JsMap.keys m) -> In (k, v) m -> JsMap.get k m = Some v.
Proof.
  induction m as [|[k0 v0] m IH]; cbn; [intros _ []|].
  intros Hnd [Heq|Hin]; inversion Hnd as [|? ? Hnotin Hnd']; subst.
  - injection Heq as -> ->. rewrite String.eqb_refl. reflexivity.
  - destruct (String.eqb_spec k0 k) as [->|Hne]; [|apply IH; assumption].
    destruct Hnotin. apply in_map_iff. exists (k, v). auto.
Qed.

Lemma JsMap_get_pair {V} (k : string) (v : V) (m : list (string * V)) :
  JsMap.get k m = Some v -> In (k, v) m.
Proof.
  induction m as [|[k0 v0] m IH]; cbn; [discriminate|].
  destruct (String.eqb_spec k0 k) as [->|Hne]; intros H.
  - left. congruence.
  - right. apply IH, H.
Qed.

(** X21.  The snapshot map is keyed by code.  In every reachable controller no
    two stored snapshots have the same code, looking up the code of a
    stored snapshot gives that snapshot, and a snapshot found under a
    code carries that code. *)
Theorem snapshots_are_keyed_by_code (m : t) :
  reachable m ->
  List.NoDup (map code (getStockData m)) /\
  (forall s, In s (getStockData m) -> getStock (code s) m = Some s) /\
  (forall c s, getStock c m = Some s -> code s = c).
Proof.
  intros Hr. destruct (reachable_keyed m Hr) as [Hnd Hc].
  unfold getStockData, getStock. rewrite (coded_keys _ Hc).
  split; [exact Hnd|]. split.
  - intros s Hs. unfold JsMap.values in Hs.
    apply in_map_iff in Hs as ([k v] & <- & Hin).
    rewrite List.Forall_forall in Hc. pose proof (Hc _ Hin) as Hkv.
    cbn in Hkv |- *. rewrite Hkv. apply JsMap_In_get; assumption.
  - intros c s Hg. apply JsMap_get_pair in Hg.
    rewrite List.Forall_forall in Hc. apply (Hc _ Hg).
Qed.

Lemma snapshots_are_keyed_by_code_witness :
  List.NoDup (map code (getStockData
    (run [StockDataPush (StockArray [stockA; stockB; stockA])] running0))).
Proof.
  apply (snapshots_are_keyed_by_code
           (run [StockDataPush (StockArray [stockA; stockB; stockA])] running0)).
  apply reachable_run. eexists _, _; reflexivity.
Defined.

(** X22.  Looking a code up after an array has been merged gives the last
    snapshot of the array that carries the code, and what was stored
    before when the array has none. *)
Theorem merged_snapshot_is_the_last_with_its_code
  (l : list StockData) (c : string) (m : t) :
  getStock c (step (StockDataPush (StockArray l)) m) =
  match List.find (fun s => String.eqb (code s) c) (rev l) with
  | Some s => Some s
  | None => getStock c m
  end.
Proof. cbn [step]. unfold getStock. rewrite handleStockData_array. cbn. apply merge_get. Qed.

(** Merging two arrays one after the other stores the same snapshots
    and gives the same summary as merging their concatenation; only the
    listeners can tell the difference, being called twice. *)
Lemma two_pushes_are_one (l1 l2 : list StockData) (m : t) :
  let twice := run [StockDataPush (StockArray l1); StockDataPush (StockArray l2)] m in
  let once := step (StockDataPush (StockArray (l1 ++ l2))) m in
  stockData twice = stockData once /\ getSummary twice = getSummary once /\
  state twice = state once /\ timer twice = timer once.
Proof.
  cbn [run fold_left step]. rewrite !handleStockData_array. cbn.
  rewrite merge_app. auto.
Qed.

(** X23.  Receiving the same array a second time changes neither the stored
    snapshots, nor their order, nor the summary. *)
Theorem repeated_push_changes_nothing (l : list StockData) (m : t) :
  reachable m ->
  let once := step (StockDataPush (StockArray l)) m in
  let twice := step (StockDataPush (StockArray l)) once in
  stockData twice = stockData once /\ getSummary twice = getSummary once.
Proof.
  intros Hr once twice.
  destruct (reachable_keyed m Hr) as [Hnd _].
  assert (H : merge l (merge l (stockData m)) = merge l (stockData m)).
  { apply JsMap_ext.
    - apply merge_keys_known. intros s Hs. apply merge_keys_has, Hs.
    - apply merge_NoDup, merge_NoDup, Hnd.
    - intros k. rewrite (merge_get l (merge l (stockData m))).
      rewrite (merge_get l (stockData m)).
      destruct (List.find _ _); reflexivity. }
  unfold twice, once. cbn [step]. rewrite !handleStockData_array. cbn.
  rewrite H. auto.
Qed.

Lemma repeated_push_changes_nothing_witness :
  stockData (run [StockDataPush (StockArray [stockA; stockB; stockA]);
                  StockDataPush (StockArray [stockA; stockB; stockA])] running0)
  = stockData (run [StockDataPush (StockArray [stockA; stockB; stockA])] running0).
Proof.
  apply (repeated_push_changes_nothing [stockA; stockB; stockA] running0).
  eexists _, _; reflexivity.
Defined.

(** X24.  The order of the list handed to the views is stable: merging an
    array leaves every known stock at its position and appends the
    stocks seen for the first time. *)
Theorem known_stocks_keep_their_place (l : list StockData) (m : t) :
  reachable m ->
  exists new,
    map code (getStockData (step (StockDataPush (StockArray l)) m))
      = map code (getStockData m) ++ new /\
    forall c, In c new -> In c (map code l) /\ ~ In c (map code (getStockData m)).
Proof.
  intros Hr. destruct (reachable_keyed m Hr) as [_ Hc].
  destruct (merge_keys_grow l (stockData m)) as (new & Hk & Hnew).
  exists new. unfold getStockData. cbn [step]. rewrite handleStockData_stockData.
  rewrite (coded_keys _ (merge_coded l _ Hc)), (coded_keys _ Hc). auto.
Qed.

Lemma known_stocks_keep_their_place_witness :
  exists new,
    map code (getStockData (step (StockDataPush (StockArray [stockB; stockC]))
                (step (StockDataPush (StockArray [stockA; stockB])) running0)))
      = map code (getStockData (step (StockDataPush (StockArray [stockA; stockB])) running0))
        ++ new /\
    forall c, In c new ->
      In c (map code [stockB; stockC]) /\
      ~ In c (map code (getStockData
                (step (StockDataPush (StockArray [stockA; stockB])) running0))).
Proof.
  apply (known_stocks_keep_their_place [stockB; stockC]
           (step (StockDataPush (StockArray [stockA; stockB])) running0)).
  apply reachable_step. eexists _, _; reflexivity.
Defined.

(** X25.  The summary is never behind the data, with one exception.  As long
    as [dispose()] has not been called and no array with a [null] or
    [undefined] element has arrived, the summary is the one computed
    from the snapshots now stored, and there is no summary only while
    there are no snapshots.  The exception: of an array with such an
    element the snapshots in front of the element are stored, and then
    the summary is not recomputed and no listener is told. *)
Theorem summary_is_up_to_date
    (cfg : PluginConfig) (es : list event) (before : list StockData) :
  forallb (fun e => negb (is_dispose e) && negb (carries_nullish e)) es = true ->
  let m := run es (init cfg) in
  let m' := step (StockDataPush (NullishArray before)) m in
  match getSummary m with
  | Some s => s = summarize (getStockData m)
  | None => getStockData m = []
  end /\
  stockData m' = merge before (stockData m) /\
  getSummary m' = getSummary m /\ notified m' = notified m.
Proof.
  intros Hes m m'. split; [|repeat split]. unfold m. clear m m'.
  unfold getSummary, getStockData.
  induction es as [|e es IH] using rev_ind; [reflexivity|].
  rewrite forallb_app in Hes. apply andb_prop in Hes as [Hes He].
  cbn in He. rewrite andb_true_r in He. apply andb_prop in He as [Hd Hn].
  specialize (IH Hes). rewrite run_app. set (m := run es (init cfg)) in *.
  change (run [e] m) with (step e m).
  destruct (step_data e m) as [[-> ->]|[(l & -> & ->)|[(Hd' & _)|(Hn' & _)]]].
  - exact IH.
  - reflexivity.
  - rewrite Hd' in Hd. discriminate.
  - rewrite Hn' in Hn. discriminate.
Qed.

Lemma summary_is_up_to_date_witness :
  getSummary (run [Start; StockDataPush (StockArray [stockA; stockC]); Stop] (init cfg0))
  = Some (summarize [stockA; stockC]) /\
  getStockData (run [Start; StockDataPush (StockArray [stockA; stockC]); Stop;
                     StockDataPush (NullishArray [stockB])] (init cfg0))
  = [stockA; stockC; stockB] /\
  getSummary (run [Start; StockDataPush (StockArray [stockA; stockC]); Stop;
                   StockDataPush (NullishArray [stockB])] (init cfg0))
  = Some (summarize [stockA; stockC]).
Proof.
  pose proof (summary_is_up_to_date cfg0
                [Start; StockDataPush (StockArray [stockA; stockC]); Stop] [stockB]
                eq_refl) as H.
  vm_compute in H. vm_compute. destruct H as (A & B & C & _).
  repeat split; first [exact C | congruence].
Defined.

(** X26.  [dispose()] cancels nothing that is under way.  It disarms the
    interval, forgets the listeners and empties the snapshot map, but
    leaves the state and the summary as they were, and a poll that is
    outstanding still delivers: its array is merged into the emptied
    map, with no listener left to be told. *)
Theorem dispose_does_not_cancel_a_poll
  (m : t) (p : nat) (l : list StockData) :
  parked p PollAwaitsUpdate m ->
  let disposed := step Dispose m in
  let late := step (Settle p (Fulfilled (StockArray l))) disposed in
  state disposed = state m /\ getSummary disposed = getSummary m /\
  getStockData disposed = [] /\ timer disposed = None /\
  parked p PollAwaitsUpdate disposed /\
  stockData late = merge l [] /\
  getSummary late = Some (summarize (JsMap.values (merge l []))) /\
  notified late = notified disposed.
Proof.
  intros Hp disposed late.
  assert (Hd : parked p PollAwaitsUpdate disposed) by (apply parked_dispose, Hp).
  unfold late. cbn [step]. destruct Hd as [rest Hd]. rewrite Hd. cbn [resume].
  rewrite handleStockData_array.
  unfold disposed. cbn [step]. unfold dispose. cbn.
  rewrite stopUpdateTimer_state, stopUpdateTimer_summaryData, stopUpdateTimer_timer.
  rewrite app_nil_r.
  repeat split; try reflexivity.
  exists rest. exact Hd.
Qed.

Lemma dispose_does_not_cancel_a_poll_witness :
  state (step Dispose running0) = RUNNING /\
  getStockData (step (Settle 3 (Fulfilled (StockArray [stockA]))) (step Dispose running0))
    = [stockA].
Proof.
  assert (Hp : parked 3 PollAwaitsUpdate running0) by (eexists; vm_compute; reflexivity).
  destruct (dispose_does_not_cancel_a_poll running0 3 [stockA] Hp)
    as (A & _ & _ & _ & _ & B & _).
  split.
  - rewrite A. vm_compute. reflexivity.
  - unfold getStockData. rewrite B. reflexivity.
Defined.

(** ** Further properties: the interval *)

Lemma running_step e m :
  invariant m -> state m = RUNNING \/ state m = ERROR -> halts e = false ->
  (state (step e m) = RUNNING \/ state (step e m) = ERROR) /\
  timer (step e m) = timer m.
Proof.
  intros Hinv Hst He. pose proof Hinv as [Is Ip It If].
  assert (Hn1 : state m <> STOPPED) by (destruct Hst; congruence).
  assert (Hn2 : state m <> STARTING) by (destruct Hst; congruence).
  assert (Hn3 : state m <> STOPPING) by (destruct Hst; congruence).
  destruct e as [ | | | |h|cfg|data|p r|l|l|l|l]; cbn [step]; try discriminate He.
  - unfold start. rewrite bool_decide_eq_false_2 by exact Hn1. auto.
  - unfold refresh. destruct (negb _); cbn; auto.
  - destruct (timer m) as [tm|] eqn:Et; [|auto].
    destruct (Nat.eqb (handle tm) h); [|auto].
    unfold onInterval. destruct (bool_decide (state m = RUNNING)); cbn; auto.
  - unfold handleConfigChange. cbn [state set_config].
    destruct (bool_decide (state m = RUNNING)); cbn; auto.
  - autorewrite with frames. auto.
  - destruct (take_awaited p (awaited m)) as [[k rest]|] eqn:E; [|auto].
    pose proof (take_awaited_count is_start _ _ _ _ E) as Cs.
    pose proof (take_awaited_count is_pause _ _ _ _ E) as Cp.
    unfold pending in Is, Ip. rewrite Cs in Is. rewrite Cp in Ip.
    rewrite bool_decide_eq_false_2 in Is by exact Hn2.
    rewrite bool_decide_eq_false_2 in Ip by exact Hn3.
    destruct k; cbn [is_start is_pause] in Is, Ip; try lia.
    all: destruct r; cbn [resume].
    all: try (destruct (throws v)).
    all: unfold poll_failed.
    all: try (destruct (bool_decide (state _ = RUNNING))).
    all: cbn; autorewrite with frames; auto.
  - auto.
  - auto.
  - auto.
  - auto.
Qed.

(** X15.  The interval armed by [start()] is the interval until [stop()] or
    [dispose()].  No other event clears it or arms another one: not a
    configuration change that carries a new [updateInterval], and not
    the failure of a poll, after which the controller sits in Error
    with the interval still armed. *)
Theorem interval_lasts_until_stop (m : t) (es : list event) :
  reachable m -> state m = RUNNING ->
  forallb (fun e => negb (halts e)) es = true ->
  timer (run es m) = timer m /\
  (state (run es m) = RUNNING \/ state (run es m) = ERROR).
Proof.
  intros Hr Hst. apply reachable_invariant in Hr.
  assert (Hs : state m = RUNNING \/ state m = ERROR) by (left; exact Hst).
  clear Hst. revert m Hr Hs.
  induction es as [|e es IH]; intros m Hinv Hst Hes; cbn [run fold_left].
  - auto.
  - cbn in Hes. apply andb_prop in Hes as [He Hes].
    assert (Hh : halts e = false) by (destruct (halts e); [discriminate|reflexivity]).
    destruct (running_step e m Hinv Hst Hh) as [H1 H2].
    destruct (IH (step e m) (step_invariant _ _ Hinv) H1 Hes) as [J1 J2].
    unfold run in *. rewrite J1. auto.
Qed.

Lemma interval_lasts_until_stop_witness :
  timer (run [ConfigChanged {| version := "1.0.0"; stocks := []; updateInterval := 5;
                              autoStart := false; showNotifications := true;
                              priceAlertThreshold := 5 |};
              Tick 2; Settle 4 (Rejected "timeout")] running0)
  = timer running0.
Proof.
  apply (interval_lasts_until_stop running0).
  - eexists _, _; reflexivity.
  - vm_compute. reflexivity.
  - vm_compute. reflexivity.
Defined.

Lemma run_ticks n tm m :
  state m = RUNNING -> timer m = Some tm ->
  state (run (repeat (Tick (handle tm)) n) m) = RUNNING /\
  timer (run (repeat (Tick (handle tm)) n) m) = Some tm /\
  calls (run (repeat (Tick (handle tm)) n) m) = calls m ++ repeat CallRequestUpdate n /\
  count_kind (fun k => bool_decide (k = PollAwaitsUpdate))
             (awaited (run (repeat (Tick (handle tm)) n) m))
    = count_kind (fun k => bool_decide (k = PollAwaitsUpdate)) (awaited m) + n.
Proof.
  revert m. induction n as [|n IH]; intros m Hst Ht.
  - cbn [repeat run fold_left]. rewrite app_nil_r. repeat split; auto; lia.
  - assert (Hstep : step (Tick (handle tm)) m = performUpdate m).
    { cbn [step]. rewrite Ht, Nat.eqb_refl. unfold onInterval.
      rewrite (bool_decide_eq_true_2 _ Hst). reflexivity. }
    change (run (repeat (Tick (handle tm)) (S n)) m)
      with (run (repeat (Tick (handle tm)) n) (step (Tick (handle tm)) m)).
    rewrite Hstep.
    destruct (IH (performUpdate m) Hst Ht) as (A & B & C & E).
    split; [exact A|]. split; [exact B|]. split.
    + rewrite C. change (calls (performUpdate m)) with (calls m ++ [CallRequestUpdate]).
      rewrite <- app_assoc. reflexivity.
    + rewrite E.
      change (awaited (performUpdate m)) with (awaited m ++ [(fresh m, PollAwaitsUpdate)]).
      rewrite count_kind_app, count_kind_single.
      rewrite bool_decide_eq_true_2 by reflexivity. lia.
Qed.

(** X16.  Polls are not serialised.  Every tick of the interval that finds
    the controller Running requests an update, whether or not earlier
    requests are still unanswered: [n] ticks in a row make [n] calls of
    [requestUpdate] and leave [n] more promises outstanding. *)
Theorem every_tick_polls (n : nat) (tm : Timeout) (m : t) :
  state m = RUNNING -> timer m = Some tm ->
  calls (run (repeat (Tick (handle tm)) n) m) = calls m ++ repeat CallRequestUpdate n /\
  count_kind (fun k => bool_decide (k = PollAwaitsUpdate))
             (awaited (run (repeat (Tick (handle tm)) n) m))
    = count_kind (fun k => bool_decide (k = PollAwaitsUpdate)) (awaited m) + n.
Proof.
  intros Hst Ht. destruct (run_ticks n tm m Hst Ht) as (_ & _ & C & E).
  split; assumption.
Qed.

Lemma every_tick_polls_witness :
  calls (run (repeat (Tick 2) 3) running0)
  = calls running0 ++ [CallRequestUpdate; CallRequestUpdate; CallRequestUpdate].
Proof.
  assert (Hst : state running0 = RUNNING) by (vm_compute; reflexivity).
  assert (Ht : timer running0 = Some {| handle := 2; period_ms := (20 * 1000)%float |})
    by (vm_compute; reflexivity).
  destruct (every_tick_polls 3 _ running0 Hst Ht) as [A _].
  exact A.
Defined.

End manager.


(** * Properties of the worker client *)

Section client.
Import Text Json PythonClient.

(** ** What the request bookkeeping looks at *)

Lemma view_fields c c' :
  view c = view c' ->
  pendingRequests c = pendingRequests c' /\ timers c = timers c' /\
  nextTimer c = nextTimer c' /\ nextPromise c = nextPromise c' /\
  stdin c = stdin c' /\ settled c = settled c'.
Proof. unfold view. intros H. injection H. auto 10. Qed.

Lemma consistent_view c c' : view c = view c' -> consistent c -> consistent c'.
Proof.
  intros H [A B C D E F G I J K L].
  apply view_fields in H as (Hp & Ht & Hn & Hq & Hw & Hs).
  split; unfold settlements in *; rewrite <- ?Hp, <- ?Ht, <- ?Hn, <- ?Hq, <- ?Hw, <- ?Hs;
    assumption.
Qed.

Lemma punctual_view c c' :
  view c = view c' -> now c = now c' -> punctual c -> punctual c'.
Proof.
  intros H Hn P. apply view_fields in H as (_ & Ht & _).
  unfold punctual in *. rewrite <- Ht, <- Hn. exact P.
Qed.

Ltac fields :=
  cbn [pythonProcess pendingRequests messageBuffer isConnected restartCount maxRestarts
       now timers nextTimer nextPromise nextPid stdin settled bus shown console
       set_pythonProcess set_pendingRequests set_messageBuffer set_isConnected
       set_restartCount set_now set_timers set_nextTimer set_nextPromise set_nextPid
       write settle publish show log setTimeout clearTimeout] in *.

(** ** The supervisor touches the bookkeeping only by arming a restart delay *)

Lemma setTimeout_view d a c c' :
  view c = view c' -> now c = now c' ->
  view (setTimeout d a c) = view (setTimeout d a c').
Proof.
  intros H Hn. apply view_fields in H as (Hp & Ht & Hnt & Hq & Hw & Hs).
  unfold view. fields. congruence.
Qed.

Lemma kill_view sent c : view (kill sent c) = view c /\ now (kill sent c) = now c.
Proof.
  unfold kill. destruct (pythonProcess c) as [p|]; [destruct (life p), sent|];
    split; reflexivity.
Qed.

Lemma set_life_view l c : view (set_life l c) = view c /\ now (set_life l c) = now c.
Proof. unfold set_life. destruct (pythonProcess c); split; reflexivity. Qed.

Lemma handleProcessExit_view c :
  (view (handleProcessExit c) = view c \/
   view (handleProcessExit c) = view (setTimeout 1000 RestartDelay c)) /\
  now (handleProcessExit c) = now c.
Proof.
  unfold handleProcessExit. destruct (Nat.leb _ _); split; auto.
Qed.

Lemma onExit_view code signal c :
  (view (onExit code signal c) = view c \/
   view (onExit code signal c) = view (setTimeout 1000 RestartDelay c)) /\
  now (onExit code signal c) = now c.
Proof.
  unfold onExit. destruct code as [n|]; [|split; auto].
  destruct (negb _); [|split; auto].
  apply (handleProcessExit_view (log _ (set_isConnected false c))).
Qed.

Lemma stopDaemon_view h c :
  (view (fst (stopDaemon h c)) = view c \/
   view (fst (stopDaemon h c)) = view (setTimeout 1000 RestartDelay c)) /\
  now (fst (stopDaemon h c)) = now c.
Proof.
  unfold stopDaemon. destruct (negb (running c)); [split; auto|].
  destruct (kill_view (signal_sent h) c) as [Hk Hn].
  destruct (alive c); [|split; [left|]; assumption].
  destruct (exit_event h) as [[code signal]|]; cbn [fst].
  - destruct (onExit_view code signal (kill (signal_sent h) c)) as [[H|H] Hn'].
    + split; [left; exact (eq_trans H Hk) | exact (eq_trans Hn' Hn)].
    + split; [right | exact (eq_trans Hn' Hn)].
      exact (eq_trans H (setTimeout_view _ _ _ _ Hk Hn)).
  - destruct (set_life_view Lingering (kill (signal_sent h) c)) as [Hl Hn'].
    split; [left; exact (eq_trans Hl Hk) | exact (eq_trans Hn' Hn)].
Qed.

Lemma exit_view code signal c :
  (view (exit code signal c) = view c \/
   view (exit code signal c) = view (setTimeout 1000 RestartDelay c)) /\
  now (exit code signal c) = now c.
Proof.
  unfold exit. destruct (alive c); [|split; auto].
  destruct (set_life_view Exited c) as [Hl Hn].
  destruct (onExit_view code signal (set_life Exited c)) as [[H|H] Hn'].
  - split; [left; exact (eq_trans H Hl) | exact (eq_trans Hn' Hn)].
  - split; [right | exact (eq_trans Hn' Hn)].
    exact (eq_trans H (setTimeout_view _ _ _ _ Hl Hn)).
Qed.

Lemma startDaemon_view h c :
  (view (fst (startDaemon h c)) = view c \/
   view (fst (startDaemon h c)) = view (setTimeout 1000 RestartDelay c)) /\
  now (fst (startDaemon h c)) = now c.
Proof.
  unfold startDaemon.
  assert (H : exists c1 stopped,
             (if running c then stopDaemon h c else (c, true)) = (c1, stopped) /\
             (view c1 = view c \/ view c1 = view (setTimeout 1000 RestartDelay c)) /\
             now c1 = now c).
  { destruct (running c).
    - destruct (stopDaemon h c) as [c1 stopped] eqn:E. exists c1, stopped.
      split; [reflexivity|]. pose proof (stopDaemon_view h c) as Hv.
      rewrite E in Hv. exact Hv.
    - exists c, true. split; [reflexivity|]. split; auto. }
  destruct H as (c1 & stopped & -> & Hv & Hn).
  destruct (negb stopped); [split; assumption|].
  destruct (spawn_ok h); cbn [fst]; split; assumption.
Qed.

Lemma restart_view h c :
  (view (restart h c) = view c \/
   view (restart h c) = view (setTimeout 1000 RestartDelay c)) /\
  now (restart h c) = now c.
Proof.
  unfold restart. pose proof (startDaemon_view h c) as H.
  destruct (startDaemon h c) as [c1 [b|]]; exact H.
Qed.


(** ** Small facts about the logs *)

Lemma NoDup_map_eq {A B} (f : A -> B) (l : list A) (a b : A) :
  List.NoDup (map f l) -> In a l -> In b l -> f a = f b -> a = b.
Proof.
  induction l as [|x l IH]; cbn; [tauto|].
  intros Hnd Ha Hb Hf. inversion Hnd as [|? ? Hx Hl]; subst.
  destruct Ha as [->|Ha], Hb as [->|Hb]; auto.
  - exfalso. apply Hx. rewrite Hf. apply in_map, Hb.
  - exfalso. apply Hx. rewrite <- Hf. apply in_map, Ha.
Qed.

Lemma NoDup_snoc_fresh (l : list nat) (n : nat) :
  Forall (fun x => x < n) l -> List.NoDup l -> List.NoDup (l ++ [n]).
Proof.
  induction l as [|x l IH]; cbn; intros HF Hnd.
  - constructor; [tauto | constructor].
  - inversion HF; subst. inversion Hnd; subst. constructor; [|auto].
    rewrite in_app_iff. cbn. intros [H|[H|[]]]; [tauto | lia].
Qed.

Lemma Forall_map_lt {A} (f : A -> nat) (l : list A) (n : nat) :
  Forall (fun x => f x < n) l -> Forall (fun x => x < n) (map f l).
Proof. induction 1; cbn; constructor; auto. Qed.

Lemma Forall_lt_S {A} (f : A -> nat) (l : list A) (n : nat) :
  Forall (fun x => f x < n) l -> Forall (fun x => f x < S n) l.
Proof. intros H. eapply Forall_impl; [exact H|]. cbn. intros; lia. Qed.

Lemma Forall_In {A} (P : A -> Prop) (l : list A) (a : A) :
  Forall P l -> In a l -> P a.
Proof. intros H. rewrite List.Forall_forall in H. apply H. Qed.

Lemma settlements_settle p q o c :
  settlements p (settle q o c) =
  settlements p c ++
    (if Nat.eqb q p then [{| s_promise := q; s_outcome := o; s_time := now c |}] else []).
Proof.
  unfold settlements, settle. cbn [settled]. rewrite List.filter_app. cbn.
  reflexivity.
Qed.

Lemma settlements_In p s c :
  In s (settlements p c) <-> In s (settled c) /\ s_promise s = p.
Proof.
  unfold settlements. rewrite List.filter_In, Nat.eqb_eq. reflexivity.
Qed.

Lemma settlements_fresh p c :
  Forall (fun s => s_promise s < nextPromise c) (settled c) ->
  nextPromise c <= p -> settlements p c = [].
Proof.
  intros HF Hle. destruct (settlements p c) as [|s l] eqn:E; [reflexivity|].
  assert (H : In s (settlements p c)) by (rewrite E; left; reflexivity).
  apply settlements_In in H as [H1 H2]. apply (Forall_In _ _ _ HF) in H1.
  cbn in H1. lia.
Qed.

Lemma clearTimeout_In h x c :
  In x (timers (clearTimeout h c)) <-> In x (timers c) /\ tid x <> h.
Proof.
  unfold clearTimeout. cbn [timers set_timers]. rewrite List.filter_In.
  rewrite negb_true_iff, Nat.eqb_neq. reflexivity.
Qed.

Lemma NoDup_map_filter {A B} (f : A -> B) (g : A -> bool) (l : list A) :
  List.NoDup (map f l) -> List.NoDup (map f (List.filter g l)).
Proof.
  induction l as [|x l IH]; cbn; [trivial|].
  intros H. inversion H as [|? ? Hx Hl]; subst.
  destruct (g x); cbn; [constructor|]; auto.
  intros Hin. apply Hx. apply in_map_iff in Hin as (y & Hy & Hin).
  apply List.filter_In in Hin as [Hin _]. rewrite <- Hy. apply in_map, Hin.
Qed.

Lemma Forall_filter' {A} (P : A -> Prop) (g : A -> bool) (l : list A) :
  Forall P l -> Forall P (List.filter g l).
Proof.
  intros H. apply List.Forall_forall. intros x Hx.
  apply List.filter_In in Hx as [Hx _]. exact (Forall_In _ _ _ H Hx).
Qed.

(** ** Each operation keeps the bookkeeping consistent *)

Lemma consistent_init t0 : consistent (init t0).
Proof.
  split; cbn; try constructor; try tauto; try (intros; lia).
  intros key cb H. rewrite lookup_empty in H. discriminate.
Qed.

Lemma consistent_restart_delay d c :
  consistent c -> consistent (setTimeout d RestartDelay c).
Proof.
  intros [A B C D E F G I J K L].
  split; unfold settlements in *; fields; auto.
  - apply Forall_app. split; [apply (Forall_lt_S tid), A|].
    constructor; [cbn; lia | constructor].
  - rewrite map_app. cbn. apply NoDup_snoc_fresh; [apply Forall_map_lt, A | exact B].
  - intros key cb H. destruct (C key cb H) as (x & cmd & Hx & Hrest).
    exists x, cmd. split; [apply in_or_app; left; exact Hx | exact Hrest].
  - intros x p cmd Hx Ha. apply in_app_or in Hx as [Hx|[<-|[]]]; [eauto|].
    discriminate.
  - intros x y p cmd cmd' Hx Hy Hax Hay.
    apply in_app_or in Hx as [Hx|[<-|[]]]; [|discriminate].
    apply in_app_or in Hy as [Hy|[<-|[]]]; [|discriminate].
    eauto.
  - intros w Hw. destruct (K w Hw) as [H|(x & Hx & Hrest)]; [left; exact H|].
    right. exists x. split; [apply in_or_app; left; exact Hx | exact Hrest].
Qed.


Lemma consistent_not_running c :
  consistent c ->
  consistent (settle (nextPromise c) NotRunning (set_nextPromise (S (nextPromise c)) c)).
Proof.
  intros [A B C D E F G I J K L].
  assert (Hnone : settlements (nextPromise c) c = [])
    by (apply settlements_fresh; [exact G | lia]).
  split; fields; auto.
  - intros x p cmd Hx Ha. destruct (D x p cmd Hx Ha) as [Hs Hw].
    split; [|exact Hw]. rewrite settlements_settle. fields.
    destruct (Nat.eqb_spec (nextPromise c) p) as [<-|_]; [|rewrite app_nil_r; exact Hs].
    apply (Forall_In _ _ _ I) in Hw. cbn in Hw. lia.
  - intros p. rewrite settlements_settle.
    destruct (Nat.eqb_spec (nextPromise c) p) as [<-|_].
    + change (settlements (nextPromise c) (set_nextPromise _ c))
        with (settlements (nextPromise c) c).
      rewrite Hnone. cbn. lia.
    + rewrite app_nil_r. apply F.
  - apply Forall_app. split; [apply (Forall_lt_S s_promise), G|].
    constructor; [cbn; lia | constructor].
  - apply (Forall_lt_S w_promise), I.
  - intros w Hw. destruct (K w Hw) as [H|H]; [left|right; exact H].
    rewrite settlements_settle. intros Happ. apply app_eq_nil in Happ as [Happ _].
    exact (H Happ).
  - intros s w Hs Hw Heq. apply in_app_or in Hs as [Hs|[<-|[]]]; [exact (L s w Hs Hw Heq)|].
    cbn in Heq. apply (Forall_In _ _ _ I) in Hw. cbn in Hw. lia.
Qed.

Lemma consistent_sent cmd c :
  consistent c ->
  let p := nextPromise c in
  let c1 := setTimeout 10000 (CommandTimeout p cmd) (set_nextPromise (S p) c) in
  consistent
    (write {| w_promise := p; w_time := now c; w_command := cmd |}
       (set_pendingRequests
          (<[id cmd := {| promise := p; timeoutId := nextTimer c |}]> (pendingRequests c1))
          c1)).
Proof.
  intros [A B C D E F G I J K L] p c1.
  assert (Hnone : settlements p c = []) by (apply settlements_fresh; [exact G | unfold p; lia]).
  split; unfold c1; fields; auto.
  - apply Forall_app. split; [apply (Forall_lt_S tid), A|].
    constructor; [cbn; lia | constructor].
  - rewrite map_app. cbn. apply NoDup_snoc_fresh; [apply Forall_map_lt, A | exact B].
  - intros key cb H.
    destruct (decide (id cmd = key)) as [<-|Hne].
    + rewrite lookup_insert_eq in H. injection H as <-.
      eexists _, cmd. split; [apply in_or_app; right; left; reflexivity|].
      cbn. auto.
    + rewrite lookup_insert_ne in H by exact Hne.
      destruct (C key cb H) as (x & cmd' & Hx & Hrest).
      exists x, cmd'. split; [apply in_or_app; left; exact Hx | exact Hrest].
  - intros x q cmd' Hx Ha. apply in_app_or in Hx as [Hx|[<-|[]]].
    + destruct (D x q cmd' Hx Ha) as [Hs Hw]. split; [exact Hs|].
      apply in_or_app. left. exact Hw.
    + cbn in Ha. injection Ha as <- <-. split; [exact Hnone|].
      apply in_or_app. right. left. cbn. f_equal. lia.
  - intros x y q cmd1 cmd2 Hx Hy Hax Hay.
    apply in_app_or in Hx as [Hx|[<-|[]]]; apply in_app_or in Hy as [Hy|[<-|[]]].
    + eauto.
    + cbn in Hay. injection Hay as <- <-.
      destruct (D x _ _ Hx Hax) as [_ Hw]. apply (Forall_In _ _ _ I) in Hw.
      cbn in Hw. unfold p in Hw. lia.
    + cbn in Hax. injection Hax as <- <-.
      destruct (D y _ _ Hy Hay) as [_ Hw]. apply (Forall_In _ _ _ I) in Hw.
      cbn in Hw. unfold p in Hw. lia.
    + reflexivity.
  - apply (Forall_lt_S s_promise), G.
  - apply Forall_app. split; [apply (Forall_lt_S w_promise), I|].
    constructor; [cbn; unfold p; lia | constructor].
  - rewrite map_app. cbn. apply NoDup_snoc_fresh; [apply Forall_map_lt, I | exact J].
  - intros w Hw. apply in_app_or in Hw as [Hw|[<-|[]]].
    + destruct (K w Hw) as [H|(x & Hx & Hrest)]; [left; exact H|].
      right. exists x. split; [apply in_or_app; left; exact Hx | exact Hrest].
    + right. eexists. split; [apply in_or_app; right; left; reflexivity|].
      cbn. auto.
  - intros s w Hs Hw Heq. apply in_app_or in Hw as [Hw|[<-|[]]]; [exact (L s w Hs Hw Heq)|].
    cbn in Heq. apply (Forall_In _ _ _ G) in Hs. cbn in Hs. unfold p in Heq. lia.
Qed.

Lemma consistent_sendCommand cmd c : consistent c -> consistent (sendCommand cmd c).
Proof.
  intros H. unfold sendCommand.
  change (running (set_nextPromise (S (nextPromise c)) c)) with (running c).
  destruct (negb (running c)).
  - apply consistent_not_running, H.
  - apply (consistent_sent cmd c H).
Qed.

(** The promise of an armed command timeout is completed: its timer goes,
    the entry under its command's id goes, one settlement is logged. *)
Lemma consistent_complete c x p cmd o t' :
  consistent c -> In x (timers c) -> action x = CommandTimeout p cmd ->
  match o with
  | Resolved r => prop r (js "id") = Some (JStr (id cmd))
  | TimedOut k => k = command cmd /\ t' = deadline x
  | NotRunning => False
  end ->
  consistent
    (settle p o
       (set_now t'
          (set_pendingRequests (delete (id cmd) (pendingRequests c))
             (clearTimeout (tid x) c)))).
Proof.
  intros [A B C D E F G I J K L] Hx Ha Ho.
  destruct (D x p cmd Hx Ha) as [Hnone Hw].
  assert (Hp : p < nextPromise c) by (apply (Forall_In _ _ _ I) in Hw; exact Hw).
  assert (Hgone : forall y q cmd', In y (timers (clearTimeout (tid x) c)) ->
                    action y = CommandTimeout q cmd' -> q <> p).
  { intros y q cmd' Hy Hay ->. apply clearTimeout_In in Hy as [Hy Hne].
    apply Hne. f_equal. eapply E; eauto. }
  split.
  - apply Forall_filter', A.
  - apply NoDup_map_filter, B.
  - intros key cb H. cbn [pendingRequests settle set_now set_pendingRequests] in H.
    destruct (decide (id cmd = key)) as [<-|Hne];
      [rewrite lookup_delete_eq in H; discriminate|].
    rewrite lookup_delete_ne in H by exact Hne.
    destruct (C key cb H) as (y & cmd' & Hy & Htid & Hay & Hid).
    exists y, cmd'. split; [|auto].
    change (In y (timers (clearTimeout (tid x) c))).
    apply clearTimeout_In. split; [exact Hy|]. intros Heq.
    assert (y = x) by (eapply (NoDup_map_eq tid); eauto). subst y.
    rewrite Ha in Hay. injection Hay as _ <-. congruence.
  - intros y q cmd' Hy Hay.
    change (In y (timers (clearTimeout (tid x) c))) in Hy.
    pose proof (Hgone y q cmd' Hy Hay) as Hne.
    apply clearTimeout_In in Hy as [Hy _].
    destruct (D y q cmd' Hy Hay) as [Hs Hw']. split; [|exact Hw'].
    rewrite settlements_settle.
    destruct (Nat.eqb_spec p q); [congruence|]. rewrite app_nil_r. exact Hs.
  - intros y z q cmd1 cmd2 Hy Hz.
    change (In y (timers (clearTimeout (tid x) c))) in Hy.
    change (In z (timers (clearTimeout (tid x) c))) in Hz.
    apply clearTimeout_In in Hy as [Hy _]. apply clearTimeout_In in Hz as [Hz _].
    eauto.
  - intros q. rewrite settlements_settle.
    destruct (Nat.eqb_spec p q) as [<-|_].
    + change (settlements p (set_now t' _)) with (settlements p c).
      rewrite Hnone. cbn. lia.
    + rewrite app_nil_r. apply F.
  - cbn [settled settle]. apply Forall_app. split; [exact G|].
    constructor; [exact Hp | constructor].
  - exact I.
  - exact J.
  - intros w Hw'. change (In w (stdin c)) in Hw'.
    destruct (Nat.eq_dec (w_promise w) p) as [Heq|Hne].
    + left. rewrite settlements_settle, Heq, Nat.eqb_refl.
      intros Happ. apply app_eq_nil in Happ as [_ Happ]. discriminate.
    + destruct (K w Hw') as [H|(y & Hy & Hay & Hd)].
      * left. rewrite settlements_settle. intros Happ.
        apply app_eq_nil in Happ as [Happ _]. exact (H Happ).
      * right. exists y. split; [|auto].
        change (In y (timers (clearTimeout (tid x) c))).
        apply clearTimeout_In. split; [exact Hy|]. intros Heq.
        assert (y = x) by (eapply (NoDup_map_eq tid); eauto). subst y.
        rewrite Ha in Hay. injection Hay as -> _. congruence.
  - intros s w Hs Hw' Heq. change (In w (stdin c)) in Hw'.
    cbn [settled settle] in Hs. apply in_app_or in Hs as [Hs|[<-|[]]]; [exact (L s w Hs Hw' Heq)|].
    cbn [s_promise] in Heq. cbn [s_outcome s_time].
    assert (w = {| w_promise := p; w_time := deadline x - 10000; w_command := cmd |})
      by (eapply (NoDup_map_eq w_promise); eauto). subst w. cbn.
    destruct o as [r|k|]; [exact Ho | | exact Ho].
    destruct Ho as [-> ->]. split; [reflexivity|]. cbn. lia.
Qed.


Lemma consistent_clear_restart c x :
  consistent c -> In x (timers c) -> action x = RestartDelay ->
  consistent (clearTimeout (tid x) c).
Proof.
  intros [A B C D E F G I J K L] Hx Ha.
  assert (Hkeep : forall y p cmd, In y (timers c) -> action y = CommandTimeout p cmd ->
                    In y (timers (clearTimeout (tid x) c))).
  { intros y p cmd Hy Hay. apply clearTimeout_In. split; [exact Hy|]. intros Heq.
    assert (y = x) by (eapply (NoDup_map_eq tid); eauto). subst y. congruence. }
  split.
  - apply Forall_filter', A.
  - apply NoDup_map_filter, B.
  - intros key cb H. destruct (C key cb H) as (y & cmd & Hy & Htid & Hay & Hid).
    exists y, cmd. split; [eapply Hkeep; eauto | auto].
  - intros y p cmd Hy Hay. apply clearTimeout_In in Hy as [Hy _]. exact (D y p cmd Hy Hay).
  - intros y z p cmd cmd' Hy Hz. apply clearTimeout_In in Hy as [Hy _].
    apply clearTimeout_In in Hz as [Hz _]. eauto.
  - exact F.
  - exact G.
  - exact I.
  - exact J.
  - intros w Hw. destruct (K w Hw) as [H|(y & Hy & Hay & Hd)]; [left; exact H|].
    right. exists y. split; [eapply Hkeep; eauto | auto].
  - exact L.
Qed.

Lemma consistent_dispose sent c : consistent c -> consistent (dispose sent c).
Proof.
  intros H. unfold dispose.
  assert (H1 : consistent (if running c then kill sent c else c)).
  { destruct (running c); [|exact H].
    eapply consistent_view; [|exact H]. symmetry. apply kill_view. }
  destruct H1 as [A B C D E F G I J K L].
  split; auto. intros key cb Hk. cbn in Hk. rewrite lookup_empty in Hk. discriminate.
Qed.

Lemma find_callback_spec response c key cb :
  find_callback response c = Some (key, cb) ->
  prop response (js "id") = Some (JStr key) /\ pendingRequests c !! key = Some cb.
Proof.
  unfold find_callback. destruct (prop response (js "id")) as [[| | |k| |]|]; try discriminate.
  destruct (pendingRequests c !! k) eqn:E; [|discriminate].
  intros H. injection H as <- <-. auto.
Qed.

(** What [handleResponse] does, case by case. *)
Lemma handleResponse_cases response c c' :
  handleResponse response c = Some c' ->
  (exists key cb,
     prop response (js "id") = Some (JStr key) /\
     pendingRequests c !! key = Some cb /\
     c' = settle (promise cb) (Resolved response)
            (clearTimeout (timeoutId cb)
               (set_pendingRequests (delete key (pendingRequests c)) c))) \/
  (find_callback response c = None /\ view c' = view c /\ now c' = now c).
Proof.
  unfold handleResponse. intros H.
  assert (H' : match find_callback response c with
               | Some (key, cb) =>
                   Some (settle (promise cb) (Resolved response)
                           (clearTimeout (timeoutId cb)
                              (set_pendingRequests (delete key (pendingRequests c)) c)))
               | None =>
                   if has_type response "data"
                   then Some (publish (prop response (js "data")) c)
                   else if has_type response "error"
                        then Some (show (ErrorFromPython (prop response (js "error")))
                                     (log (ErrorPython (prop response (js "error"))) c))
                        else Some c
               end = Some c') by (destruct response; [discriminate|exact H..]).
  clear H. destruct (find_callback response c) as [[key cb]|] eqn:E.
  - left. apply find_callback_spec in E as [E1 E2]. exists key, cb.
    injection H' as <-. auto.
  - right. split; [reflexivity|].
    destruct (has_type response "data"); [injection H' as <-; auto|].
    destruct (has_type response "error"); injection H' as <-; auto.
Qed.

Lemma consistent_handleResponse response c c' :
  handleResponse response c = Some c' -> consistent c -> consistent c'.
Proof.
  intros H Hc. apply handleResponse_cases in H as [(key & cb & Hid & Hk & ->)|(_ & Hv & _)].
  - destruct (pending_armed c Hc key cb Hk) as (x & cmd & Hx & Htid & Ha & Hkey).
    eapply consistent_view;
      [|apply (consistent_complete c x (promise cb) cmd (Resolved response) (now c) Hc Hx Ha)].
    + unfold view. fields. rewrite Htid, Hkey. reflexivity.
    + cbn. rewrite Hkey. exact Hid.
  - eapply consistent_view; [symmetry; exact Hv | exact Hc].
Qed.

Lemma punctual_sub c c' :
  (forall x, In x (timers c') -> In x (timers c)) -> now c' = now c ->
  punctual c -> punctual c'.
Proof.
  intros Hsub Hn P x p cmd Hx Ha. rewrite Hn. eapply P; eauto.
Qed.

Lemma punctual_handleResponse response c c' :
  handleResponse response c = Some c' -> punctual c -> punctual c'.
Proof.
  intros H. apply handleResponse_cases in H as [(key & cb & Hid & Hk & ->)|(_ & Hv & Hn)].
  - apply punctual_sub; [|reflexivity]. intros x Hx.
    change (In x (timers (clearTimeout (timeoutId cb) c))) in Hx.
    apply clearTimeout_In in Hx. tauto.
  - apply punctual_view; [symmetry; exact Hv | symmetry; exact Hn].
Qed.

Lemma sound_view c c' : view c = view c' -> now c = now c' -> sound c -> sound c'.
Proof.
  intros Hv Hn [H1 H2]. split; [eapply consistent_view | eapply punctual_view]; eauto.
Qed.

Lemma sound_restart_delay c : sound c -> sound (setTimeout 1000 RestartDelay c).
Proof.
  intros [H1 H2]. split; [apply consistent_restart_delay, H1|].
  intros x p cmd Hx Ha. fields. apply in_app_or in Hx as [Hx|[<-|[]]]; [|discriminate].
  eapply H2; eauto.
Qed.

Lemma sound_views c c' :
  (view c' = view c \/ view c' = view (setTimeout 1000 RestartDelay c)) /\ now c' = now c ->
  sound c -> sound c'.
Proof.
  intros [[Hv|Hv] Hn] H.
  - eapply sound_view; [symmetry; exact Hv | symmetry; exact Hn | exact H].
  - eapply sound_view; [symmetry; exact Hv | | apply sound_restart_delay, H].
    symmetry. exact Hn.
Qed.

Lemma sound_handleResponse response c c' :
  handleResponse response c = Some c' -> sound c -> sound c'.
Proof.
  intros H [H1 H2].
  split; [eapply consistent_handleResponse | eapply punctual_handleResponse]; eauto.
Qed.

Lemma sound_processLine c line : sound c -> sound (processLine c line).
Proof.
  intros H. unfold processLine. destruct (is_empty (trim line)); [exact H|].
  destruct (parse line) as [response|].
  - destruct (handleResponse response c) as [c'|] eqn:E.
    + eapply sound_handleResponse; eauto.
    + eapply sound_view; [| |exact H]; reflexivity.
  - eapply sound_view; [| |exact H]; reflexivity.
Qed.

Lemma sound_fold_lines lines c : sound c -> sound (fold_left processLine lines c).
Proof.
  revert c. induction lines as [|l lines IH]; intros c H; cbn; [exact H|].
  apply IH, sound_processLine, H.
Qed.

Lemma sound_onStdout data c : sound c -> sound (onStdout data c).
Proof.
  intros H. unfold onStdout, processMessages. apply sound_fold_lines.
  eapply sound_view; [| |exact H]; reflexivity.
Qed.

Lemma sound_sendCommand cmd c : sound c -> sound (sendCommand cmd c).
Proof.
  intros [H1 H2]. split; [apply consistent_sendCommand, H1|].
  unfold sendCommand.
  change (running (set_nextPromise (S (nextPromise c)) c)) with (running c).
  destruct (negb (running c)).
  - intros x p cmd' Hx Ha. eapply H2; eauto.
  - intros x p cmd' Hx Ha. fields. apply in_app_or in Hx as [Hx|[<-|[]]].
    + eapply H2; eauto.
    + cbn. lia.
Qed.

Lemma sound_dispose sent c : sound c -> sound (dispose sent c).
Proof.
  intros [H1 H2]. split; [apply consistent_dispose, H1|].
  destruct (kill_view sent c) as [Hv Hn].
  apply view_fields in Hv as (_ & Ht & _).
  unfold dispose. apply (punctual_sub c); [| |exact H2].
  - intros x Hx. cbn [timers set_pendingRequests] in Hx.
    destruct (running c); [rewrite <- Ht|]; exact Hx.
  - cbn [now set_pendingRequests]. destruct (running c); [exact Hn | reflexivity].
Qed.


(** ** Time passing *)

Lemma armed_In h c : armed h c = true <-> exists y, In y (timers c) /\ tid y = h.
Proof.
  unfold armed. rewrite existsb_exists. split; intros (y & Hy & H); exists y;
    (split; [exact Hy|]); apply Nat.eqb_eq; exact H.
Qed.

Lemma since_views c0 c c' :
  (view c' = view c \/ view c' = view (setTimeout 1000 RestartDelay c)) ->
  since c0 c -> since c0 c'.
Proof.
  intros Hv (Hc & Hn & Hold).
  destruct Hv as [Hv|Hv].
  - pose proof (view_fields _ _ Hv) as (_ & Ht & Hnt & _).
    split; [eapply consistent_view; [symmetry; exact Hv | exact Hc]|].
    rewrite Ht, Hnt. auto.
  - pose proof (view_fields _ _ Hv) as (_ & Ht & Hnt & _).
    split; [eapply consistent_view; [symmetry; exact Hv|];
            apply consistent_restart_delay, Hc|].
    rewrite Ht, Hnt. fields. split; [lia|].
    intros y Hy. apply in_app_or in Hy as [Hy|[<-|[]]]; [auto|].
    right. cbn. split; [lia | reflexivity].
Qed.

Lemma fire_since h c0 c x :
  consistent c0 -> since c0 c -> In x (timers c0) ->
  since c0 (fire h c x) /\
  forall y, In y (timers (fire h c x)) -> In y (timers c0) ->
    In y (timers c) /\ y <> x.
Proof.
  intros H0 (Hc & Hn & Hold) Hx0.
  assert (Hfresh0 : forall y, In y (timers c0) -> tid y < nextTimer c0)
    by (intros y Hy; exact (Forall_In _ _ _ (timers_fresh c0 H0) Hy)).
  unfold fire. destruct (armed (tid x) c) eqn:Ea.
  - apply armed_In in Ea as (y & Hy & Htid).
    assert (Hx : In x (timers c)).
    { destruct (Hold y Hy) as [Hy0|[Hge _]].
      - assert (y = x) by (eapply (NoDup_map_eq tid); [apply (timers_distinct c0 H0)|..]; auto).
        subst y. exact Hy.
      - apply Hfresh0 in Hx0. lia. }
    clear y Hy Htid.
    set (c1 := set_now (deadline x) (clearTimeout (tid x) c)).
    assert (Hsub : forall y, In y (timers c1) -> In y (timers c) /\ y <> x).
    { intros y Hy. change (In y (timers (clearTimeout (tid x) c))) in Hy.
      apply clearTimeout_In in Hy as [Hy Hne]. split; [exact Hy | congruence]. }
    destruct (action x) as [p cmd|] eqn:Hax.
    + assert (Hres : consistent (onTimeout p cmd c1)).
      { eapply consistent_view;
          [|apply (consistent_complete c x p cmd (TimedOut (command cmd)) (deadline x)
                     Hc Hx Hax); auto].
        reflexivity. }
      split.
      * split; [exact Hres|]. split; [exact Hn|].
        intros y Hy. apply Hsub in Hy as [Hy _]. auto.
      * intros y Hy _. apply Hsub in Hy. exact Hy.
    + assert (Hc1 : since c0 c1).
      { split; [|split; [exact Hn|]].
        - eapply (consistent_view (clearTimeout (tid x) c)); [reflexivity|].
          apply consistent_clear_restart; assumption.
        - intros y Hy. apply Hsub in Hy as [Hy _]. auto. }
      destruct (restart_view h c1) as [Hv _].
      split; [eapply since_views; eauto|].
      intros y Hy Hy0.
      assert (Hy1 : In y (timers c1)).
      { destruct Hv as [Hv|Hv]; apply view_fields in Hv as (_ & Ht & _);
          rewrite Ht in Hy; [exact Hy|].
        fields. apply in_app_or in Hy as [Hy|[<-|[]]]; [exact Hy|].
        apply Hfresh0 in Hy0. cbn in Hy0. lia. }
      apply Hsub, Hy1.
  - split; [split; auto|].
    intros y Hy _. split; [exact Hy|]. intros ->.
    assert (armed (tid x) c = true) by (apply armed_In; eauto). congruence.
Qed.

Lemma fold_fire_since h c0 due c :
  consistent c0 -> since c0 c -> (forall x, In x due -> In x (timers c0)) ->
  since c0 (fold_left (fire h) due c) /\
  forall y, In y (timers (fold_left (fire h) due c)) -> In y (timers c0) ->
    In y (timers c) /\ ~ In y due.
Proof.
  intros H0. revert c. induction due as [|x due IH]; intros c Hs Hdue; cbn.
  - split; [exact Hs|]. tauto.
  - destruct (fire_since h c0 c x H0 Hs) as [Hs1 Hsub1]; [apply Hdue; left; reflexivity|].
    destruct (IH (fire h c x) Hs1) as [Hs2 Hsub2]; [intros; apply Hdue; right; assumption|].
    split; [exact Hs2|].
    intros y Hy Hy0. destruct (Hsub2 y Hy Hy0) as [Hy1 Hnd].
    destruct (Hsub1 y Hy1 Hy0) as [Hyc Hne].
    split; [exact Hyc|]. intros [->|Hin]; [congruence | tauto].
Qed.

Lemma since_refl c : consistent c -> since c c.
Proof. intros H. split; [exact H|]. split; [lia | auto]. Qed.

Lemma sound_elapse ms h c : sound c -> sound (elapse ms h c).
Proof.
  intros [Hc Hp]. unfold elapse. destruct (ms <? 0)%Z eqn:Ems; [split; assumption|].
  set (target := (now c + ms)%Z).
  set (due := merge_sort earlier _).
  assert (Hdue : forall x, In x due <-> In x (timers c) /\ (deadline x <= target)%Z).
  { intros x. rewrite <- Z.leb_le.
    rewrite <- (List.filter_In (fun x => (deadline x <=? target)%Z)).
    split; apply Permutation_in; [|symmetry]; apply merge_sort_Permutation. }
  destruct (fold_fire_since h c due c Hc (since_refl c Hc)) as [(Hcf & _ & Hold) Hsub].
  { intros x Hx. apply Hdue in Hx. tauto. }
  split.
  - eapply consistent_view; [|exact Hcf]. reflexivity.
  - intros x p cmd Hx Ha. change (In x (timers (fold_left (fire h) due c))) in Hx.
    cbn [now set_now].
    destruct (Hold x Hx) as [Hx0|[_ Hr]]; [|congruence].
    destruct (Hsub x Hx Hx0) as [_ Hnd].
    destruct (Z_lt_le_dec target (deadline x)) as [Hlt|Hle]; [exact Hlt|].
    exfalso. apply Hnd, Hdue. auto.
Qed.

Lemma sound_init t0 : sound (init t0).
Proof. split; [apply consistent_init|]. intros x p cmd []. Qed.

Lemma sound_step c e : sound c -> sound (step c e).
Proof.
  intros H. destruct e; cbn [step].
  - eapply sound_views; [apply startDaemon_view | exact H].
  - eapply sound_views; [apply stopDaemon_view | exact H].
  - apply sound_sendCommand, H.
  - apply sound_dispose, H.
  - apply sound_onStdout, H.
  - eapply sound_view; [| |exact H]; reflexivity.
  - eapply sound_views; [apply exit_view | exact H].
  - eapply sound_view; [| |exact H]; reflexivity.
  - apply sound_elapse, H.
Qed.

Lemma sound_run es c : sound c -> sound (run es c).
Proof.
  revert c. induction es as [|e es IH]; intros c H; cbn; [exact H|].
  apply IH, sound_step, H.
Qed.

Lemma reachable_sound c : reachable c -> sound c.
Proof. intros (t0 & es & ->). apply sound_run, sound_init. Qed.

Lemma client_run_app es1 es2 c : run (es1 ++ es2) c = run es2 (run es1 c).
Proof. unfold run. apply fold_left_app. Qed.


(** ** The logs only grow *)

Lemma extends_refl c : extends c c.
Proof. split; exists []; rewrite app_nil_r; reflexivity. Qed.

Lemma extends_trans c1 c2 c3 : extends c1 c2 -> extends c2 c3 -> extends c1 c3.
Proof.
  intros [[l1 H1] [m1 G1]] [[l2 H2] [m2 G2]]. split.
  - exists (l1 ++ l2). rewrite H2, H1, app_assoc. reflexivity.
  - exists (m1 ++ m2). rewrite G2, G1, app_assoc. reflexivity.
Qed.

Lemma extends_same c c' : settled c' = settled c -> stdin c' = stdin c -> extends c c'.
Proof.
  intros H1 H2. split; exists []; rewrite app_nil_r; assumption.
Qed.

Lemma extends_views c c' :
  (view c' = view c \/ view c' = view (setTimeout 1000 RestartDelay c)) -> extends c c'.
Proof.
  intros [H|H]; apply view_fields in H as (_ & _ & _ & _ & Hw & Hs);
    apply extends_same; assumption.
Qed.

Lemma extends_handleResponse response c c' :
  handleResponse response c = Some c' -> extends c c'.
Proof.
  intros H. apply handleResponse_cases in H as [(key & cb & _ & _ & ->)|(_ & Hv & _)].
  - split; [eexists; reflexivity | exists []; rewrite app_nil_r; reflexivity].
  - apply extends_views. left. exact Hv.
Qed.

Lemma extends_processLine c line : extends c (processLine c line).
Proof.
  unfold processLine. destruct (is_empty (trim line)); [apply extends_refl|].
  destruct (parse line) as [response|]; [|apply extends_same; reflexivity].
  destruct (handleResponse response c) as [c'|] eqn:E;
    [eapply extends_handleResponse; eauto | apply extends_same; reflexivity].
Qed.

Lemma extends_fold {A} (f : t -> A -> t) (l : list A) c :
  (forall c a, extends c (f c a)) -> extends c (fold_left f l c).
Proof.
  intros Hf. revert c. induction l as [|a l IH]; intros c; cbn; [apply extends_refl|].
  eapply extends_trans; [apply Hf | apply IH].
Qed.

Lemma extends_fire h c x : extends c (fire h c x).
Proof.
  unfold fire. destruct (armed (tid x) c); [|apply extends_refl].
  destruct (action x) as [p cmd|].
  - split; [eexists; reflexivity | exists []; rewrite app_nil_r; reflexivity].
  - eapply (extends_trans _ (set_now (deadline x) (clearTimeout (tid x) c)));
      [apply extends_same; reflexivity|].
    apply extends_views, restart_view.
Qed.

Lemma extends_step c e : extends c (step c e).
Proof.
  destruct e; cbn [step].
  - apply extends_views, startDaemon_view.
  - apply extends_views, stopDaemon_view.
  - unfold sendCommand.
    change (running (set_nextPromise (S (nextPromise c)) c)) with (running c).
    destruct (negb (running c)).
    + split; [eexists; reflexivity | exists []; rewrite app_nil_r; reflexivity].
    + split; [exists []; rewrite app_nil_r; reflexivity | eexists; reflexivity].
  - unfold dispose. destruct (running c); [|apply extends_same; reflexivity].
    destruct (kill_view sent c) as [Hv _].
    apply view_fields in Hv as (_ & _ & _ & _ & Hw & Hs).
    apply extends_same; assumption.
  - unfold onStdout, processMessages.
    eapply extends_trans; [|apply extends_fold; intros; apply extends_processLine].
    apply extends_same; reflexivity.
  - apply extends_same; reflexivity.
  - apply extends_views, exit_view.
  - apply extends_same; reflexivity.
  - unfold elapse. destruct (ms <? 0)%Z; [apply extends_refl|].
    eapply (extends_trans _ (fold_left (fire h) _ c));
      [apply extends_fold; intros; apply extends_fire|].
    apply extends_same; reflexivity.
Qed.

Lemma extends_run es c : extends c (run es c).
Proof. apply extends_fold. intros. apply extends_step. Qed.

Lemma extends_settlements p c c' :
  extends c c' -> exists l, settlements p c' = settlements p c ++ l.
Proof.
  intros [[l H] _]. unfold settlements. rewrite H, List.filter_app. eauto.
Qed.

(** ** The claim about request and response *)

Lemma sendCommand_written cmd c :
  running c = true ->
  stdin (sendCommand cmd c) =
  stdin c ++ [{| w_promise := nextPromise c; w_time := now c; w_command := cmd |}].
Proof.
  intros H. unfold sendCommand.
  change (running (set_nextPromise (S (nextPromise c)) c)) with (running c).
  rewrite H. reflexivity.
Qed.

(** C3.  A command sent to a running worker gets a promise that is
    settled at most once, and exactly once from ten seconds after the
    send on; the settlement is either a response carrying the command's
    id or the timeout, which comes exactly ten seconds after the send;
    once it is there, no entry of the request table leads to the
    promise, and nothing that happens afterwards (a late response
    included) settles it again. *)
Theorem command_completes_exactly_once (c : t) (cmd : PythonCommand) (es : list event) :
  reachable c -> running c = true ->
  let p := nextPromise c in
  let c' := run es (sendCommand cmd c) in
  length (settlements p c') <= 1 /\
  ((now c + 10000 <= now c')%Z -> length (settlements p c') = 1) /\
  (forall s, In s (settlements p c') ->
     (exists r, s_outcome s = Resolved r /\ prop r (js "id") = Some (JStr (id cmd))) \/
     (s_outcome s = TimedOut (command cmd) /\ s_time s = (now c + 10000)%Z)) /\
  (settlements p c' <> [] ->
     forall key cb, pendingRequests c' !! key = Some cb -> promise cb <> p) /\
  (settlements p c' <> [] ->
     forall e, settlements p (step c' e) = settlements p c').
Proof.
  intros Hr Hrun p c'.
  assert (Hs : sound c').
  { apply sound_run. apply (sound_step c (SendCommand cmd)). apply reachable_sound, Hr. }
  destruct Hs as [Hc Hp].
  set (w := {| w_promise := p; w_time := now c; w_command := cmd |}).
  assert (Hw : In w (stdin c')).
  { destruct (extends_run es (sendCommand cmd c)) as [_ [l Hl]]. fold c' in Hl.
    rewrite Hl, (sendCommand_written cmd c Hrun). apply in_or_app. left.
    apply in_or_app. right. left. reflexivity. }
  split; [apply (settled_once c' Hc)|]. split; [|split; [|split]].
  - intros Hlate.
    destruct (written_tracked c' Hc w Hw) as [Hne|(x & Hx & Ha & Hd)].
    + pose proof (settled_once c' Hc p) as Hle. cbn in Hne.
      destruct (settlements p c') as [|s [|s' l]]; cbn in *; [congruence | reflexivity | lia].
    + pose proof (Hp x _ _ Hx Ha) as Hlt. cbn in Hd. lia.
  - intros s Hs. apply settlements_In in Hs as [Hs Hps].
    pose proof (settled_right c' Hc s w Hs Hw Hps) as H. cbn in H.
    destruct (s_outcome s) as [r|k|]; [left; eauto | right | contradiction].
    destruct H as [-> ->]. auto.
  - intros Hne key cb Hk Heq.
    destruct (pending_armed c' Hc key cb Hk) as (x & cmd' & Hx & _ & Ha & _).
    destruct (timeouts_open c' Hc x _ _ Hx Ha) as [Hnone _].
    rewrite Heq in Hnone. contradiction.
  - intros Hne e.
    destruct (extends_settlements p _ _ (extends_step c' e)) as [l Hl].
    assert (Hs' : sound (step c' e)) by (apply sound_step; split; assumption).
    pose proof (settled_once _ (proj1 Hs') p) as Hle. rewrite Hl in Hle |- *.
    rewrite length_app in Hle.
    destruct (settlements p c') as [|s m]; [congruence|].
    destruct l; [apply app_nil_r | cbn in Hle; lia].
Qed.


Import Examples.

Lemma command_completes_exactly_once_witness :
  length (settlements (nextPromise started0)
            (run [Elapse 10000 obliging] (sendCommand update1 started0))) = 1.
Proof.
  assert (Hr : reachable started0) by (eexists _, _; reflexivity).
  assert (Hrun : running started0 = true) by (vm_compute; reflexivity).
  destruct (command_completes_exactly_once started0 update1 [Elapse 10000 obliging] Hr Hrun)
    as (_ & H & _).
  apply H. apply Z.leb_le. vm_compute. reflexivity.
Defined.

(** ** The line codec *)

Lemma split_nl_nonempty s : split_nl s <> [].
Proof.
  destruct s as [|c s]; cbn; [discriminate|].
  destruct (c =? LF)%N; [discriminate|]. destruct (split_nl s); discriminate.
Qed.

(** A line without a separator, then the separator: the line is the
    first piece. *)
Lemma split_nl_line l r :
  ~ In LF l -> split_nl (l ++ LF :: r) = l :: split_nl r.
Proof.
  induction l as [|c l IH]; intros H; cbn.
  - reflexivity.
  - destruct (N.eqb_spec c LF) as [->|_]; [exfalso; apply H; left; reflexivity|].
    rewrite IH by (intros Hin; apply H; right; exact Hin). reflexivity.
Qed.

Lemma trim_start_keeps c s :
  In c s -> is_space c = false -> In c (trim_start s).
Proof.
  induction s as [|d s IH]; cbn; [tauto|].
  intros [->|Hin] Hc.
  - rewrite Hc. left. reflexivity.
  - destruct (is_space d); [apply IH; assumption | right; exact Hin].
Qed.

Lemma trim_keeps c s : In c s -> is_space c = false -> In c (trim s).
Proof.
  intros Hin Hc. unfold trim. apply in_rev. rewrite rev_involutive.
  apply trim_start_keeps; [|exact Hc]. apply -> in_rev.
  apply trim_start_keeps; assumption.
Qed.

Lemma skip_ws_In c rest s : skip_ws s = c :: rest -> In c s.
Proof.
  induction s as [|d s IH]; cbn; [discriminate|].
  destruct (is_ws d); [intros H; right; apply IH, H|].
  intros H. injection H as -> _. left. reflexivity.
Qed.


Lemma after_first a lit c rest r :
  after (a :: lit) (c :: rest) = Some r -> a = c.
Proof. cbn. destruct (N.eqb_spec a c); [trivial | discriminate]. Qed.

Lemma space_not_digit c : is_space c = true -> is_digit c = false.
Proof.
  unfold is_space, is_digit. intros H.
  destruct ((48 <=? c)%N && (c <=? 57)%N) eqn:E; [|reflexivity].
  apply andb_true_iff in E as [E1 E2]. apply N.leb_le in E1, E2.
  repeat (apply orb_true_iff in H as [H|H]);
    try (apply andb_true_iff in H as [H1 H2]; apply N.leb_le in H1, H2; lia);
    try (apply N.eqb_eq in H; lia).
Qed.

(** A text that [JSON.parse] accepts begins, after JSON white space, with
    a character that [trim] does not strip. *)
Lemma parse_value_starts fuel s v r :
  parse_value fuel s = Some (v, r) ->
  exists c rest, skip_ws s = c :: rest /\ is_space c = false.
Proof.
  destruct fuel as [|fuel]; [discriminate|]. cbn [parse_value].
  destruct (skip_ws s) as [|c rest] eqn:Es; [discriminate|].
  intros H. exists c, rest. split; [reflexivity|].
  destruct (is_space c) eqn:Ec; [exfalso | reflexivity].
  destruct (c =? chr "{")%N eqn:E1;
    [apply N.eqb_eq in E1; subst c; vm_compute in Ec; discriminate|].
  destruct (c =? chr "[")%N eqn:E2;
    [apply N.eqb_eq in E2; subst c; vm_compute in Ec; discriminate|].
  destruct (c =? quote)%N eqn:E3;
    [apply N.eqb_eq in E3; subst c; vm_compute in Ec; discriminate|].
  destruct (c =? chr "-")%N eqn:E4;
    [apply N.eqb_eq in E4; subst c; vm_compute in Ec; discriminate|].
  rewrite (space_not_digit c Ec) in H. cbn [orb] in H.
  destruct (after (js "true") (c :: rest)) eqn:A1;
    [apply (after_first 116%N (js "rue")) in A1; subst c; vm_compute in Ec; discriminate|].
  destruct (after (js "false") (c :: rest)) eqn:A2;
    [apply (after_first 102%N (js "alse")) in A2; subst c; vm_compute in Ec; discriminate|].
  destruct (after (js "null") (c :: rest)) eqn:A3;
    [apply (after_first 110%N (js "ull")) in A3; subst c; vm_compute in Ec; discriminate|].
  discriminate.
Qed.

Lemma parse_not_blank s v : parse s = Some v -> is_empty (trim s) = false.
Proof.
  unfold parse. destruct (parse_value _ s) as [[v' r]|] eqn:E; [|discriminate].
  intros _. apply parse_value_starts in E as (c & rest & Hs & Hc).
  pose proof (trim_keeps c s (skip_ws_In _ _ _ Hs) Hc) as Hin.
  destruct (trim s); [contradiction | reflexivity].
Qed.


Lemma set_messageBuffer_same c : set_messageBuffer (messageBuffer c) c = c.
Proof. destruct c; reflexivity. Qed.

(** [handleResponse] neither reads nor writes the message buffer. *)
Lemma handleResponse_set_buffer b response c :
  handleResponse response (set_messageBuffer b c) =
  option_map (set_messageBuffer b) (handleResponse response c).
Proof.
  unfold handleResponse.
  change (find_callback response (set_messageBuffer b c)) with (find_callback response c).
  destruct response; [reflexivity|..];
    (destruct (find_callback _ c) as [[key cb]|]; [reflexivity|];
     destruct (has_type _ "data"); [reflexivity|];
     destruct (has_type _ "error"); reflexivity).
Qed.


Lemma processLine_set_buffer b c line :
  processLine (set_messageBuffer b c) line = set_messageBuffer b (processLine c line).
Proof.
  unfold processLine. destruct (is_empty (trim line)); [reflexivity|].
  destruct (parse line) as [response|]; [|reflexivity].
  rewrite handleResponse_set_buffer.
  destruct (handleResponse response c); reflexivity.
Qed.

Lemma fold_lines_set_buffer b lines c :
  fold_left processLine lines (set_messageBuffer b c) =
  set_messageBuffer b (fold_left processLine lines c).
Proof.
  revert c. induction lines as [|l lines IH]; intros c; cbn; [reflexivity|].
  rewrite processLine_set_buffer. apply IH.
Qed.




(** C6, the failing input.  The message is delivered whole and cut
    inside the three-byte character of its name: the whole message
    carries U+80A1, the cut one carries three replacement characters. *)
Theorem split_inside_character_garbles :
  push_head ++ push_tail = push_whole /\
  bus (run [Stdout push_whole] started0)
    = [Some (JArr [JObj [(js "name", JStr [32929%N])]])] /\
  bus (run [Stdout push_head; Stdout push_tail] started0)
    = [Some (JArr [JObj [(js "name", JStr [65533%N; 65533%N; 65533%N])]])].
Proof. vm_compute. repeat split. Qed.

(** ** Further properties: the line codec *)

Lemma removelast_cons {A} (x : A) (l : list A) :
  l <> [] -> List.removelast (x :: l) = x :: List.removelast l.
Proof. destruct l; [congruence | reflexivity]. Qed.

Lemma last_cons {A} (x d : A) (l : list A) :
  l <> [] -> List.last (x :: l) d = List.last l d.
Proof. destruct l; [congruence | reflexivity]. Qed.

Lemma last_app_ne {A} (l1 l2 : list A) (d : A) :
  l2 <> [] -> List.last (l1 ++ l2) d = List.last l2 d.
Proof.
  intros H. induction l1 as [|x l1 IH]; [reflexivity|].
  cbn [app]. rewrite last_cons; [exact IH|].
  destruct l1; [exact H | discriminate].
Qed.

(** Splitting a text that arrives in two parts: the pieces completed by
    the first part, then the split of what the first part left over
    followed by the second part. *)
Lemma split_nl_app x y :
  split_nl (x ++ y) =
  List.removelast (split_nl x) ++ split_nl (List.last (split_nl x) [] ++ y).
Proof.
  induction x as [|c x IH]; [reflexivity|].
  cbn [app split_nl]. destruct (c =? LF)%N eqn:E.
  - rewrite removelast_cons, last_cons by apply split_nl_nonempty.
    rewrite IH. reflexivity.
  - rewrite IH. pose proof (split_nl_nonempty x) as Hne.
    destruct (split_nl x) as [|p [|q ps]]; [congruence| |].
    + cbn [List.removelast List.last app split_nl]. rewrite E. reflexivity.
    + reflexivity.
Qed.

Lemma split_nl_pieces s : List.Forall (fun p => ~ In LF p) (split_nl s).
Proof.
  induction s as [|c s IH]; cbn [split_nl].
  - constructor; [intros [] | constructor].
  - destruct (N.eqb_spec c LF) as [->|Hne].
    + constructor; [intros [] | exact IH].
    + destruct (split_nl s) as [|p ps]; [constructor; [|constructor]|].
      * intros [H|[]]. congruence.
      * inversion IH; subst. constructor; [|assumption].
        intros [H|H]; [congruence | contradiction].
Qed.

Lemma last_Forall {A} (P : A -> Prop) (l : list A) (d : A) :
  List.Forall P l -> P d -> P (List.last l d).
Proof.
  induction 1 as [|x l Hx Hl IH]; intros Hd; [exact Hd|].
  destruct l; [exact Hx | apply IH, Hd].
Qed.

(** The text handed to [processMessages] in two parts gives what it
    gives in one. *)
Lemma text_in_two_parts t1 t2 c :
  let c1 := processMessages (set_messageBuffer (messageBuffer c ++ t1) c) in
  processMessages (set_messageBuffer (messageBuffer c1 ++ t2) c1) =
  processMessages (set_messageBuffer (messageBuffer c ++ t1 ++ t2) c).
Proof.
  cbn zeta. unfold processMessages. cbn [messageBuffer set_messageBuffer].
  set (B := messageBuffer c).
  rewrite (app_assoc B t1 t2), (split_nl_app (B ++ t1) t2).
  set (S1 := split_nl (B ++ t1)).
  rewrite !fold_lines_set_buffer. cbn [messageBuffer set_messageBuffer].
  set (S2 := split_nl (List.last S1 [] ++ t2)).
  assert (H2 : S2 <> []) by apply split_nl_nonempty.
  assert (Hr : List.removelast (List.removelast S1 ++ S2)
               = List.removelast S1 ++ List.removelast S2).
  { apply removelast_app. exact H2. }
  assert (Hl : List.last (List.removelast S1 ++ S2) [] = List.last S2 []).
  { apply last_app_ne. exact H2. }
  rewrite Hr, Hl, fold_left_app. reflexivity.
Qed.

Lemma decode_from_idle st bs :
  Utf8.needed st = 0 -> Utf8.decode_from st bs = Utf8.decode_from Utf8.idle bs.
Proof.
  intros H. destruct bs as [|b bs]; cbn [Utf8.decode_from].
  - rewrite H. reflexivity.
  - unfold Utf8.feed. rewrite H. reflexivity.
Qed.

Lemma decode_from_app st x y :
  Utf8.needed (Utf8.state_after st x) = 0 ->
  Utf8.decode_from st (x ++ y) = Utf8.decode_from st x ++ Utf8.decode_from Utf8.idle y.
Proof.
  revert st. induction x as [|b x IH]; intros st H;
    cbn [app Utf8.decode_from Utf8.state_after] in *.
  - rewrite H. cbn [app]. apply decode_from_idle, H.
  - destruct (Utf8.feed st b) as [st' out]. cbn [fst] in H.
    rewrite (IH st' H), app_assoc. reflexivity.
Qed.

(** A chunk that ends between two characters decodes by itself. *)
Lemma toString_app a b :
  Utf8.ends_clean a = true ->
  Utf8.toString (a ++ b) = Utf8.toString a ++ Utf8.toString b.
Proof.
  unfold Utf8.ends_clean, Utf8.toString. intros H. rewrite map_app.
  apply decode_from_app.
  destruct (Utf8.needed (Utf8.state_after Utf8.idle (map Byte.to_N a)));
    [reflexivity|discriminate].
Qed.

Lemma state_after_ascii st bs :
  Utf8.needed st = 0 -> forallb (fun b => (b <=? 127)%N) bs = true ->
  Utf8.needed (Utf8.state_after st bs) = 0 /\ Utf8.decode_from st bs = bs.
Proof.
  revert st. induction bs as [|b bs IH]; intros st Hst Hbs;
    cbn [Utf8.state_after Utf8.decode_from].
  - rewrite Hst. auto.
  - cbn in Hbs. apply andb_prop in Hbs as [Hb Hbs].
    unfold Utf8.feed. rewrite Hst. unfold Utf8.lead. rewrite Hb. cbn [fst].
    destruct (IH Utf8.idle eq_refl Hbs) as [H1 H2]. rewrite H2. auto.
Qed.

Lemma forallb_ascii (a : list byte) :
  forallb (fun b => (b <=? 127)%N) (map Byte.to_N a) = forallb Utf8.is_ascii a.
Proof. induction a as [|x a IH]; [reflexivity|]. cbn. rewrite IH. reflexivity. Qed.

Lemma ascii_ends_clean a : forallb Utf8.is_ascii a = true -> Utf8.ends_clean a = true.
Proof.
  intros H. unfold Utf8.ends_clean.
  destruct (state_after_ascii Utf8.idle (map Byte.to_N a) eq_refl) as [H1 _].
  - rewrite forallb_ascii. exact H.
  - rewrite H1. reflexivity.
Qed.

Lemma forallb_firstn {A} (f : A -> bool) n (l : list A) :
  forallb f l = true -> forallb f (firstn n l) = true.
Proof.
  revert n. induction l as [|x l IH]; intros [|n] H; cbn in *; try reflexivity.
  apply andb_prop in H as [Hx Hl]. rewrite Hx. cbn. apply IH, Hl.
Qed.

Lemma onStdout_app a b c :
  Utf8.ends_clean a = true -> onStdout b (onStdout a c) = onStdout (a ++ b) c.
Proof.
  intros H. unfold onStdout. rewrite (toString_app a b H).
  apply text_in_two_parts.
Qed.

(** X1.  The worker's output may arrive in any number of chunks.  As long as
    every chunk but the last ends between two characters, the client
    ends in the same state (the same promises settled with the same
    responses, the same data published, the same lines on the console,
    the same fragment kept in the buffer) as if the bytes had come in
    one chunk. *)
Theorem chunks_cut_between_characters_reassemble
  (chunks : list (list byte)) (final : list byte) (c : t) :
  Forall (fun a => Utf8.ends_clean a = true) chunks ->
  run (map Stdout (chunks ++ [final])) c = step c (Stdout (concat chunks ++ final)).
Proof.
  intros H. revert c. induction H as [|a chunks Ha _ IH]; intros c.
  - reflexivity.
  - cbn [app map run fold_left concat].
    fold (run (map Stdout (chunks ++ [final])) (step c (Stdout a))).
    rewrite IH. cbn [step]. rewrite <- app_assoc. apply onStdout_app, Ha.
Qed.

Lemma chunks_cut_between_characters_reassemble_witness :
  run (map Stdout [bytes "{'type':'da"; bytes "ta','data':[]}"; newline; bytes "{'ty"])
      started0
  = step started0 (Stdout (bytes "{'type':'data','data':[]}" ++ newline ++ bytes "{'ty")).
Proof.
  pose proof (chunks_cut_between_characters_reassemble
                [bytes "{'type':'da"; bytes "ta','data':[]}"; newline] (bytes "{'ty")
                started0) as H.
  assert (Hc : Forall (fun a => Utf8.ends_clean a = true)
                 [bytes "{'type':'da"; bytes "ta','data':[]}"; newline]).
  { repeat constructor. }
  specialize (H Hc). vm_compute in H. vm_compute. exact H.
Defined.

(** X2.  A stream of ASCII bytes may be cut at any offset: each byte decodes
    to itself, and handling the two parts one after the other gives the
    state that handling the whole gives. *)
Theorem ascii_output_may_be_cut_anywhere (data : list byte) (n : nat) (c : t) :
  forallb Utf8.is_ascii data = true ->
  Utf8.toString data = map Byte.to_N data /\
  run [Stdout (firstn n data); Stdout (skipn n data)] c = step c (Stdout data).
Proof.
  intros H. split.
  - unfold Utf8.toString.
    apply (state_after_ascii Utf8.idle (map Byte.to_N data) eq_refl).
    rewrite forallb_ascii. exact H.
  - cbn [run fold_left step].
    rewrite onStdout_app by (apply ascii_ends_clean, forallb_firstn, H).
    rewrite firstn_skipn. reflexivity.
Qed.

Lemma ascii_output_may_be_cut_anywhere_witness :
  run [Stdout (firstn 7 (bytes "{'type':'data','data':[]}" ++ newline));
       Stdout (skipn 7 (bytes "{'type':'data','data':[]}" ++ newline))] started0
  = step started0 (Stdout (bytes "{'type':'data','data':[]}" ++ newline)).
Proof.
  apply (ascii_output_may_be_cut_anywhere
           (bytes "{'type':'data','data':[]}" ++ newline) 7 started0).
  vm_compute. reflexivity.
Defined.

(** ** Further properties: the message buffer *)

(** Only the [stdout] handler touches the message buffer. *)
Lemma handleProcessExit_buffer c : messageBuffer (handleProcessExit c) = messageBuffer c.
Proof. unfold handleProcessExit. destruct (Nat.leb _ _); reflexivity. Qed.

Lemma onExit_buffer code signal c : messageBuffer (onExit code signal c) = messageBuffer c.
Proof.
  unfold onExit. destruct code as [n|]; [|reflexivity].
  destruct (negb _); [|reflexivity]. rewrite handleProcessExit_buffer. reflexivity.
Qed.

Lemma kill_buffer sent c : messageBuffer (kill sent c) = messageBuffer c.
Proof.
  unfold kill. destruct (pythonProcess c) as [p|]; [destruct (life p), sent|]; reflexivity.
Qed.

Lemma set_life_buffer l c : messageBuffer (set_life l c) = messageBuffer c.
Proof. unfold set_life. destruct (pythonProcess c); reflexivity. Qed.

Lemma exit_buffer code signal c : messageBuffer (exit code signal c) = messageBuffer c.
Proof.
  unfold exit. destruct (alive c); [|reflexivity].
  rewrite onExit_buffer. apply set_life_buffer.
Qed.

Lemma stopDaemon_buffer h c : messageBuffer (fst (stopDaemon h c)) = messageBuffer c.
Proof.
  unfold stopDaemon. destruct (negb (running c)); [reflexivity|].
  destruct (alive c); [|apply kill_buffer].
  destruct (exit_event h) as [[code signal]|]; cbn [fst].
  - cbn [messageBuffer set_isConnected set_pythonProcess].
    rewrite onExit_buffer. apply kill_buffer.
  - rewrite set_life_buffer. apply kill_buffer.
Qed.

Lemma startDaemon_buffer h c : messageBuffer (fst (startDaemon h c)) = messageBuffer c.
Proof.
  unfold startDaemon.
  assert (H : exists c1 stopped,
             (if running c then stopDaemon h c else (c, true)) = (c1, stopped) /\
             messageBuffer c1 = messageBuffer c).
  { destruct (running c).
    - destruct (stopDaemon h c) as [c1 stopped] eqn:E. exists c1, stopped.
      split; [reflexivity|]. pose proof (stopDaemon_buffer h c) as Hv.
      rewrite E in Hv. exact Hv.
    - exists c, true. auto. }
  destruct H as (c1 & stopped & -> & Hb).
  destruct (negb stopped); [exact Hb|].
  destruct (spawn_ok h); exact Hb.
Qed.

Lemma restart_buffer h c : messageBuffer (restart h c) = messageBuffer c.
Proof.
  unfold restart. pose proof (startDaemon_buffer h c) as H.
  destruct (startDaemon h c) as [c1 [b|]]; exact H.
Qed.

Lemma fire_buffer h c x : messageBuffer (fire h c x) = messageBuffer c.
Proof.
  unfold fire. destruct (armed (tid x) c); [|reflexivity].
  destruct (action x); [reflexivity|]. rewrite restart_buffer. reflexivity.
Qed.

Lemma step_buffer c e :
  messageBuffer (step c e) =
  match e with
  | Stdout data => List.last (split_nl (messageBuffer c ++ Utf8.toString data)) []
  | _ => messageBuffer c
  end.
Proof.
  destruct e as [h|h|cmd|sent|data|data|code signal| |ms h]; cbn [step].
  - apply startDaemon_buffer.
  - apply stopDaemon_buffer.
  - unfold sendCommand. destruct (negb _); reflexivity.
  - unfold dispose. destruct (running c); [apply kill_buffer | reflexivity].
  - unfold onStdout, processMessages. rewrite fold_lines_set_buffer. reflexivity.
  - reflexivity.
  - apply exit_buffer.
  - reflexivity.
  - unfold elapse. destruct (ms <? 0)%Z; [reflexivity|].
    cbn [messageBuffer set_now].
    generalize (merge_sort earlier
                  (List.filter (fun x => (deadline x <=? now c + ms)%Z) (timers c))).
    intros due. revert c. induction due as [|x due IH]; intros c; [reflexivity|].
    cbn [fold_left]. rewrite IH. apply fire_buffer.
Qed.

(** X3.  The buffer never holds a complete line.  Whatever has happened, the
    text kept in [messageBuffer] contains no line feed: every line is
    handled by the [stdout] event that completes it, and what is kept
    is the text after the last line feed received. *)
Theorem buffer_never_holds_a_complete_line (c : t) (data : list byte) :
  reachable c ->
  ~ In LF (messageBuffer c) /\
  messageBuffer (step c (Stdout data))
    = List.last (split_nl (messageBuffer c ++ Utf8.toString data)) [].
Proof.
  intros (t0 & es & ->). split; [|apply step_buffer].
  induction es as [|e es IH] using rev_ind; [intros []|].
  rewrite client_run_app. cbn [run fold_left]. rewrite step_buffer.
  destruct e as [h|h|cmd|sent|d|d|code signal| |ms h]; try exact IH.
  apply last_Forall; [apply split_nl_pieces | intros []].
Qed.

Lemma buffer_never_holds_a_complete_line_witness :
  messageBuffer (step started0
    (Stdout (bytes "{'type':'data','data':[]}" ++ newline ++ bytes "{'ty")))
  = text "{'ty".
Proof.
  assert (Hr : reachable started0) by (eexists _, _; reflexivity).
  destruct (buffer_never_holds_a_complete_line started0
              (bytes "{'type':'data','data':[]}" ++ newline ++ bytes "{'ty") Hr) as [_ H].
  rewrite H. vm_compute. reflexivity.
Defined.

(** ** Further properties: what becomes of one line *)

(** One complete line arriving on an empty buffer is parsed and handed
    to [handleResponse]; if that throws, the [catch] of
    [processMessages] logs the line. *)
Lemma one_line c data line response :
  messageBuffer c = [] ->
  Utf8.toString data = line ++ [LF] -> ~ In LF line ->
  parse line = Some response ->
  onStdout data c =
  match handleResponse response c with
  | Some c' => c'
  | None => log (ErrorParse line) c
  end.
Proof.
  intros Hbuf Htext Hline Hparse.
  unfold onStdout, processMessages. cbn [messageBuffer set_messageBuffer].
  rewrite Hbuf, Htext. cbn [app].
  rewrite (split_nl_line line [] Hline).
  cbn [split_nl List.last List.removelast fold_left].
  replace (set_messageBuffer [] (set_messageBuffer (line ++ [LF]) c)) with c
    by (rewrite <- (set_messageBuffer_same c) at 1; rewrite Hbuf; reflexivity).
  unfold processLine. rewrite (parse_not_blank line response Hparse), Hparse.
  reflexivity.
Qed.


(** X4.  A line that is valid JSON but not an object.  [null] makes
    [handleResponse] throw on [response.id]; the [catch] meant for
    [JSON.parse] reports it as a line that could not be parsed.  A
    number, a string, a boolean or an array has no [id] and no [type]:
    it is dropped without a trace. *)
Theorem line_that_is_not_an_object
  (c : t) (data : list byte) (line : jsstring) (response : value) :
  messageBuffer c = [] ->
  Utf8.toString data = line ++ [LF] -> ~ In LF line ->
  parse line = Some response ->
  match response with
  | JNull => step c (Stdout data) = log (ErrorParse line) c
  | JObj _ => True
  | _ => step c (Stdout data) = c
  end.
Proof.
  intros Hbuf Htext Hline Hparse. cbn [step].
  rewrite (one_line c data line response Hbuf Htext Hline Hparse).
  destruct response; first [reflexivity | exact I].
Qed.

Lemma line_that_is_not_an_object_witness :
  step started0 (Stdout (bytes "null" ++ newline))
    = log (ErrorParse (text "null")) started0 /\
  step started0 (Stdout (bytes "[1,2]" ++ newline)) = started0.
Proof.
  assert (Hbuf : messageBuffer started0 = []) by (vm_compute; reflexivity).
  split.
  - apply (line_that_is_not_an_object started0 (bytes "null" ++ newline)
             (text "null") JNull Hbuf).
    + vm_compute. reflexivity.
    + vm_compute. intuition discriminate.
    + vm_compute. reflexivity.
  - assert (P : parse (text "[1,2]") = Some (JArr [JNum 1; JNum 2]))
      by (vm_compute; reflexivity).
    apply (line_that_is_not_an_object started0 (bytes "[1,2]" ++ newline)
             (text "[1,2]") (JArr [JNum 1; JNum 2]) Hbuf); [| |exact P].
    + vm_compute. reflexivity.
    + vm_compute. intuition discriminate.
Defined.



(** ** Further properties: the worker process *)

(** What the supervisor looks at. *)
Lemma handleProcessExit_process c :
  pythonProcess (handleProcessExit c) = pythonProcess c /\
  nextPid (handleProcessExit c) = nextPid c /\
  isConnected (handleProcessExit c) = isConnected c /\
  maxRestarts (handleProcessExit c) = maxRestarts c /\
  restartCount c <= restartCount (handleProcessExit c).
Proof.
  unfold handleProcessExit. destruct (Nat.leb _ _); cbn; repeat split; lia.
Qed.

Lemma onExit_process code signal c :
  pythonProcess (onExit code signal c) = pythonProcess c /\
  nextPid (onExit code signal c) = nextPid c /\
  isConnected (onExit code signal c) = false /\
  maxRestarts (onExit code signal c) = maxRestarts c /\
  restartCount c <= restartCount (onExit code signal c).
Proof.
  unfold onExit. destruct code as [n|]; [|cbn; repeat split; lia].
  destruct (negb _); [|cbn; repeat split; lia].
  apply (handleProcessExit_process (log (LogExit (Some n) signal) (set_isConnected false c))).
Qed.

Lemma kill_process sent c :
  nextPid (kill sent c) = nextPid c /\ maxRestarts (kill sent c) = maxRestarts c /\
  restartCount (kill sent c) = restartCount c /\ shown (kill sent c) = shown c.
Proof.
  unfold kill. destruct (pythonProcess c) as [p|]; [destruct (life p), sent|]; cbn; auto.
Qed.

Lemma set_life_process l c :
  nextPid (set_life l c) = nextPid c /\ maxRestarts (set_life l c) = maxRestarts c /\
  restartCount (set_life l c) = restartCount c /\ shown (set_life l c) = shown c /\
  isConnected (set_life l c) = isConnected c /\ timers (set_life l c) = timers c /\
  running (set_life l c) = running c.
Proof.
  unfold set_life, running. destruct (pythonProcess c) as [p|] eqn:E; cbn;
    rewrite ?E; repeat split.
Qed.


(** X6.  The guard of [sendCommand] looks at [pythonProcess] and at its
    [killed] flag, and at nothing else.  With no worker, or one this
    client has killed, the command is refused at once: the promise is
    rejected, nothing is written, no timeout is armed and the request
    table is not touched.  But a worker that has exited by itself is
    still in [pythonProcess] with [killed] unset: the client reports
    itself disconnected, and yet a command sent now is not refused;
    [stdin.write] is called on the dead worker's pipe and the promise
    is left to its timeout. *)
Theorem sendCommand_does_not_see_a_crash
  (c : t) (cmd : PythonCommand) (code : option Z) (signal : option string) :
  (running c = false ->
     settled (step c (SendCommand cmd)) =
       settled c ++ [{| s_promise := nextPromise c; s_outcome := NotRunning;
                        s_time := now c |}] /\
     stdin (step c (SendCommand cmd)) = stdin c /\
     timers (step c (SendCommand cmd)) = timers c /\
     pendingRequests (step c (SendCommand cmd)) = pendingRequests c) /\
  (running c = true -> alive c = true ->
     let crashed := step c (Exit code signal) in
     running crashed = true /\ isDaemonConnected crashed = false /\
     stdin (step crashed (SendCommand cmd)) =
       stdin c ++ [{| w_promise := nextPromise c; w_time := now c; w_command := cmd |}] /\
     settled (step crashed (SendCommand cmd)) = settled c).
Proof.
  split.
  - intros H. cbn [step]. unfold sendCommand.
    change (running (set_nextPromise (S (nextPromise c)) c)) with (running c).
    rewrite H. cbn. auto.
  - intros H Ha crashed. unfold crashed. cbn [step].
    assert (Hx : exit code signal c = onExit code signal (set_life Exited c))
      by (unfold exit; rewrite Ha; reflexivity).
    destruct (onExit_process code signal (set_life Exited c)) as (Hp & _ & Hc & _).
    destruct (exit_view code signal c) as [Hv Hn].
    destruct (set_life_process Exited c) as (_ & _ & _ & _ & _ & _ & Hl).
    assert (Hrun : running (exit code signal c) = true).
    { rewrite Hx. unfold running. rewrite Hp. fold (running (set_life Exited c)).
      rewrite Hl. exact H. }
    assert (Hf : nextPromise (exit code signal c) = nextPromise c /\
                 stdin (exit code signal c) = stdin c /\
                 settled (exit code signal c) = settled c).
    { destruct Hv as [Hv|Hv]; apply view_fields in Hv as (_ & _ & _ & A & B & C); auto. }
    destruct Hf as (Hq & Hw & Hs).
    split; [exact Hrun|].
    split; [unfold isDaemonConnected; rewrite Hx, Hc; reflexivity|].
    rewrite (sendCommand_written cmd _ Hrun), Hq, Hw, Hn.
    split; [reflexivity|].
    unfold sendCommand.
    change (running (set_nextPromise (S (nextPromise (exit code signal c)))
                       (exit code signal c)))
      with (running (exit code signal c)).
    rewrite Hrun. cbn. exact Hs.
Qed.

Lemma sendCommand_does_not_see_a_crash_witness :
  isDaemonConnected (step started0 (Exit (Some 1%Z) None)) = false /\
  stdin (step (step started0 (Exit (Some 1%Z) None)) (SendCommand update1))
  = [{| w_promise := 0; w_time := 0; w_command := update1 |}].
Proof.
  destruct (sendCommand_does_not_see_a_crash started0 update1 (Some 1%Z) None) as [_ H].
  assert (Hrun : running started0 = true) by (vm_compute; reflexivity).
  assert (Ha : alive started0 = true) by (vm_compute; reflexivity).
  destruct (H Hrun Ha) as (_ & A & B & _).
  split; [exact A|]. rewrite B. vm_compute. reflexivity.
Defined.

Lemma stopDaemon_process h c :
  nextPid (fst (stopDaemon h c)) = nextPid c /\
  maxRestarts (fst (stopDaemon h c)) = maxRestarts c /\
  restartCount c <= restartCount (fst (stopDaemon h c)) /\
  (snd (stopDaemon h c) = true -> running (fst (stopDaemon h c)) = false) /\
  (running c = true -> snd (stopDaemon h c) = true ->
   pythonProcess (fst (stopDaemon h c)) = None /\
   isConnected (fst (stopDaemon h c)) = false).
Proof.
  unfold stopDaemon. destruct (running c) eqn:Hrun; cbn [negb fst snd].
  - destruct (kill_process (signal_sent h) c) as (K1 & K2 & K3 & _).
    destruct (alive c); [|cbn [fst snd]; repeat split; try congruence; try lia;
                           intros; discriminate].
    destruct (exit_event h) as [[code signal]|]; cbn [fst snd].
    + destruct (onExit_process code signal (kill (signal_sent h) c)) as (_ & E2 & _ & E4 & E5).
      cbn. repeat split; try congruence; try lia.
    + destruct (set_life_process Lingering (kill (signal_sent h) c)) as (L1 & L2 & L3 & _).
      repeat split; try congruence; try lia; try discriminate.
  - repeat split; try lia; try assumption; try discriminate; auto.
Qed.

(** What [stopDaemon] leaves when the worker answers: the exit handler
    has run on the worker that was signalled, and the worker is gone. *)
Lemma stopDaemon_resolves h c :
  running c = true -> alive c = true -> exit_event h <> None ->
  exists code signal,
    stopDaemon h c =
    (set_isConnected false
       (set_pythonProcess None (onExit code signal (kill (signal_sent h) c))), true).
Proof.
  intros Hrun Ha He. unfold stopDaemon. rewrite Hrun, Ha. cbn [negb].
  destruct (exit_event h) as [[code signal]|]; [eauto | congruence].
Qed.

Lemma onExit_shown code signal c :
  exists l, shown (onExit code signal c) = shown c ++ l.
Proof.
  unfold onExit. destruct code as [n|]; cbn.
  - destruct (negb (n =? 0)%Z); cbn.
    + unfold handleProcessExit. cbn. destruct (Nat.leb _ _); cbn; eauto.
    + exists []. rewrite app_nil_r. reflexivity.
  - exists []. rewrite app_nil_r. reflexivity.
Qed.

(** X7.  [startDaemon] when the host gives it a process.  Whatever was
    running before has been stopped; the new worker has a fresh pid and
    is not killed, the client is connected, and the restart counter is
    back at zero, however many restarts came before.  (A worker that
    was running must be one that can still exit, and its 'exit' event
    must arrive: otherwise [startDaemon] waits for ever.) *)
Theorem startDaemon_success_resets_the_supervisor (h : host_answer) (c : t) :
  spawn_ok h = true ->
  (running c = true -> alive c = true /\ exit_event h <> None) ->
  let c' := step c (StartDaemon h) in
  snd (startDaemon h c) = Some true /\
  pythonProcess c' = Some {| pid := nextPid c; killed := false; life := Alive |} /\
  nextPid c' = S (nextPid c) /\
  isDaemonConnected c' = true /\ restartCount c' = 0 /\
  exists l, shown c' = shown c ++ l ++ [InfoDaemonStarted].
Proof.
  intros Hspawn Hexit c'. unfold c'. cbn [step]. unfold startDaemon.
  destruct (running c) eqn:Hrun.
  - destruct (Hexit eq_refl) as [Ha He].
    destruct (stopDaemon_process h c) as (S1 & _).
    destruct (stopDaemon_resolves h c Hrun Ha He) as (code & signal & E).
    rewrite E in *. cbn [fst snd negb] in *. rewrite Hspawn. cbn [fst snd].
    cbn in S1. cbn. rewrite S1.
    repeat split.
    destruct (kill_process (signal_sent h) c) as (_ & _ & _ & K4).
    destruct (onExit_shown code signal (kill (signal_sent h) c)) as [l Hl].
    exists l. rewrite Hl, K4, <- app_assoc. reflexivity.
  - cbn [negb]. rewrite Hspawn. cbn. repeat split. exists []. reflexivity.
Qed.

Lemma startDaemon_success_resets_the_supervisor_witness :
  restartCount (run [StopDaemon resentful] started0) = 1 /\
  restartCount (step (run [StopDaemon resentful] started0) (StartDaemon obliging)) = 0 /\
  isDaemonConnected (step (run [StopDaemon resentful] started0) (StartDaemon obliging))
    = true.
Proof.
  assert (Hrun : running (run [StopDaemon resentful] started0) = true ->
                 alive (run [StopDaemon resentful] started0) = true /\
                 exit_event obliging <> None)
    by (vm_compute; intros H; discriminate H).
  pose proof (startDaemon_success_resets_the_supervisor obliging
                (run [StopDaemon resentful] started0) eq_refl Hrun) as H.
  destruct H as (_ & _ & _ & A & B & _).
  split; [vm_compute; reflexivity|]. split; [exact B | exact A].
Defined.

(** X8.  [startDaemon] when [spawn] throws.  The call reports [false] and
    shows the failure, but it is not without effect: a worker that was
    running has been stopped first and is gone, the client is left with
    no process at all, and the restart counter is not reset.  The
    automatic restart does not look at the result: it announces that
    the worker has been restarted all the same. *)
Theorem failed_spawn_leaves_no_worker (h : host_answer) (c : t) :
  spawn_ok h = false ->
  (running c = true -> alive c = true /\ exit_event h <> None) ->
  let c' := step c (StartDaemon h) in
  snd (startDaemon h c) = Some false /\
  running c' = false /\
  (running c = true -> pythonProcess c' = None /\ isConnected c' = false) /\
  nextPid c' = nextPid c /\
  restartCount c <= restartCount c' /\
  (exists l, shown c' = shown c ++ l ++ [ErrorDaemonStartFailed]) /\
  shown (restart h c) = shown c' ++ [InfoDaemonRestarted].
Proof.
  intros Hspawn Hexit c'.
  assert (Hs : exists c1,
            (if running c then stopDaemon h c else (c, true)) = (c1, true) /\
            running c1 = false /\
            (running c = true -> pythonProcess c1 = None /\ isConnected c1 = false) /\
            nextPid c1 = nextPid c /\ restartCount c <= restartCount c1 /\
            exists l, shown c1 = shown c ++ l).
  { destruct (running c) eqn:Hrun.
    - destruct (Hexit eq_refl) as [Ha He].
      pose proof (stopDaemon_process h c) as (S1 & _ & S3 & S4 & S5).
      destruct (stopDaemon_resolves h c Hrun Ha He) as (code & signal & E).
      assert (Hsnd : snd (stopDaemon h c) = true) by (rewrite E; reflexivity).
      exists (fst (stopDaemon h c)).
      split; [rewrite <- Hsnd; destruct (stopDaemon h c); reflexivity|].
      split; [apply S4, Hsnd|]. split; [intros _; apply S5; [exact Hrun|exact Hsnd]|].
      split; [exact S1|]. split; [exact S3|].
      rewrite E. cbn.
      destruct (kill_process (signal_sent h) c) as (_ & _ & _ & K4).
      destruct (onExit_shown code signal (kill (signal_sent h) c)) as [l Hl].
      exists l. rewrite Hl, K4. reflexivity.
    - exists c. repeat split; try assumption; try lia; try discriminate.
      exists []. rewrite app_nil_r. reflexivity. }
  destruct Hs as (c1 & E & R1 & R2 & R3 & R4 & l & R5).
  assert (Hstart : startDaemon h c = (show ErrorDaemonStartFailed c1, Some false)).
  { unfold startDaemon. rewrite E. cbn [negb]. rewrite Hspawn. reflexivity. }
  unfold c', restart. cbn [step]. rewrite Hstart. cbn [fst snd].
  split; [reflexivity|]. split; [exact R1|]. split; [exact R2|].
  split; [exact R3|]. split; [exact R4|]. split; [|reflexivity].
  exists l. cbn. rewrite R5, <- app_assoc. reflexivity.
Qed.

Lemma failed_spawn_leaves_no_worker_witness :
  pythonProcess (step started0
    (StartDaemon {| signal_sent := true; exit_event := Some (None, Some "SIGTERM");
                    spawn_ok := false |})) = None.
Proof.
  destruct (failed_spawn_leaves_no_worker
              {| signal_sent := true; exit_event := Some (None, Some "SIGTERM");
                 spawn_ok := false |} started0) as (_ & _ & A & _).
  - reflexivity.
  - intros _. split; [vm_compute; reflexivity | discriminate].
  - apply A. vm_compute. reflexivity.
Defined.

(** ** Further properties: requests outstanding at [dispose] *)

Lemma abandons_refl p c : abandons p c c.
Proof.
  intros H. split; [exact H|]. exists []. rewrite app_nil_r. split; [reflexivity|constructor].
Qed.

Lemma abandons_trans p c1 c2 c3 : abandons p c1 c2 -> abandons p c2 c3 -> abandons p c1 c3.
Proof.
  intros H12 H23 H1. destruct (H12 H1) as (H2 & l1 & E1 & T1).
  destruct (H23 H2) as (H3 & l2 & E2 & T2). split; [exact H3|].
  exists (l1 ++ l2). rewrite E2, E1, app_assoc. split; [reflexivity|].
  apply List.Forall_app. split; assumption.
Qed.

Lemma abandons_quiet p c c' :
  pendingRequests c' = pendingRequests c -> nextPromise c' = nextPromise c ->
  settled c' = settled c -> abandons p c c'.
Proof.
  intros Hp Hn Hs [H1 H2]. split.
  - split; [rewrite Hn; exact H1 | rewrite Hp; exact H2].
  - exists []. rewrite app_nil_r. split; [exact Hs | constructor].
Qed.

Lemma abandons_view p c c' :
  view c' = view c \/ view c' = view (setTimeout 1000 RestartDelay c) -> abandons p c c'.
Proof.
  intros [H|H]; apply view_fields in H as (Hp & _ & _ & Hn & _ & Hs);
    apply abandons_quiet; assumption.
Qed.

Lemma abandons_fold {A} p (f : t -> A -> t) (l : list A) c :
  (forall c a, abandons p c (f c a)) -> abandons p c (fold_left f l c).
Proof.
  intros H. revert c. induction l as [|a l IH]; intros c; cbn [fold_left].
  - apply abandons_refl.
  - eapply abandons_trans; [apply H | apply IH].
Qed.

Lemma abandons_handleResponse p response c c' :
  handleResponse response c = Some c' -> abandons p c c'.
Proof.
  intros H. destruct (handleResponse_cases _ _ _ H) as [(key & cb & _ & Hk & ->)|(_ & Hv & _)].
  - intros [H1 H2]. split.
    + split; [exact H1|]. cbn. intros key' cb' Hd.
      apply lookup_delete_Some in Hd as [_ Hd]. exact (H2 _ _ Hd).
    + eexists [_]. split; [reflexivity|]. constructor; [|constructor].
      cbn. intros Heq. destruct (H2 _ _ Hk Heq).
  - apply abandons_view. left. exact Hv.
Qed.

Lemma abandons_processLine p c line : abandons p c (processLine c line).
Proof.
  unfold processLine. destruct (is_empty (trim line)); [apply abandons_refl|].
  destruct (parse line) as [response|]; [|apply abandons_quiet; reflexivity].
  destruct (handleResponse response c) as [c'|] eqn:E;
    [exact (abandons_handleResponse p _ _ _ E) | apply abandons_quiet; reflexivity].
Qed.

Lemma abandons_fire p h c x : abandons p c (fire h c x).
Proof.
  unfold fire. destruct (armed (tid x) c); [|apply abandons_refl].
  eapply abandons_trans;
    [apply (abandons_quiet p c (set_now (deadline x) (clearTimeout (tid x) c)));
     reflexivity|].
  destruct (action x) as [q cmd|].
  - intros [H1 H2]. split.
    + split; [exact H1|]. cbn. intros key' cb' Hd.
      apply lookup_delete_Some in Hd as [_ Hd]. exact (H2 _ _ Hd).
    + eexists [_]. split; [reflexivity|]. constructor; [|constructor].
      cbn. eauto.
  - apply abandons_view.
    exact (proj1 (restart_view h (set_now (deadline x) (clearTimeout (tid x) c)))).
Qed.

Lemma abandons_step p c e : abandons p c (step c e).
Proof.
  destruct e as [h|h|cmd|sent|data|data|code signal| |ms h]; cbn [step].
  - apply abandons_view. exact (proj1 (startDaemon_view h c)).
  - apply abandons_view. exact (proj1 (stopDaemon_view h c)).
  - unfold sendCommand.
    change (running (set_nextPromise (S (nextPromise c)) c)) with (running c).
    destruct (running c); cbn [negb].
    + intros [H1 H2]. split.
      * split; [cbn; lia|]. cbn. intros key cb Hi.
        apply lookup_insert_Some in Hi as [[_ <-]|[_ Hi]]; [cbn; lia | exact (H2 _ _ Hi)].
      * exists []. rewrite app_nil_r. split; [reflexivity|constructor].
    + intros [H1 H2]. split.
      * split; [cbn; lia | exact H2].
      * eexists [_]. split; [reflexivity|]. constructor; [|constructor].
        cbn. lia.
  - intros [H1 H2]. unfold dispose. split.
    + split.
      * cbn. destruct (running c); [|exact H1].
        destruct (kill_view sent c) as [Hv _].
        apply view_fields in Hv as (_ & _ & _ & Hn & _). rewrite Hn. exact H1.
      * cbn. intros key cb Hl. rewrite lookup_empty in Hl. discriminate.
    + exists []. rewrite app_nil_r. split; [|constructor]. cbn.
      destruct (running c); [|reflexivity].
      destruct (kill_view sent c) as [Hv _].
      apply view_fields in Hv as (_ & _ & _ & _ & _ & Hs). exact Hs.
  - unfold onStdout, processMessages.
    eapply abandons_trans; [|apply abandons_fold; intros; apply abandons_processLine].
    apply abandons_quiet; reflexivity.
  - apply abandons_quiet; reflexivity.
  - apply abandons_view. exact (proj1 (exit_view code signal c)).
  - apply abandons_quiet; reflexivity.
  - unfold elapse. destruct (ms <? 0)%Z; [apply abandons_refl|].
    set (due := merge_sort earlier _).
    apply (abandons_trans p c (fold_left (fire h) due c)).
    + apply abandons_fold. intros. apply abandons_fire.
    + apply abandons_quiet; reflexivity.
Qed.

Lemma abandons_run p es c : abandons p c (run es c).
Proof. apply abandons_fold. intros. apply abandons_step. Qed.

(** X9.  [dispose()] empties the request table and clears no timer.  A
    command that is outstanding at that moment can therefore no longer
    be answered: whatever the worker sends afterwards, the promise is
    not resolved; the one way it still settles is its timeout, ten
    seconds after the command was sent. *)
Theorem disposed_requests_can_only_time_out
  (c : t) (cmd : PythonCommand) (es1 es2 : list event) (sent : bool) :
  reachable c -> running c = true ->
  let p := nextPromise c in
  let before := run es1 (sendCommand cmd c) in
  let after := run es2 (step before (Dispose sent)) in
  settlements p before = [] ->
  forall s, In s (settlements p after) ->
    s_outcome s = TimedOut (command cmd) /\ s_time s = (now c + 10000)%Z.
Proof.
  intros Hr Hrun p before after Hopen s Hs.
  assert (Hsb : sound before).
  { apply sound_run. apply (sound_step c (SendCommand cmd)). apply reachable_sound, Hr. }
  assert (Hsa : sound after) by (apply sound_run, sound_step, Hsb).
  set (w := {| w_promise := p; w_time := now c; w_command := cmd |}).
  assert (Hwb : In w (stdin before)).
  { destruct (extends_run es1 (sendCommand cmd c)) as [_ [l Hl]]. fold before in Hl.
    rewrite Hl, (sendCommand_written cmd c Hrun). apply in_or_app. left.
    apply in_or_app. right. left. reflexivity. }
  assert (Hwa : In w (stdin after)).
  { destruct (extends_run (Dispose sent :: es2) before) as [_ [l Hl]].
    change (run (Dispose sent :: es2) before) with after in Hl.
    rewrite Hl. apply in_or_app. left. exact Hwb. }
  assert (Hfresh : p < nextPromise before).
  { pose proof (written_fresh before (proj1 Hsb)) as Hf.
    rewrite List.Forall_forall in Hf. exact (Hf w Hwb). }
  assert (Hforgot : forgotten p (step before (Dispose sent))).
  { split.
    - cbn [step]. unfold dispose. cbn. destruct (running before); [|exact Hfresh].
      destruct (kill_view sent before) as [Hv _].
      apply view_fields in Hv as (_ & _ & _ & Hn & _). rewrite Hn. exact Hfresh.
    - cbn [step]. unfold dispose. cbn. intros key cb Hl.
      rewrite lookup_empty in Hl. discriminate. }
  destruct (abandons_run p es2 _ Hforgot) as (_ & l & Hl & Hto).
  fold after in Hl.
  assert (Hd : settled (step before (Dispose sent)) = settled before).
  { cbn [step]. unfold dispose. cbn. destruct (running before); [|reflexivity].
    destruct (kill_view sent before) as [Hv _].
    apply view_fields in Hv as (_ & _ & _ & _ & _ & Hs'). exact Hs'. }
  apply settlements_In in Hs as [Hin Hps].
  assert (Hk : exists k, s_outcome s = TimedOut k).
  { rewrite Hl, Hd in Hin. apply in_app_or in Hin as [Hin|Hin].
    - exfalso. assert (Hin' : In s (settlements p before)).
      { unfold settlements. apply List.filter_In. split; [exact Hin|].
        apply Nat.eqb_eq. exact Hps. }
      rewrite Hopen in Hin'. exact Hin'.
    - unfold only_timeouts in Hto. rewrite List.Forall_forall in Hto.
      exact (Hto s Hin Hps). }
  destruct Hk as [k Hk].
  pose proof (settled_right after (proj1 Hsa) s w Hin Hwa Hps) as H.
  rewrite Hk in H. cbn in H. destruct H as [-> ->]. rewrite Hk. auto.
Qed.

Lemma disposed_requests_can_only_time_out_witness :
  List.Forall (fun s => s_outcome s = TimedOut cmd_update /\ s_time s = 10000%Z)
    (settlements 0
       (run [Stdout (bytes "{'type':'response','id':'cmd_1','data':[]}" ++ newline);
             Elapse 10000 obliging]
          (step (run [] (sendCommand update1 started0)) (Dispose true)))).
Proof.
  apply List.Forall_forall.
  assert (Hr : reachable started0) by (eexists _, _; reflexivity).
  assert (Hrun : running started0 = true) by (vm_compute; reflexivity).
  assert (Hopen : settlements (nextPromise started0)
                    (run [] (sendCommand update1 started0)) = [])
    by (vm_compute; reflexivity).
  exact (disposed_requests_can_only_time_out started0 update1 []
           [Stdout (bytes "{'type':'response','id':'cmd_1','data':[]}" ++ newline);
            Elapse 10000 obliging] true Hr Hrun Hopen).
Defined.

(** ** Further properties: the end of the restart budget *)





Lemma clearTimeout_sub h c x : In x (timers (clearTimeout h c)) -> In x (timers c).
Proof. unfold clearTimeout. cbn. intros H. apply List.filter_In in H. tauto. Qed.













(** ** The restart policy after an unexpected exit *)




















(** One such run in full: the worker is started and exits with code 1;
    a second later the restart is attempted; [startDaemon()] is called
    from outside; a minute passes.  One worker has been spawned, the
    counter shows 1, no timer is armed, and the last thing shown is the
    announcement of the restart that never came. *)
Lemma crash_run_outcome :
  nextPid (run crash_run started0) = 1 /\
  restartCount (run crash_run started0) = 1 /\
  timers (run crash_run started0) = [] /\
  shown (run crash_run started0) = [InfoDaemonStarted; WarnRestarting 1 5] /\
  pythonProcess (run crash_run started0)
    = Some {| pid := 0; killed := false; life := Exited |}.
Proof. vm_compute. repeat split. Qed.

(** A restart that does go through (the worker was gone from
    [pythonProcess] when the delay ran out) sets the counter back to
    zero itself: [startDaemon] does so for whoever calls it. *)
Lemma restart_resets_the_counter h c :
  snd (startDaemon h c) = Some true -> restartCount (restart h c) = 0.
Proof.
  unfold restart, startDaemon.
  destruct (if running c then stopDaemon h c else (c, true)) as [c1 stopped].
  destruct (negb stopped); [discriminate|].
  destruct (spawn_ok h); [reflexivity | discriminate].
Qed.

Lemma restart_resets_the_counter_example :
  restartCount (run [StopDaemon resentful] started0) = 1 /\
  restartCount (run [StopDaemon resentful; Elapse 1000 obliging] started0) = 0 /\
  shown (run [StopDaemon resentful; Elapse 1000 obliging] started0)
  = [InfoDaemonStarted; WarnRestarting 1 5; InfoDaemonStarted; InfoDaemonRestarted].
Proof. vm_compute. repeat split. Qed.

End client.

(** * Properties of the configuration manager *)

Section config.
Import Text Json ConfigManager Examples.

Lemma elements_set a l c : elements a (set_elements a l c) = l.
Proof. unfold elements, set_elements. cbn. rewrite lookup_insert_eq. reflexivity. Qed.

Lemma elements_saveConfig ok a c : elements a (saveConfig ok c) = elements a c.
Proof. unfold saveConfig. destruct ok; reflexivity. Qed.

Lemma config_saveConfig ok c : config (saveConfig ok c) = config c.
Proof. unfold saveConfig. destruct ok; reflexivity. Qed.

(** [findIndex] finds the first element that satisfies the test. *)
Lemma findIndex_Some {A} (p : A -> bool) (l : list A) i :
  findIndex p l = Some i ->
  exists before x after,
    l = before ++ x :: after /\ length before = i /\ p x = true /\
    List.forallb (fun y => negb (p y)) before = true.
Proof.
  revert i. induction l as [|y l IH]; intros i H; cbn in H; [discriminate|].
  destruct (p y) eqn:E.
  - injection H as <-. exists [], y, l. auto.
  - destruct (findIndex p l) as [j|]; [|discriminate]. injection H as <-.
    destruct (IH j eq_refl) as (before & x & after & -> & Hlen & Hx & Hb).
    exists (y :: before), x, after. cbn. rewrite E, Hb, Hlen. auto.
Qed.

Lemma findIndex_None {A} (p : A -> bool) (l : list A) :
  findIndex p l = None -> List.forallb (fun y => negb (p y)) l = true.
Proof.
  induction l as [|y l IH]; intros H; cbn in *; [reflexivity|].
  destruct (p y); [discriminate|]. destruct (findIndex p l); [discriminate|].
  cbn. apply IH. reflexivity.
Qed.

Lemma find_skip {A} (p : A -> bool) (before rest : list A) :
  List.forallb (fun y => negb (p y)) before = true ->
  List.find p (before ++ rest) = List.find p rest.
Proof.
  induction before as [|y before IH]; intros H; cbn in *; [reflexivity|].
  apply andb_prop in H as [Hy Hb]. apply negb_true_iff in Hy. rewrite Hy. apply IH, Hb.
Qed.

Lemma find_none {A} (p : A -> bool) (l : list A) :
  List.forallb (fun y => negb (p y)) l = true -> List.find p l = None.
Proof.
  intros H. rewrite <- (app_nil_r l). rewrite find_skip by exact H. reflexivity.
Qed.

(** The list of stocks after [addStock]. *)
Lemma addStock_elements ok stock c :
  getAllStocks (addStock ok stock c) =
  match findIndex (fun s => bool_decide (code s = code stock)) (getAllStocks c) with
  | Some i =>
      match getAllStocks c !! i with
      | Some old => <[i := spread old stock]> (getAllStocks c)
      | None => getAllStocks c
      end
  | None => getAllStocks c ++ [stock]
  end.
Proof.
  unfold getAllStocks, addStock. rewrite config_saveConfig, elements_saveConfig.
  destruct (findIndex _ _) as [i|].
  - destruct (_ !! i) as [old|]; [|reflexivity]. cbn. apply elements_set.
  - cbn. apply elements_set.
Qed.

Lemma insert_middle {A} (before after : list A) (x y : A) :
  <[length before := y]> (before ++ x :: after) = before ++ y :: after.
Proof.
  induction before as [|b before IH]; cbn; [reflexivity|]. f_equal. exact IH.
Qed.

Lemma lookup_middle {A} (before after : list A) (x : A) :
  (before ++ x :: after) !! length before = Some x.
Proof. induction before as [|b before IH]; cbn; [reflexivity | exact IH]. Qed.

(** [addStock] in terms of the list: the first entry with the code is
    merged with the new one where it stands, or the new one is put at
    the end. *)
Lemma addStock_cases ok stock c :
  (exists before old after,
     getAllStocks c = before ++ old :: after /\
     code old = code stock /\
     List.forallb (fun y => negb (bool_decide (code y = code stock))) before = true /\
     getAllStocks (addStock ok stock c) = before ++ spread old stock :: after) \/
  (List.forallb (fun y => negb (bool_decide (code y = code stock))) (getAllStocks c) = true /\
   getAllStocks (addStock ok stock c) = getAllStocks c ++ [stock]).
Proof.
  rewrite addStock_elements.
  destruct (findIndex _ _) as [i|] eqn:E.
  - left. apply findIndex_Some in E as (before & old & after & Hl & <- & Hold & Hb).
    exists before, old, after. rewrite Hl, lookup_middle, insert_middle.
    split; [reflexivity|]. split; [|auto].
    apply bool_decide_eq_true in Hold. exact Hold.
  - right. apply findIndex_None in E. auto.
Qed.

Lemma find_app_other {A} (p : A -> bool) (l1 l2 : list A) :
  List.find p (l1 ++ l2) =
  match List.find p l1 with Some x => Some x | None => List.find p l2 end.
Proof.
  induction l1 as [|y l1 IH]; cbn; [reflexivity|]. destruct (p y); [reflexivity|exact IH].
Qed.

(** X27.  [addStock] is an insert-or-update keyed by the code.  Afterwards the
    code leads to the new entry, merged over the old one if there was
    one (the optional properties the new entry does not have are kept);
    every other code leads where it led before; the entries keep their
    order, a new code going to the end; and codes that were distinct
    stay distinct.  The list changes in this way whether or not the
    file can be written: when the write fails, nothing is announced
    and an error is shown, but the change stays in memory. *)
Theorem addStock_inserts_or_updates (ok : bool) (stock : StockConfig) (c : t) :
  let c' := addStock ok stock c in
  getStock (code stock) c' =
    Some (match getStock (code stock) c with
          | Some old => spread old stock
          | None => stock
          end) /\
  (forall k, k <> code stock -> getStock k c' = getStock k c) /\
  map code (getAllStocks c') =
    map code (getAllStocks c) ++
    match getStock (code stock) c with Some _ => [] | None => [code stock] end /\
  (List.NoDup (map code (getAllStocks c)) -> List.NoDup (map code (getAllStocks c'))) /\
  written c' = written c ++
    (if ok then [{| f_version := version (config c); f_stocks := getAllStocks c';
                    f_settings := settings (config c) |}] else []) /\
  announced c' = announced c ++ (if ok then [config c] else []) /\
  shown c' = shown c ++ (if ok then [] else [ErrorSaveFailed]).
Proof.
  intros c'.
  assert (Hlog :
    written c' = written c ++
      (if ok then [{| f_version := version (config c); f_stocks := getAllStocks c';
                      f_settings := settings (config c) |}] else []) /\
    announced c' = announced c ++ (if ok then [config c] else []) /\
    shown c' = shown c ++ (if ok then [] else [ErrorSaveFailed])).
  { unfold c', getAllStocks, addStock.
    rewrite config_saveConfig, elements_saveConfig.
    destruct (findIndex _ _) as [i|]; [destruct (_ !! i) as [old|]|];
      destruct ok; cbn; rewrite ?app_nil_r; auto. }
  cut (getStock (code stock) c' =
         Some (match getStock (code stock) c with
               | Some old => spread old stock
               | None => stock
               end) /\
       (forall k, k <> code stock -> getStock k c' = getStock k c) /\
       map code (getAllStocks c') =
         map code (getAllStocks c) ++
         match getStock (code stock) c with Some _ => [] | None => [code stock] end /\
       (List.NoDup (map code (getAllStocks c)) ->
        List.NoDup (map code (getAllStocks c')))).
  { intros (A & B & C & D). auto 10. }
  clear Hlog.
  unfold getStock. fold (getAllStocks c). fold (getAllStocks c').
  destruct (addStock_cases ok stock c) as
    [(before & old & after & Hl & Hold & Hb & Hl')|[Hnone Hl']];
    fold c' in Hl'; rewrite Hl'.
  - rewrite Hl. rewrite !find_skip by exact Hb. cbn [List.find spread code].
    rewrite !bool_decide_eq_true_2 by (reflexivity || exact Hold).
    split; [reflexivity|]. split; [|split].
    + intros k Hk. rewrite !find_app_other. cbn [List.find spread code].
      rewrite Hold. rewrite !bool_decide_eq_false_2 by congruence. reflexivity.
    + rewrite !map_app. cbn [map spread code]. rewrite Hold, app_nil_r. reflexivity.
    + rewrite !map_app. cbn [map spread code]. rewrite Hold. trivial.
  - rewrite (find_none _ _ Hnone). rewrite find_skip by exact Hnone. cbn [List.find].
    rewrite bool_decide_eq_true_2 by reflexivity.
    split; [reflexivity|]. split; [|split].
    + intros k Hk. rewrite find_app_other. cbn [List.find].
      rewrite bool_decide_eq_false_2 by congruence.
      destruct (List.find _ _); reflexivity.
    + rewrite map_app. reflexivity.
    + intros Hnd. rewrite map_app. cbn [map].
      apply NoDup_ListNoDup. apply NoDup_app.
      split; [apply NoDup_ListNoDup, Hnd|]. split; [|apply NoDup_singleton].
      intros x Hx Hx'. apply list_elem_of_In in Hx. apply list_elem_of_In in Hx'.
      destruct Hx' as [<-|[]].
      apply in_map_iff in Hx as (y & Hy & Hin).
      rewrite List.forallb_forall in Hnone. specialize (Hnone y Hin).
      apply negb_true_iff in Hnone. apply bool_decide_eq_false in Hnone. congruence.
Qed.

Lemma addStock_inserts_or_updates_witness :
  map code (getAllStocks
    (addStock true (holding "600000" 12) (addStock false (holding "000001" 9)
       (addStock true (holding "600000" 10) manager0))))
  = [js "600000"; js "000001"].
Proof.
  destruct (addStock_inserts_or_updates true (holding "600000" 12)
              (addStock false (holding "000001" 9)
                 (addStock true (holding "600000" 10) manager0)))
    as (_ & _ & H & _).
  rewrite H. vm_compute. reflexivity.
Defined.

Lemma find_filter_same {A} (p : A -> bool) (l : list A) :
  List.find p (List.filter (fun x => negb (p x)) l) = None.
Proof.
  induction l as [|x l IH]; cbn; [reflexivity|].
  destruct (p x) eqn:E; cbn; [exact IH|]. rewrite E. exact IH.
Qed.

Lemma find_filter_other {A} (p q : A -> bool) (l : list A) :
  (forall x, p x = true -> q x = true) ->
  List.find p (List.filter q l) = List.find p l.
Proof.
  intros H. induction l as [|x l IH]; cbn; [reflexivity|].
  destruct (q x) eqn:Eq; cbn.
  - destruct (p x); [reflexivity | exact IH].
  - destruct (p x) eqn:Ep; [|exact IH]. rewrite (H x Ep) in Eq. discriminate.
Qed.

Lemma removeStock_elements ok k c :
  getAllStocks (removeStock ok k c) =
  List.filter (fun s => negb (bool_decide (code s = k))) (getAllStocks c).
Proof.
  unfold getAllStocks, removeStock. rewrite config_saveConfig, elements_saveConfig.
  unfold elements at 1. cbn. rewrite lookup_insert_eq. reflexivity.
Qed.

(** X28.  [removeStock] takes away every entry with the code, not only the
    first, and leaves the other entries as they are and in their
    order.  It saves and announces the configuration whether or not an
    entry was there to be removed. *)
Theorem removeStock_removes_every_entry_with_the_code (ok : bool) (k : jsstring) (c : t) :
  let c' := removeStock ok k c in
  getStock k c' = None /\
  ~ In k (map code (getAllStocks c')) /\
  (forall k', k' <> k -> getStock k' c' = getStock k' c) /\
  (forall s, code s <> k -> In s (getAllStocks c) -> In s (getAllStocks c')) /\
  announced c' = announced c ++ (if ok then [config c'] else []) /\
  shown c' = shown c ++ (if ok then [] else [ErrorSaveFailed]).
Proof.
  intros c'. unfold getStock. fold (getAllStocks c). fold (getAllStocks c').
  unfold c'. rewrite removeStock_elements.
  split; [apply find_filter_same|]. split; [|split; [|split]].
  - intros Hin. apply in_map_iff in Hin as (s & Hs & Hin).
    apply List.filter_In in Hin as [_ Hne].
    apply negb_true_iff, bool_decide_eq_false in Hne. congruence.
  - intros k' Hk. apply find_filter_other. intros s Hs.
    apply bool_decide_eq_true in Hs. apply negb_true_iff, bool_decide_eq_false.
    congruence.
  - intros s Hs Hin. apply List.filter_In. split; [exact Hin|].
    apply negb_true_iff, bool_decide_eq_false. exact Hs.
  - unfold removeStock, saveConfig. destruct ok; cbn; rewrite ?app_nil_r; auto.
Qed.

Lemma removeStock_removes_every_entry_with_the_code_witness :
  getStock (js "600000")
    (removeStock true (js "600000")
       (addStock true (holding "000001" 9) (addStock true (holding "600000" 10) manager0)))
  = None /\
  In (holding "000001" 9)
    (getAllStocks
       (removeStock true (js "600000")
          (addStock true (holding "000001" 9)
             (addStock true (holding "600000" 10) manager0)))).
Proof.
  destruct (removeStock_removes_every_entry_with_the_code true (js "600000")
              (addStock true (holding "000001" 9)
                 (addStock true (holding "600000" 10) manager0)))
    as (A & _ & _ & H & _).
  split; [exact A|].
  apply H; [vm_compute; discriminate | vm_compute; auto].
Defined.

(** X29.  [getConfig] hands out a shallow copy.  The copy refers to the very
    array the manager works on, so a stock added afterwards shows up in
    a configuration that was handed out before; a removal does not,
    because [removeStock] gives the manager a new array and leaves the
    old one to those who hold it. *)
Theorem getConfig_shares_the_stock_array
  (ok : bool) (stock : StockConfig) (k : jsstring) (c : t) :
  well_formed c ->
  let cfg := getConfig c in
  elements (stocks cfg) (addStock ok stock c) = getAllStocks (addStock ok stock c) /\
  elements (stocks cfg) (removeStock ok k c) = getAllStocks c /\
  well_formed (addStock ok stock c) /\ well_formed (removeStock ok k c).
Proof.
  intros [Hlt [l Hl]] cfg. unfold cfg, getConfig. cbn [stocks].
  assert (Hcfg : config (addStock ok stock c) = config c).
  { unfold addStock. rewrite config_saveConfig.
    destruct (findIndex _ _) as [i|]; [destruct (_ !! i)|]; reflexivity. }
  split; [unfold getAllStocks; rewrite Hcfg; reflexivity|]. split; [|split].
  - unfold removeStock. rewrite elements_saveConfig. unfold getAllStocks, elements. cbn.
    rewrite lookup_insert_ne by lia. reflexivity.
  - unfold well_formed. rewrite Hcfg. unfold addStock, saveConfig.
    destruct (findIndex _ _) as [i|]; [destruct (_ !! i)|]; destruct ok; cbn;
      rewrite ?lookup_insert_eq, ?Hl; eauto.
  - unfold well_formed, removeStock, saveConfig. destruct ok; cbn;
      rewrite lookup_insert_eq; split; eauto; lia.
Qed.

Lemma getConfig_shares_the_stock_array_witness :
  elements (stocks (getConfig manager0)) (addStock true (holding "600000" 10) manager0)
    = [holding "600000" 10] /\
  elements (stocks (getConfig (addStock true (holding "600000" 10) manager0)))
           (removeStock true (js "600000") (addStock true (holding "600000" 10) manager0))
    = [holding "600000" 10].
Proof.
  assert (W0 : well_formed manager0).
  { split; [vm_compute; lia|]. eexists. vm_compute. reflexivity. }
  destruct (getConfig_shares_the_stock_array true (holding "600000" 10) (js "600000")
              manager0 W0) as (A & _ & W1 & _).
  destruct (getConfig_shares_the_stock_array true (holding "600000" 10) (js "600000")
              (addStock true (holding "600000" 10) manager0) W1) as (_ & B & _).
  split.
  - rewrite A. vm_compute. reflexivity.
  - rewrite B. vm_compute. reflexivity.
Defined.

Lemma validated_sound stock s :
  validated stock = Some s ->
  6 <= length (code s) /\ gt_zero (buyPrice s) = true /\ gt_zero (quantity s) = true /\
  name s <> Absent /\ exchange s <> Absent /\
  truthy stock = true /\
  prop stock (js "code") = Some (JStr (code s)) /\
  prop stock (js "buyPrice") = Some (JNum (buyPrice s)) /\
  prop stock (js "quantity") = Some (JNum (quantity s)) /\
  prop stock (js "enabled") = Some (JBool (enabled s)) /\
  name s = or_undefined (prop stock (js "name")) /\
  exchange s = or_undefined (prop stock (js "exchange")).
Proof.
  unfold validated. destruct (truthy stock); [|discriminate]. cbn [negb].
  destruct (prop stock (js "code")) as [[| | |c| |]|]; try discriminate.
  destruct (prop stock (js "buyPrice")) as [[| |p| | |]|]; try discriminate.
  destruct (prop stock (js "quantity")) as [[| |q| | |]|]; try discriminate.
  destruct (prop stock (js "enabled")) as [[|e| | | |]|]; try discriminate.
  destruct (Nat.leb 6 (length c)) eqn:Hc; [|discriminate].
  destruct (gt_zero p) eqn:Hp; [|discriminate].
  destruct (gt_zero q) eqn:Hq; [|discriminate].
  cbn [andb]. intros H. injection H as <-.
  cbn [code name buyPrice quantity enabled exchange].
  apply Nat.leb_le in Hc.
  repeat split; try assumption.
  - unfold or_undefined in *. destruct (prop stock (js "name")) as [x|]; [|congruence].
    destruct (truthy x); congruence.
  - unfold or_undefined in *. destruct (prop stock (js "exchange")) as [x|]; [|congruence].
    destruct (truthy x); congruence.
Qed.

Lemma validated_complete stock c p q e :
  truthy stock = true ->
  prop stock (js "code") = Some (JStr c) ->
  prop stock (js "buyPrice") = Some (JNum p) ->
  prop stock (js "quantity") = Some (JNum q) ->
  prop stock (js "enabled") = Some (JBool e) ->
  6 <= length c -> gt_zero p = true -> gt_zero q = true ->
  validated stock =
  Some {| code := c; name := or_undefined (prop stock (js "name"));
          buyPrice := p; quantity := q; enabled := e;
          exchange := or_undefined (prop stock (js "exchange")) |}.
Proof.
  intros Ht Hc Hp Hq He Hl Hgp Hgq. unfold validated.
  rewrite Ht, Hc, Hp, Hq, He, Hgp, Hgq. cbn [negb].
  apply Nat.leb_le in Hl. rewrite Hl. reflexivity.
Qed.

(** X30.  What [validateStocks] lets through.  Anything that is not an array
    gives the empty list.  An array is gone through element by element,
    in order.  An element is kept exactly when it is an object with a
    string [code] of at least six code units, a number [buyPrice]
    greater than 0, a number [quantity] greater than 0 and a boolean
    [enabled]; every other element is dropped without a word.  What is
    kept carries those four values as they were, and has a [name] and
    an [exchange] property, [undefined] when the element had none or a
    falsy one.  Nothing is checked across entries: two entries with the
    same code both pass. *)
Theorem validateStocks_keeps_only_well_formed_entries (v : value) :
  ((forall items, v <> JArr items) -> validateStocks v = []) /\
  validateStocks (JArr []) = [] /\
  (forall xs ys,
     validateStocks (JArr (xs ++ ys)) = validateStocks (JArr xs) ++ validateStocks (JArr ys)) /\
  (forall c p q e,
     truthy v = true ->
     prop v (js "code") = Some (JStr c) ->
     prop v (js "buyPrice") = Some (JNum p) ->
     prop v (js "quantity") = Some (JNum q) ->
     prop v (js "enabled") = Some (JBool e) ->
     6 <= length c -> gt_zero p = true -> gt_zero q = true ->
     validateStocks (JArr [v]) =
     [{| code := c; name := or_undefined (prop v (js "name"));
         buyPrice := p; quantity := q; enabled := e;
         exchange := or_undefined (prop v (js "exchange")) |}]) /\
  (validateStocks (JArr [v]) = [] \/
   exists s, validateStocks (JArr [v]) = [s] /\
     truthy v = true /\
     prop v (js "code") = Some (JStr (code s)) /\ 6 <= length (code s) /\
     prop v (js "buyPrice") = Some (JNum (buyPrice s)) /\ gt_zero (buyPrice s) = true /\
     prop v (js "quantity") = Some (JNum (quantity s)) /\ gt_zero (quantity s) = true /\
     prop v (js "enabled") = Some (JBool (enabled s)) /\
     name s = or_undefined (prop v (js "name")) /\
     exchange s = or_undefined (prop v (js "exchange"))) /\
  (forall s, In s (validateStocks v) ->
     6 <= length (code s) /\ gt_zero (buyPrice s) = true /\ gt_zero (quantity s) = true /\
     name s <> Absent /\ exchange s <> Absent).
Proof.
  split; [|split; [|split; [|split; [|split]]]].
  - intros H. destruct v; try reflexivity. destruct (H items eq_refl).
  - reflexivity.
  - intros xs ys. cbn. apply omap_app.
  - intros c p q e Ht Hc Hp Hq He Hl Hgp Hgq. cbn.
    rewrite (validated_complete v c p q e); auto.
  - cbn. destruct (validated v) as [s|] eqn:E; [right | left; reflexivity].
    exists s. split; [reflexivity|].
    destruct (validated_sound v s E) as (A & B & C & _ & _ & D & F & G & H & I & J & K).
    auto 12.
  - intros s Hs. destruct v; try contradiction. cbn in Hs.
    apply list_elem_of_In in Hs. apply list_elem_of_omap in Hs as (x & _ & Hx).
    destruct (validated_sound x s Hx) as (A & B & C & D & E & _). auto.
Qed.

Lemma validateStocks_keeps_only_well_formed_entries_witness :
  validateStocks
    (JArr [JNull;
           JObj [(js "code", JStr (js "600000")); (js "buyPrice", JNum 10);
                 (js "quantity", JNum 100); (js "enabled", JBool true)];
           JObj [(js "code", JStr (js "6000")); (js "buyPrice", JNum 10);
                 (js "quantity", JNum 100); (js "enabled", JBool true)]])
  = [{| code := js "600000"; name := Undefined; buyPrice := 10; quantity := 100;
        enabled := true; exchange := Undefined |}] /\
  validateStocks (JNum 5) = [].
Proof.
  destruct (validateStocks_keeps_only_well_formed_entries
              (JObj [(js "code", JStr (js "600000")); (js "buyPrice", JNum 10);
                     (js "quantity", JNum 100); (js "enabled", JBool true)]))
    as (_ & _ & Happ & Hkeep & _).
  destruct (validateStocks_keeps_only_well_formed_entries (JNum 5)) as (Hno & _).
  split; [|apply Hno; intros items; discriminate].
  pose proof (Hkeep (js "600000") 10%Q 100%Q true) as H.
  assert (H6 : 6 <= length (js "600000")) by (vm_compute; lia).
  specialize (H eq_refl eq_refl eq_refl eq_refl eq_refl H6).
  assert (G1 : gt_zero 10 = true) by (vm_compute; reflexivity).
  assert (G2 : gt_zero 100 = true) by (vm_compute; reflexivity).
  specialize (H G1 G2).
  pose proof (Happ [JNull]
                [JObj [(js "code", JStr (js "600000")); (js "buyPrice", JNum 10);
                       (js "quantity", JNum 100); (js "enabled", JBool true)];
                 JObj [(js "code", JStr (js "6000")); (js "buyPrice", JNum 10);
                       (js "quantity", JNum 100); (js "enabled", JBool true)]]) as H1.
  pose proof (Happ
                [JObj [(js "code", JStr (js "600000")); (js "buyPrice", JNum 10);
                       (js "quantity", JNum 100); (js "enabled", JBool true)]]
                [JObj [(js "code", JStr (js "6000")); (js "buyPrice", JNum 10);
                       (js "quantity", JNum 100); (js "enabled", JBool true)]]) as H2.
  vm_compute in H, H1, H2. vm_compute. exact H1.
Defined.

End config.
